(** * ai-it-support-bot: the request-processing pipeline

    A shallow embedding of the TypeScript sources

      - [app/api/answer/route.ts]  (the token-bucket rate limiter, the
        TTL/LRU response cache and the [POST] handler),
      - [lib/answerSchema.ts]      (the answer contract: schema,
        [clampAnswer], [distinctDomainsOK]),
      - [lib/tools.ts]             ([fetch_page], [search_web],
        [make_svg_diagram]),
      - [lib/llm.ts]               ([answerIssue], the tool-calling loop
        and the citation repair round),
      - [lib/schemas.ts], [lib/runbooks.ts] and [lib/rubric.ts]
        ([quickRubricCheck]),

    together with the properties the specification states about them, and
    further properties of the code (X1 to X30).

    Conventions.  [Date.now()] is an integer number of milliseconds and is
    modelled in [Z]; every operation that reads the clock takes the reading
    as an argument.  The token count of a bucket is a JavaScript number that
    is not integral in general; it is modelled by a canonical rational [Qc],
    that is by exact arithmetic (the rounding of IEEE doubles is not
    modelled).  JavaScript strings are modelled by [string], one character
    per code unit.  A call that can throw returns [option] or a sum. *)

From Stdlib Require Import ZArith QArith Qcanon String Ascii List Lia Bool PrimFloat.
From Stdlib Require Import Sorted DecimalString.
From stdpp Require Import base decidable option numbers list gmap strings.

Set Warnings "-clear-no-such-hyp".
Set Warnings "-abstract-large-number".
Set Warnings "-register-all".

Import ListNotations.
Local Open Scope string_scope.
Local Open Scope list_scope.
Local Open Scope Z_scope.

(* ===================================================================== *)
(** * The token-bucket rate limiter ([class TokenBucketRateLimiter]) *)
(* ===================================================================== *)

Module TokenBucketRateLimiter.

(** [{ tokens: number; lastRefill: number }] *)
Record Bucket := mkBucket { tokens : Qc; lastRefill : Z }.

(** The private fields of the class. *)
Record t := mk {
  buckets : gmap string Bucket;
  maxTokens : Qc;
  refillRate : Qc;       (* tokens per millisecond *)
  refillInterval : Z     (* milliseconds *)
}.

(** [Math.min] on two numbers. *)
Definition Math_min (x y : Qc) : Qc := if decide (x ≤ y)%Qc then x else y.

(** [constructor(maxTokens, refillIntervalMs)] *)
Definition new (maxTokens : Z) (refillIntervalMs : Z) : t :=
  {| buckets := ∅;
     maxTokens := Qc_of_Z maxTokens;
     refillInterval := refillIntervalMs;
     refillRate := (Qc_of_Z maxTokens / Qc_of_Z refillIntervalMs)%Qc |}.

Definition with_buckets (rl : t) (b : gmap string Bucket) : t :=
  {| buckets := b; maxTokens := maxTokens rl;
     refillRate := refillRate rl; refillInterval := refillInterval rl |}.

(** The refill both [consume] and [getRemainingTokens] compute:
    [Math.min(maxTokens, bucket.tokens + (now - bucket.lastRefill) * refillRate)]. *)
Definition refilled (rl : t) (bucket : Bucket) (now : Z) : Qc :=
  let timePassed := now - lastRefill bucket in
  let tokensToAdd := (Qc_of_Z timePassed * refillRate rl)%Qc in
  Math_min (maxTokens rl) (tokens bucket + tokensToAdd)%Qc.

(** [consume(ip)], with [now] the value [Date.now()] returns in it.  The
    bucket object is updated in place and stored back on both paths. *)
Definition consume (rl : t) (ip : string) (now : Z) : bool * t :=
  let bucket :=
    default {| tokens := maxTokens rl; lastRefill := now |} (buckets rl !! ip) in
  let bucket := {| tokens := refilled rl bucket now; lastRefill := now |} in
  if decide (1 ≤ tokens bucket)%Qc then
    let bucket := {| tokens := (tokens bucket - 1)%Qc; lastRefill := lastRefill bucket |} in
    (true, with_buckets rl (<[ip := bucket]> (buckets rl)))
  else
    (false, with_buckets rl (<[ip := bucket]> (buckets rl))).

(** [getRemainingTokens(ip)] *)
Definition getRemainingTokens (rl : t) (ip : string) (now : Z) : Qc :=
  match buckets rl !! ip with
  | None => maxTokens rl
  | Some bucket => refilled rl bucket now
  end.

(** [const rateLimiter = new TokenBucketRateLimiter(10, 10 * 60 * 1000)] *)
Definition rateLimiter : t := new 10 (10 * 60 * 1000).

(** [n] calls of [consume] for one identity, the [i]-th at the clock
    reading [nth i nows]: the answers in order, and the final state. *)
Fixpoint consume_seq (rl : t) (ip : string) (nows : list Z) : list bool * t :=
  match nows with
  | [] => ([], rl)
  | now :: nows' =>
      let '(ok, rl1) := consume rl ip now in
      let '(oks, rl2) := consume_seq rl1 ip nows' in
      (ok :: oks, rl2)
  end.

(** ** Properties of the limiter *)

Section Properties.
Local Open Scope Qc_scope.

Implicit Types (rl : t) (ip : string) (now : Z) (b : Bucket).

Lemma Math_min_r (x y : Qc) : y ≤ x → Math_min x y = y.
Proof.
  intros Hyx. unfold Math_min. case_decide as Hxy; [|done].
  by apply (anti_symm Qcle).
Qed.

(** No time has passed since the last refill: nothing is added. *)
Lemma refilled_same_instant rl b now :
  tokens b ≤ maxTokens rl → lastRefill b = now → refilled rl b now = tokens b.
Proof.
  intros Hle <-. unfold refilled.
  rewrite Z.sub_diag, Z2Qc_inj_0, Qcmult_0_l, Qcplus_0_r.
  by apply Math_min_r.
Qed.

(** What [consume] stores is the refilled bucket, less the token it hands
    out when it has one; this holds on the denying path too. *)
Lemma consume_stores rl ip now :
  let b0 := default {| tokens := maxTokens rl; lastRefill := now |} (buckets rl !! ip) in
  let r := refilled rl b0 now in
  consume rl ip now =
    (bool_decide (1 ≤ r),
     with_buckets rl
       (<[ip := {| tokens := if bool_decide (1 ≤ r) then r - 1 else r;
                   lastRefill := now |}]> (buckets rl))).
Proof.
  intros b0 r. unfold consume. fold b0. cbn [tokens lastRefill]. fold r.
  case_decide as H1.
  - by rewrite bool_decide_eq_true_2.
  - by rewrite bool_decide_eq_false_2.
Qed.

(** One call at the instant of the bucket's last refill, the bucket holding
    a whole number [n] of tokens. *)
Lemma consume_same_instant rl ip now (n : Z) :
  Qc_of_Z n ≤ maxTokens rl →
  default {| tokens := maxTokens rl; lastRefill := now |} (buckets rl !! ip)
    = {| tokens := Qc_of_Z n; lastRefill := now |} →
  consume rl ip now =
    (bool_decide (1 ≤ n)%Z,
     with_buckets rl
       (<[ip := {| tokens := Qc_of_Z (if bool_decide (1 ≤ n)%Z then n - 1 else n);
                   lastRefill := now |}]> (buckets rl))).
Proof.
  intros Hle Hb. rewrite consume_stores, Hb.
  rewrite refilled_same_instant by done. cbn [tokens].
  assert (bool_decide (1 ≤ Qc_of_Z n) = bool_decide (1 ≤ n)%Z) as ->.
  { apply bool_decide_ext. rewrite <-Z2Qc_inj_1. symmetry. apply Z2Qc_inj_le. }
  case_bool_decide; [|done].
  by rewrite Z2Qc_inj_sub, Z2Qc_inj_1.
Qed.

(** [k] calls in a row at one instant, from a bucket that was last refilled
    at that instant and holds [n >= k] tokens: every call is let through and
    [n - k] tokens are left. *)
Lemma consume_seq_same_instant (k : nat) : ∀ rl ip now (n : Z),
  (Z.of_nat k ≤ n)%Z →
  Qc_of_Z n ≤ maxTokens rl →
  default {| tokens := maxTokens rl; lastRefill := now |} (buckets rl !! ip)
    = {| tokens := Qc_of_Z n; lastRefill := now |} →
  ∃ rl', consume_seq rl ip (repeat now k) = (repeat true k, rl') ∧
    maxTokens rl' = maxTokens rl ∧ refillRate rl' = refillRate rl ∧
    default {| tokens := maxTokens rl; lastRefill := now |} (buckets rl' !! ip)
      = {| tokens := Qc_of_Z (n - Z.of_nat k); lastRefill := now |}.
Proof.
  induction k as [|k IH]; intros rl ip now n Hk Hle Hb.
  - exists rl. cbn. repeat split; [done..|]. by rewrite Z.sub_0_r.
  - cbn [repeat consume_seq].
    rewrite (consume_same_instant rl ip now n) by done.
    rewrite bool_decide_eq_true_2 by lia.
    set (rl1 := with_buckets rl _).
    destruct (IH rl1 ip now (n - 1)%Z) as (rl' & Hseq & Hmax & Hrate & Hb').
    + lia.
    + change (maxTokens rl1) with (maxTokens rl).
      trans (Qc_of_Z n); [|done]. apply (proj1 (Z2Qc_inj_le _ _)). lia.
    + unfold rl1. cbn [buckets with_buckets]. by rewrite lookup_insert_eq.
    + exists rl'. rewrite Hseq. repeat split; [done..|].
      change (maxTokens rl1) with (maxTokens rl) in Hb'.
      rewrite Hb'. do 2 f_equal. lia.
Qed.

(** C2.  With [maxTokens = 10] (the configuration of [rateLimiter]) and no
    bucket yet for the identity, ten [consume] calls at one instant all
    return [true] and the eleventh returns [false]; the denying call stores
    the bucket all the same.  The second part says what a denying call
    stores, for every configuration, state and clock reading: the refilled
    token count (which is below 1) and the new timestamp. *)
Theorem consume_ten_then_deny rl ip now :
  maxTokens rl = Qc_of_Z 10 →
  buckets rl !! ip = None →
  (∃ rl10 rl11,
      consume_seq rl ip (repeat now 10) = (repeat true 10, rl10) ∧
      consume rl10 ip now = (false, rl11) ∧
      buckets rl11 !! ip = Some {| tokens := 0; lastRefill := now |}) ∧
  (∀ rl0 ip0 now0 rl0',
      consume rl0 ip0 now0 = (false, rl0') →
      let b0 := default {| tokens := maxTokens rl0; lastRefill := now0 |}
                        (buckets rl0 !! ip0) in
      refilled rl0 b0 now0 < 1 ∧
      buckets rl0' !! ip0
        = Some {| tokens := refilled rl0 b0 now0; lastRefill := now0 |}).
Proof.
  intros Hmax Hnone. split.
  - destruct (consume_seq_same_instant 10 rl ip now 10) as (rl10 & Hseq & Hmax' & _ & Hb).
    + done.
    + by rewrite Hmax.
    + by rewrite Hnone, Hmax.
    + rewrite <-Hmax' in Hb. change (10 - Z.of_nat 10)%Z with 0%Z in Hb.
      eexists rl10, _. split; [exact Hseq|].
      rewrite (consume_same_instant rl10 ip now 0), bool_decide_eq_false_2; [|lia|..|done].
      * split; [reflexivity|]. cbn [buckets with_buckets].
        by rewrite lookup_insert_eq, Z2Qc_inj_0.
      * rewrite Hmax', Hmax. by apply (proj1 (Z2Qc_inj_le _ _)).
  - intros rl0 ip0 now0 rl0' Hc b0. rewrite consume_stores in Hc.
    fold b0 in Hc. case_bool_decide as Hlt; [done|].
    injection Hc as <-. split; [by apply Qclt_nge|].
    cbn [buckets with_buckets]. by rewrite lookup_insert_eq.
Qed.

(** The hypotheses of [consume_ten_then_deny] hold of the limiter the
    handler creates, which starts with no bucket at all. *)
Lemma consume_ten_then_deny_witness :
  ∃ rl10 rl11,
    consume_seq rateLimiter "203.0.113.7" (repeat 1700000000000%Z 10)
      = (repeat true 10, rl10) ∧
    consume rl10 "203.0.113.7" 1700000000000%Z = (false, rl11) ∧
    buckets rl11 !! "203.0.113.7"
      = Some {| tokens := 0; lastRefill := 1700000000000%Z |}.
Proof.
  apply (consume_ten_then_deny rateLimiter "203.0.113.7" 1700000000000%Z).
  - reflexivity.
  - apply lookup_empty.
Defined.

End Properties.

End TokenBucketRateLimiter.

(** ** The same run in IEEE doubles

    [consume] once more, on binary64 numbers as JavaScript has them, for one
    bucket: eleven calls at one clock reading give the answers and the
    state that [consume_ten_then_deny] states, no rounding taking place. *)

Module TokenBucketDoubles.
Local Open Scope float_scope.

Record Bucket := mkBucket { tokens : float; lastRefill : float }.

(** [Math.min] on numbers that are not [NaN]. *)
Definition Math_min (x y : float) : float := if x <=? y then x else y.

Definition maxTokens : float := 10.
Definition refillRate : float := 10 / 600000.

Definition consume (bucket : option Bucket) (now : float) : bool * Bucket :=
  let bucket := default {| tokens := maxTokens; lastRefill := now |} bucket in
  let timePassed := now - lastRefill bucket in
  let tokensToAdd := timePassed * refillRate in
  let tokens := Math_min maxTokens (tokens bucket + tokensToAdd) in
  if 1 <=? tokens then (true, {| tokens := tokens - 1; lastRefill := now |})
  else (false, {| tokens := tokens; lastRefill := now |}).

Fixpoint consume_seq (bucket : option Bucket) (nows : list float)
  : list bool * option Bucket :=
  match nows with
  | [] => ([], bucket)
  | now :: nows' =>
      let '(ok, bucket) := consume bucket now in
      let '(oks, bucket) := consume_seq (Some bucket) nows' in
      (ok :: oks, bucket)
  end.

Example eleven_calls_in_doubles :
  consume_seq None (repeat 1700000000000 11)
    = (repeat true 10 ++ [false],
       Some {| tokens := 0; lastRefill := 1700000000000 |}).
Proof. by vm_compute. Qed.

End TokenBucketDoubles.

(* ===================================================================== *)
(** * The response cache ([class LRUCache]) *)
(* ===================================================================== *)

(** ** The JavaScript [Map] the cache is built on

    A [Map] iterates in insertion order, so it is modelled by the list of
    its entries in that order, each key occurring once.  Only the methods
    the cache calls are modelled. *)

Module JsMap.
Section map_model.
Context {K V : Type} `{EqDecision K}.

Definition t : Type := list (K * V).

Definition keys (m : t) : list K := map fst m.

(** [m.get(k)] *)
Fixpoint get (m : t) (k : K) : option V :=
  match m with
  | [] => None
  | (k', v) :: m' => if decide (k' = k) then Some v else get m' k
  end.

(** [m.delete(k)] *)
Fixpoint delete (k : K) (m : t) : t :=
  match m with
  | [] => []
  | (k', v) :: m' => if decide (k' = k) then delete k m' else (k', v) :: delete k m'
  end.

(** [m.set(k, v)]: a key already there keeps its place, a new one goes last. *)
Fixpoint set (k : K) (v : V) (m : t) : t :=
  match m with
  | [] => [(k, v)]
  | (k', v') :: m' => if decide (k' = k) then (k, v) :: m' else (k', v') :: set k v m'
  end.

(** [m.size] *)
Definition size (m : t) : Z := Z.of_nat (length m).

(** [m.keys().next().value]: the first key, [undefined] on an empty map. *)
Definition first_key (m : t) : option K := head (keys m).

(** ** Properties of the map model *)

Implicit Types (m : t) (k : K) (v : V).

Lemma get_None m k : get m k = None ↔ k ∉ keys m.
Proof.
  induction m as [|[k' v'] m IH]; cbn.
  - split; [intros _; apply not_elem_of_nil|done].
  - case_decide as Hk; subst.
    + split; [done|]. intros []. apply elem_of_cons; auto.
    + rewrite IH, not_elem_of_cons. naive_solver.
Qed.

Lemma get_Some_elem_of m k v : get m k = Some v → (k, v) ∈ m.
Proof.
  induction m as [|[k' v'] m IH]; cbn; [done|].
  case_decide as Hk; subst.
  - intros [= ->]. apply elem_of_cons; auto.
  - intros ?. apply elem_of_cons; auto.
Qed.

Lemma get_Some_keys m k v : get m k = Some v → k ∈ keys m.
Proof.
  intros Hg. destruct (decide (k ∈ keys m)) as [|Hn]; [done|].
  apply get_None in Hn. congruence.
Qed.

Lemma delete_absent k m : k ∉ keys m → delete k m = m.
Proof.
  induction m as [|[k' v'] m IH]; cbn; [done|].
  rewrite not_elem_of_cons. intros [Hne Hm].
  rewrite decide_False by done. by rewrite IH.
Qed.

Lemma set_absent k v m : k ∉ keys m → set k v m = m ++ [(k, v)].
Proof.
  induction m as [|[k' v'] m IH]; cbn; [done|].
  rewrite not_elem_of_cons. intros [Hne Hm].
  rewrite decide_False by done. by rewrite IH.
Qed.

Lemma elem_of_keys_delete k k' m :
  k' ∈ keys (delete k m) ↔ k' ∈ keys m ∧ k' ≠ k.
Proof.
  induction m as [|[k0 v0] m IH]; cbn.
  - rewrite elem_of_nil. naive_solver.
  - case_decide as Hk; subst; cbn; rewrite ?elem_of_cons, IH; naive_solver.
Qed.

Lemma not_elem_of_keys_delete k m : k ∉ keys (delete k m).
Proof. rewrite elem_of_keys_delete. naive_solver. Qed.

Lemma get_delete_eq k m : get (delete k m) k = None.
Proof. apply get_None, not_elem_of_keys_delete. Qed.

Lemma get_delete_ne k k' m : k ≠ k' → get (delete k m) k' = get m k'.
Proof.
  intros Hne. induction m as [|[k0 v0] m IH]; cbn; [done|].
  case_decide as Hk; subst; cbn.
  - by rewrite decide_False.
  - by rewrite IH.
Qed.

Lemma NoDup_keys_delete k m : NoDup (keys m) → NoDup (keys (delete k m)).
Proof.
  induction m as [|[k0 v0] m IH]; cbn; [done|].
  rewrite NoDup_cons. intros [Hk0 Hm]. case_decide; subst; [auto|].
  cbn. apply NoDup_cons. split; [|auto].
  rewrite elem_of_keys_delete. naive_solver.
Qed.

Lemma length_delete_le k m : (length (delete k m) ≤ length m)%nat.
Proof.
  induction m as [|[k0 v0] m IH]; cbn; [done|].
  case_decide; cbn; lia.
Qed.

Lemma length_delete_lt k m : k ∈ keys m → (length (delete k m) < length m)%nat.
Proof.
  induction m as [|[k0 v0] m IH]; cbn.
  - by intros ?%elem_of_nil.
  - case_decide as Hk; subst; cbn.
    + intros _. pose proof (length_delete_le k m). lia.
    + rewrite elem_of_cons. intros [?|Hin]; [done|]. apply IH in Hin. lia.
Qed.

Lemma length_set_le k v m : (length (set k v m) ≤ S (length m))%nat.
Proof.
  induction m as [|[k0 v0] m IH]; cbn; [done|].
  case_decide; cbn; lia.
Qed.

Lemma keys_set k v m :
  keys (set k v m) = if decide (k ∈ keys m) then keys m else keys m ++ [k].
Proof.
  induction m as [|[k0 v0] m IH]; cbn.
  - rewrite decide_False; [done|apply not_elem_of_nil].
  - destruct (decide (k0 = k)) as [->|Hk]; cbn.
    + rewrite decide_True; [done|]. apply elem_of_cons; auto.
    + fold (keys (set k v m)) (keys m). rewrite IH.
      destruct (decide (k ∈ keys m)) as [Hin|Hin].
      * rewrite decide_True; [done|]. apply elem_of_cons; auto.
      * rewrite decide_False; [done|]. rewrite not_elem_of_cons. naive_solver.
Qed.

Lemma NoDup_keys_set k v m : NoDup (keys m) → NoDup (keys (set k v m)).
Proof.
  intros Hnd. rewrite keys_set. case_decide as Hin; [done|].
  apply NoDup_app. repeat split; [done| |apply NoDup_singleton].
  intros x Hx ->%list_elem_of_singleton. done.
Qed.

Lemma length_delete_NoDup k m :
  NoDup (keys m) → k ∈ keys m → S (length (delete k m)) = length m.
Proof.
  induction m as [|[k0 v0] m IH]; cbn.
  - by intros _ ?%elem_of_nil.
  - rewrite NoDup_cons. intros [Hk0 Hnd]. case_decide as Hk; subst; cbn.
    + intros _. by rewrite delete_absent.
    + rewrite elem_of_cons. intros [?|Hin]; [done|]. by rewrite IH.
Qed.

(** Deleting the first key of a map without repeated keys drops its head. *)
Lemma delete_first_key k m :
  NoDup (keys m) → first_key m = Some k → delete k m = tail m.
Proof.
  destruct m as [|[k0 v0] m]; cbn; [done|].
  rewrite NoDup_cons. intros [Hk0 _] [= ->].
  rewrite decide_True by done. by apply delete_absent.
Qed.

End map_model.
Global Arguments t : clear implicits.
End JsMap.

Module LRUCache.
Section cache_model.
Context {K V : Type} `{EqDecision K}.

(** [{ value: V; timestamp: number }] *)
Record Item := mkItem { value : V; timestamp : Z }.

Record t := mk {
  capacity : Z;
  cache : JsMap.t K Item;
  ttl : Z   (* milliseconds *)
}.

(** [constructor(capacity, ttlHours)] *)
Definition new (capacity ttlHours : Z) : t :=
  {| capacity := capacity; cache := []; ttl := ttlHours * 60 * 60 * 1000 |}.

Definition with_cache (c : t) (m : JsMap.t K Item) : t :=
  {| capacity := capacity c; cache := m; ttl := ttl c |}.

(** [get(key)], with [now] the value of [Date.now()]; [None] is [undefined]. *)
Definition get (c : t) (key : K) (now : Z) : option V * t :=
  match JsMap.get (cache c) key with
  | None => (None, c)
  | Some item =>
      if now - timestamp item >? ttl c then
        (None, with_cache c (JsMap.delete key (cache c)))
      else
        (Some (value item),
         with_cache c (JsMap.set key item (JsMap.delete key (cache c))))
  end.

(** [set(key, value)], with [now] the value of [Date.now()]. *)
Definition set (c : t) (key : K) (v : V) (now : Z) : t :=
  let m := JsMap.delete key (cache c) in
  let m :=
    if JsMap.size m >=? capacity c then
      match JsMap.first_key m with
      | Some firstKey => JsMap.delete firstKey m
      | None => m
      end
    else m in
  with_cache c (JsMap.set key {| value := v; timestamp := now |} m).

(** [size()] *)
Definition size (c : t) : Z := JsMap.size (cache c).

(** The calls a client can make, each with the clock reading it sees. *)
Inductive op :=
| OpGet (key : K) (now : Z)
| OpSet (key : K) (v : V) (now : Z)
| OpSize.

Definition step (c : t) (o : op) : t :=
  match o with
  | OpGet key now => snd (get c key now)
  | OpSet key v now => set c key v now
  | OpSize => c
  end.

Definition run (c : t) (ops : list op) : t := fold_left step ops c.

(** ** Properties of the cache *)

Implicit Types (c : t) (key : K) (v : V) (now : Z) (item : Item).

(** The state invariant: the map's keys are distinct (it is a [Map]) and
    its size is within the capacity. *)
Definition inv (c : t) : Prop :=
  NoDup (JsMap.keys (cache c)) ∧ size c ≤ capacity c.

Lemma set_spec c key v now :
  set c key v now =
    let m := JsMap.delete key (cache c) in
    let m := if JsMap.size m >=? capacity c
             then match JsMap.first_key m with
                  | Some firstKey => JsMap.delete firstKey m
                  | None => m
                  end
             else m in
    with_cache c (m ++ [(key, {| value := v; timestamp := now |})]).
Proof.
  unfold set. cbn zeta. f_equal. apply JsMap.set_absent.
  destruct (_ >=? _); [|apply JsMap.not_elem_of_keys_delete].
  destruct (JsMap.first_key _); [|apply JsMap.not_elem_of_keys_delete].
  rewrite !JsMap.elem_of_keys_delete. naive_solver.
Qed.

Lemma inv_new capacity ttlHours : 0 ≤ capacity → inv (new capacity ttlHours).
Proof. intros ?. split; cbn; [apply NoDup_nil_2|done]. Qed.

Lemma inv_set c key v now : 1 ≤ capacity c → inv c → inv (set c key v now).
Proof.
  intros Hcap [Hnd Hsz]. unfold inv, size, JsMap.size in *. split.
  - unfold set. cbn [cache with_cache]. apply JsMap.NoDup_keys_set.
    destruct (_ >=? _); [|by apply JsMap.NoDup_keys_delete].
    destruct (JsMap.first_key _); by repeat apply JsMap.NoDup_keys_delete.
  - rewrite set_spec. cbn [cache with_cache capacity]. rewrite length_app. cbn [length].
    pose proof (JsMap.length_delete_le key (cache c)) as Hd.
    set (m := JsMap.delete key (cache c)) in *.
    unfold JsMap.size. destruct (Z.geb_spec (Z.of_nat (length m)) (capacity c)) as [Hge|Hlt]; [|lia].
    destruct m as [|[k0 i0] m']; [cbn in Hge; lia|]. cbn [JsMap.first_key JsMap.keys map head fst].
    assert (k0 ∈ JsMap.keys ((k0, i0) :: m')) as Hin by (apply elem_of_cons; auto).
    apply (JsMap.length_delete_lt k0) in Hin. lia.
Qed.

Lemma inv_get c key now : inv c → inv (snd (get c key now)).
Proof.
  intros [Hnd Hsz]. unfold get.
  destruct (JsMap.get (cache c) key) as [item|] eqn:Hg; [|done].
  pose proof (JsMap.length_delete_lt key (cache c) (JsMap.get_Some_keys _ _ _ Hg)) as Hlt.
  unfold inv, size, JsMap.size in *.
  destruct (_ >? _); cbn [snd cache with_cache capacity]; split.
  - by apply JsMap.NoDup_keys_delete.
  - lia.
  - by apply JsMap.NoDup_keys_set, JsMap.NoDup_keys_delete.
  - pose proof (JsMap.length_set_le key item (JsMap.delete key (cache c))). lia.
Qed.

Lemma capacity_step c o : capacity (step c o) = capacity c.
Proof.
  destruct o as [key now|key v now|]; cbn; [|done..].
  unfold get. destruct (JsMap.get _ _); [|done]. by destruct (_ >? _).
Qed.

Lemma inv_step c o : 1 ≤ capacity c → inv c → inv (step c o).
Proof.
  intros Hcap Hinv. destruct o as [key now|key v now|]; cbn.
  - by apply inv_get.
  - by apply inv_set.
  - done.
Qed.

Lemma run_snoc c ops o : run c (ops ++ [o]) = step (run c ops) o.
Proof. unfold run. by rewrite fold_left_app. Qed.

Lemma inv_run ops : ∀ c, 1 ≤ capacity c → inv c →
  inv (run c ops) ∧ capacity (run c ops) = capacity c.
Proof.
  induction ops as [|o ops IH]; intros c Hcap Hinv; [done|].
  change (run c (o :: ops)) with (run (step c o) ops).
  destruct (IH (step c o)) as [? ->].
  - by rewrite capacity_step.
  - by apply inv_step.
  - by rewrite capacity_step.
Qed.

(** A [set] of a key that is not in a cache with room left appends it. *)
Lemma set_not_full c key v now :
  key ∉ JsMap.keys (cache c) → size c < capacity c →
  cache (set c key v now) = cache c ++ [(key, {| value := v; timestamp := now |})].
Proof.
  intros Hkey Hsz. rewrite set_spec. cbn [cache with_cache].
  rewrite JsMap.delete_absent by done. fold (size c).
  by destruct (Z.geb_spec (size c) (capacity c)) as [Hge|_]; [lia|].
Qed.

(** A [set] of a key that is not in a full cache drops the entry at the
    head of the order and appends the new one. *)
Lemma set_full c key v now :
  1 ≤ capacity c → NoDup (JsMap.keys (cache c)) →
  key ∉ JsMap.keys (cache c) → size c = capacity c →
  cache (set c key v now)
    = tail (cache c) ++ [(key, {| value := v; timestamp := now |})].
Proof.
  intros Hcap Hnd Hkey Hsz. rewrite set_spec. cbn [cache with_cache].
  rewrite JsMap.delete_absent by done. fold (size c).
  destruct (Z.geb_spec (size c) (capacity c)) as [_|Hlt]; [|lia].
  destruct (JsMap.first_key (cache c)) as [k0|] eqn:Hfirst.
  - by rewrite (JsMap.delete_first_key k0).
  - unfold size, JsMap.size in Hsz. destruct (cache c); [cbn in Hsz; lia|done].
Qed.

(** A [set] of a key that is in the cache, in a state within capacity. *)
Lemma set_present c key v now :
  inv c → key ∈ JsMap.keys (cache c) →
  cache (set c key v now)
    = JsMap.delete key (cache c) ++ [(key, {| value := v; timestamp := now |})].
Proof.
  intros [Hnd Hsz] Hkey. rewrite set_spec. cbn [cache with_cache].
  pose proof (JsMap.length_delete_lt key (cache c) Hkey) as Hlt.
  unfold size, JsMap.size in *.
  by destruct (Z.geb_spec (Z.of_nat (length (JsMap.delete key (cache c)))) (capacity c));
    [lia|].
Qed.

(** The entry a [set] call stores. *)
Definition entry (e : K * V * Z) : K * Item :=
  (e.1.1, {| value := e.1.2; timestamp := e.2 |}).

Definition set_op (e : K * V * Z) : op := OpSet e.1.1 e.1.2 e.2.

(** Distinct keys set into an empty cache, no more of them than the
    capacity: all are kept, in the order they came. *)
Lemma run_sets_within_capacity cap ttlHours (entries : list (K * V * Z)) :
  NoDup (map (λ e, e.1.1) entries) →
  Z.of_nat (length entries) ≤ cap →
  cache (run (new cap ttlHours) (map set_op entries)) = map entry entries.
Proof.
  induction entries as [|e entries IH] using rev_ind; [done|].
  rewrite !map_app, length_app. cbn [map length]. intros Hnd Hlen.
  apply NoDup_app in Hnd as (Hnd & Hne & _).
  rewrite run_snoc. cbn [step set_op].
  rewrite set_not_full.
  - rewrite IH by (done || lia). done.
  - rewrite IH by (done || lia). unfold JsMap.keys. rewrite map_map. cbn.
    intros Hin. apply (Hne _ Hin). apply elem_of_cons; auto.
  - unfold size, JsMap.size. rewrite IH by (done || lia).
    destruct (inv_run (map set_op entries) (new cap ttlHours)) as [_ ->];
      cbn; [lia|apply inv_new; lia|]. rewrite length_map. lia.
Qed.

(** C3.  Take a cache created with a capacity of at least 1 (the handler's
    has 100).  (1) After every sequence of [get], [set] and [size] calls its
    size is at most the capacity.  (2) Setting [capacity + 1] distinct keys
    into it leaves exactly [capacity] entries: all keys but the first one
    set, in the order they were set.  (3) In every reachable state that is
    full, setting a key that is not in the cache drops the key at the head
    of the access order (the least recently touched one, since every [get]
    hit and every [set] moves its key to the other end) and nothing else. *)
Theorem lru_size_never_exceeds_capacity (cap ttlHours : Z) :
  1 ≤ cap →
  (∀ ops : list op, size (run (new cap ttlHours) ops) ≤ cap) ∧
  (∀ entries : list (K * V * Z),
      NoDup (map (λ e, e.1.1) entries) →
      length entries = S (Z.to_nat cap) →
      let c := run (new cap ttlHours) (map set_op entries) in
      size c = cap ∧
      JsMap.keys (cache c) = tail (map (λ e, e.1.1) entries)) ∧
  (∀ (ops : list op) key v now,
      let c := run (new cap ttlHours) ops in
      size c = cap → key ∉ JsMap.keys (cache c) →
      JsMap.keys (cache (set c key v now)) = tail (JsMap.keys (cache c)) ++ [key]).
Proof.
  intros Hcap.
  assert (∀ ops, inv (run (new cap ttlHours) ops) ∧
                 capacity (run (new cap ttlHours) ops) = cap)
    as Hreach.
  { intros ops. apply (inv_run ops (new cap ttlHours)); cbn; [done|].
    apply inv_new. lia. }
  split; [|split].
  - intros ops. destruct (Hreach ops) as [[_ Hsz] Hc]. by rewrite Hc in Hsz.
  - intros entries Hnd Hlen.
    destruct entries as [|e entries _] using rev_ind; [done|].
    rewrite length_app in Hlen. cbn in Hlen.
    rewrite !map_app in *. cbn [map] in *.
    apply NoDup_app in Hnd as (Hnd & Hne & _).
    set (c0 := run (new cap ttlHours) (map set_op entries)).
    assert (cache c0 = map entry entries) as Hc0
      by (apply run_sets_within_capacity; [done|lia]).
    destruct (Hreach (map set_op entries)) as [[Hnd0 _] Hcap0]. fold c0 in Hnd0, Hcap0.
    assert (size c0 = cap) as Hsz0.
    { unfold size, JsMap.size. rewrite Hc0, length_map. lia. }
    cbn zeta. rewrite run_snoc. fold c0. cbn [step set_op].
    assert (cache (set c0 e.1.1 e.1.2 e.2) = tail (cache c0) ++ [entry e]) as Hset.
    { apply set_full; [lia|done| |lia].
      rewrite Hc0. unfold JsMap.keys. rewrite map_map. cbn.
      intros Hin. apply (Hne _ Hin). apply elem_of_cons; auto. }
    unfold size, JsMap.size, JsMap.keys. rewrite Hset, Hc0.
    destruct entries as [|e0 entries]; [cbn in Hlen; lia|].
    cbn [map tail app]. rewrite length_app, length_map, map_app, map_map.
    cbn in Hlen |- *. split; [lia|done].
  - intros ops key v now c Hsz Hkey.
    destruct (Hreach ops) as [[Hnd _] Hc]. fold c in Hnd, Hc.
    rewrite set_full by (done || lia).
    unfold JsMap.keys. rewrite map_app. cbn. f_equal.
    by destruct (cache c).
Qed.

(** C4.  In every reachable state of a cache of capacity at least 1, for a
    key the cache holds with entry [item]:
    (1) a [get] at a time more than [ttl] after the entry's timestamp
        returns [undefined] and deletes the entry, leaving the others as
        they were;
    (2) a [get] at any other time returns the entry's value and moves the
        entry, unchanged, to the end of the order (the most recently used
        place);
    (3) a [set] of that key removes the old entry and puts the new one at
        the end of the order; the key occurs once, and the size is the
        same as before. *)
Theorem lru_get_and_reset (cap ttlHours : Z) (ops : list op) key item :
  1 ≤ cap →
  let c := run (new cap ttlHours) ops in
  JsMap.get (cache c) key = Some item →
  (∀ now, now - timestamp item > ttl c →
      get c key now = (None, with_cache c (JsMap.delete key (cache c))) ∧
      JsMap.get (JsMap.delete key (cache c)) key = None ∧
      (∀ key', key' ≠ key →
         JsMap.get (JsMap.delete key (cache c)) key' = JsMap.get (cache c) key') ∧
      size (snd (get c key now)) = size c - 1) ∧
  (∀ now, now - timestamp item ≤ ttl c →
      get c key now =
        (Some (value item),
         with_cache c (JsMap.delete key (cache c) ++ [(key, item)])) ∧
      (key ∉ JsMap.keys (JsMap.delete key (cache c))) ∧
      size (snd (get c key now)) = size c) ∧
  (∀ v now,
      cache (set c key v now)
        = JsMap.delete key (cache c) ++ [(key, {| value := v; timestamp := now |})] ∧
      (key ∉ JsMap.keys (JsMap.delete key (cache c))) ∧
      NoDup (JsMap.keys (cache (set c key v now))) ∧
      size (set c key v now) = size c).
Proof.
  intros Hcap c Hget.
  destruct (inv_run ops (new cap ttlHours)) as [Hinv Hc];
    [done|apply inv_new; lia|]. fold c in Hinv, Hc. cbn in Hc.
  pose proof Hinv as [Hnd Hsz].
  pose proof (JsMap.get_Some_keys _ _ _ Hget) as Hkey.
  pose proof (JsMap.length_delete_NoDup key (cache c) Hnd Hkey) as Hlen.
  pose proof (JsMap.not_elem_of_keys_delete key (cache c)) as Hnotin.
  split; [|split].
  - intros now Hexp. unfold get. rewrite Hget.
    destruct (Z.gtb_spec (now - timestamp item) (ttl c)) as [_|?]; [|lia].
    split; [done|]. split; [apply JsMap.get_delete_eq|].
    split; [intros key' Hne; by apply JsMap.get_delete_ne|].
    cbn [snd]. unfold size, JsMap.size. cbn [cache with_cache]. lia.
  - intros now Hfresh. unfold get. rewrite Hget.
    destruct (Z.gtb_spec (now - timestamp item) (ttl c)) as [?|_]; [lia|].
    rewrite JsMap.set_absent by done.
    split; [done|]. split; [done|].
    cbn [snd]. unfold size, JsMap.size. cbn [cache with_cache].
    rewrite length_app. cbn [length]. lia.
  - intros v now. split; [by apply set_present|]. split; [done|]. split.
    + apply (inv_set c key v now); [lia|done].
    + unfold size, JsMap.size. rewrite set_present by done.
      rewrite length_app. cbn [length]. lia.
Qed.

End cache_model.
Global Arguments t : clear implicits.
Global Arguments Item : clear implicits.
Global Arguments op : clear implicits.

(** [const cache = new LRUCache<string, unknown>(100, 6)] *)
Definition cache_100_6 {V : Type} : t string V := new 100 6.

(** The least recently touched key is the one that goes: [a] is read
    after [b] is set, so setting [c] into the full cache drops [b]. *)
Example lru_evicts_least_recently_touched :
  JsMap.keys
    (cache (run (new 2 6)
              [OpSet "a" 1%nat 0; OpSet "b" 2%nat 5; OpGet "a" 7; OpSet "c" 3%nat 9]))
    = ["a"; "c"].
Proof. reflexivity. Qed.

(** A run on a cache of capacity 2 that overflows it. *)
Lemma lru_size_never_exceeds_capacity_witness :
  size (run (new 2 6)
          [OpSet "a" 1%nat 0; OpSet "b" 2%nat 5; OpGet "a" 7; OpSet "c" 3%nat 9])
    ≤ 2.
Proof.
  apply (lru_size_never_exceeds_capacity (K:=string) (V:=nat) 2 6). lia.
Defined.

(** An entry set at time 0 and read back seven hours later, the time to
    live being six hours. *)
Lemma lru_get_and_reset_witness :
  let c := run (new 2 6) [OpSet "a" 1%nat 0] in
  get c "a" (7 * 3600000) = (None, with_cache c (JsMap.delete "a" (cache c))) ∧
  JsMap.get (JsMap.delete "a" (cache c)) "a" = None ∧
  (∀ key', key' ≠ "a" →
     JsMap.get (JsMap.delete "a" (cache c)) key' = JsMap.get (cache c) key') ∧
  size (snd (get c "a" (7 * 3600000))) = size c - 1.
Proof.
  apply (lru_get_and_reset (K:=string) (V:=nat) 2 6 [OpSet "a" 1%nat 0] "a"
           {| value := 1%nat; timestamp := 0 |}).
  - lia.
  - reflexivity.
  - cbn. lia.
Defined.

End LRUCache.

(* ===================================================================== *)
(** * JavaScript strings *)
(* ===================================================================== *)

(** The [String.prototype] methods the sources call, on [string] (one
    character per code unit; [toLowerCase] and the white-space class are
    modelled on ASCII). *)

Module JsString.

(** [s.substring(0, n)] for a constant [n >= 0]: the first [n] characters. *)
Definition substring0 (n : nat) (s : string) : string := String.substring 0 n s.

(** [c] as [c.toLowerCase()] maps it. *)
Definition lower_ascii (c : ascii) : ascii :=
  let n := nat_of_ascii c in
  if ((65 <=? n) && (n <=? 90))%nat then ascii_of_nat (n + 32) else c.

(** [s.toLowerCase()] *)
Fixpoint toLowerCase (s : string) : string :=
  match s with
  | EmptyString => EmptyString
  | String c s' => String (lower_ascii c) (toLowerCase s')
  end.

(** [s.split(sep)] for a one-character separator: never empty. *)
Fixpoint split (sep : ascii) (s : string) : list string :=
  match s with
  | EmptyString => [EmptyString]
  | String c s' =>
      if decide (c = sep) then EmptyString :: split sep s'
      else match split sep s' with
           | p :: ps => String c p :: ps
           | [] => [String c EmptyString]
           end
  end.

(** [parts.join(sep)] for a one-character separator. *)
Fixpoint join (sep : ascii) (parts : list string) : string :=
  match parts with
  | [] => EmptyString
  | [p] => p
  | p :: ps => p ++ String sep (join sep ps)
  end.

(** [l.slice(-n)]: the last [n] elements, all of them when there are fewer. *)
Definition slice_last {A} (n : nat) (l : list A) : list A :=
  skipn (length l - n) l.

(** The characters [\s] matches, among ASCII: tab, line feed, vertical tab,
    form feed, carriage return and space. *)
Definition is_space (c : ascii) : bool :=
  let n := nat_of_ascii c in ((9 <=? n) && (n <=? 13) || (n =? 32))%nat.

Fixpoint trimStart (s : string) : string :=
  match s with
  | EmptyString => EmptyString
  | String c s' => if is_space c then trimStart s' else s
  end.

(** [s.trimEnd()]: a space stays only when something other than white
    space follows it. *)
Fixpoint trimEnd (s : string) : string :=
  match s with
  | EmptyString => EmptyString
  | String c s' =>
      match trimEnd s' with
      | EmptyString => if is_space c then EmptyString else String c EmptyString
      | t => String c t
      end
  end.

(** [s.trim()] *)
Definition trim (s : string) : string := trimEnd (trimStart s).

(** [s.startsWith(p)] *)
Definition startsWith (p s : string) : bool := String.prefix p s.

(** [s.replace(/\s+/g, ' ')]: every maximal run of white space becomes one
    space. *)
Fixpoint collapse_spaces (s : string) : string :=
  match s with
  | EmptyString => EmptyString
  | String c s' =>
      if is_space c then
        match s' with
        | String c' _ => if is_space c' then collapse_spaces s'
                         else String " " (collapse_spaces s')
        | EmptyString => String " " EmptyString
        end
      else String c (collapse_spaces s')
  end.

(** [s.repeat]-like helper for examples: [n] copies of a character. *)
Fixpoint replicate (n : nat) (c : ascii) : string :=
  match n with O => EmptyString | S n' => String c (replicate n' c) end.

Lemma length_substring0 n s :
  String.length (substring0 n s) = Nat.min n (String.length s).
Proof.
  unfold substring0. revert s. induction n as [|n IH]; intros [|c s]; cbn; auto.
Qed.

Lemma substring0_le n s : (String.length (substring0 n s) ≤ n)%nat.
Proof. rewrite length_substring0. lia. Qed.

Lemma substring0_id n s : (String.length s ≤ n)%nat → substring0 n s = s.
Proof.
  unfold substring0. revert s. induction n as [|n IH]; intros [|c s]; cbn; auto.
  - lia.
  - intros ?. f_equal. apply IH. lia.
Qed.

Lemma length_append (s1 s2 : string) :
  String.length (s1 ++ s2) = (String.length s1 + String.length s2)%nat.
Proof.
  induction s1 as [|c s1 IH]; [done|].
  change (S (String.length (s1 ++ s2)) = S (String.length s1 + String.length s2)).
  by rewrite IH.
Qed.

Lemma length_replicate n c : String.length (replicate n c) = n.
Proof. induction n; cbn; auto. Qed.

Lemma split_nonempty sep s : split sep s ≠ [].
Proof. destruct s as [|c s]; cbn; [done|]. case_decide; [done|]. by destruct (split sep s). Qed.

Lemma join_split sep s : join sep (split sep s) = s.
Proof.
  induction s as [|c s IH]; cbn; [done|].
  pose proof (split_nonempty sep s) as Hne.
  case_decide as Hc; subst.
  - destruct (split sep s) as [|p ps]; [done|].
    change (join sep (EmptyString :: p :: ps)) with (String sep (join sep (p :: ps))).
    by rewrite IH.
  - destruct (split sep s) as [|p ps]; [done|].
    destruct ps as [|p' ps]; rewrite <-IH; reflexivity.
Qed.

End JsString.

(* ===================================================================== *)
(** * The platform's [URL] *)
(* ===================================================================== *)

(** The sources call [new URL(u)] and read [hostname].  The functions that
    depend on it take the parser as a parameter; this module gives one to
    run them with.  It covers the URLs [scheme://[userinfo@]host[:port]]
    followed by nothing or by a path, query or fragment, and answers [None]
    (the constructor throws) on every other string. *)

Module URL.
Import JsString.

Definition is_alpha (c : ascii) : bool :=
  let n := nat_of_ascii (lower_ascii c) in ((97 <=? n) && (n <=? 122))%nat.

Definition is_digit (c : ascii) : bool :=
  let n := nat_of_ascii c in ((48 <=? n) && (n <=? 57))%nat.

Definition is_scheme_char (c : ascii) : bool :=
  is_alpha c || is_digit c || bool_decide (c ∈ ["+"; "-"; "."]%char).

Fixpoint forallb_string (f : ascii → bool) (s : string) : bool :=
  match s with
  | EmptyString => true
  | String c s' => f c && forallb_string f s'
  end.

Definition valid_scheme (s : string) : bool :=
  match s with
  | EmptyString => false
  | String c _ => is_alpha c && forallb_string is_scheme_char s
  end.

(** The part of [s] before the first character that satisfies [stop]. *)
Fixpoint take_until (stop : ascii → bool) (s : string) : string :=
  match s with
  | EmptyString => EmptyString
  | String c s' => if stop c then EmptyString else String c (take_until stop s')
  end.

(** The part of [s] after its last [c]; all of [s] when it has none. *)
Fixpoint after_last (c : ascii) (s : string) : string :=
  match s with
  | EmptyString => EmptyString
  | String x s' =>
      if bool_decide (c ∈ list_ascii_of_string s') then after_last c s'
      else if decide (x = c) then s' else s
  end.

Definition hostname (u : string) : option string :=
  match String.index 0 "://" u with
  | None => None
  | Some i =>
      let scheme := String.substring 0 i u in
      let rest := String.substring (i + 3) (String.length u) u in
      let authority :=
        take_until (λ c, bool_decide (c ∈ ["/"; "?"; "#"]%char)) rest in
      let host := take_until (λ c, bool_decide (c = ":"%char))
                    (after_last "@" authority) in
      if valid_scheme scheme && negb (bool_decide (host = EmptyString))
      then Some (toLowerCase host) else None
  end.

End URL.

(* ===================================================================== *)
(** * JavaScript values *)
(* ===================================================================== *)

(** What [JSON.parse] returns and what the untyped parts of the sources
    handle.  An object is the list of its own properties in insertion
    order.  Numbers are exact rationals. *)

Module Js.

Inductive value :=
| Undefined
| Null
| Bool (b : bool)
| Number (q : Qc)
| Str (s : string)
| Array (elements : list value)
| Object (props : list (string * value)).

(** The value of the own property [k], [undefined] when there is none. *)
Fixpoint lookup_prop (k : string) (props : list (string * value)) : value :=
  match props with
  | [] => Undefined
  | (k', v) :: props' => if decide (k' = k) then v else lookup_prop k props'
  end.

(** [v.k] for the property names the sources read (none of them is a
    property of a string, a number, a boolean or an array): [None] is the
    [TypeError] of reading a property of [undefined] or [null]. *)
Definition get (v : value) (k : string) : option value :=
  match v with
  | Undefined | Null => None
  | Object props => Some (lookup_prop k props)
  | _ => Some Undefined
  end.

(** [{ ...o, k: v }] on the properties of [o]: a property already there
    keeps its place, a new one goes last. *)
Fixpoint set_prop (k : string) (v : value) (props : list (string * value))
  : list (string * value) :=
  match props with
  | [] => [(k, v)]
  | (k', v') :: props' =>
      if decide (k' = k) then (k, v) :: props' else (k', v') :: set_prop k v props'
  end.

(** [v.substring(0, n)]: a [TypeError] unless [v] is a string. *)
Definition substring0 (n : nat) (v : value) : option value :=
  match v with
  | Str s => Some (Str (JsString.substring0 n s))
  | _ => None
  end.

(** [v.map(f)], [f] possibly throwing: a [TypeError] unless [v] is an array. *)
Definition array_map (f : value → option value) (v : value) : option value :=
  match v with
  | Array elements => Array <$> mapM f elements
  | _ => None
  end.

(** [v?.map(f)] *)
Definition array_map_opt (f : value → option value) (v : value) : option value :=
  match v with
  | Undefined | Null => Some Undefined
  | _ => array_map f v
  end.

(** [Array.isArray(v)] *)
Definition isArray (v : value) : bool :=
  match v with Array _ => true | _ => false end.

Lemma lookup_set_prop_eq k v props : lookup_prop k (set_prop k v props) = v.
Proof.
  induction props as [|[k' v'] props IH]; cbn.
  - by rewrite decide_True.
  - destruct (decide (k' = k)) as [->|Hne]; cbn.
    + by rewrite decide_True.
    + by rewrite decide_False.
Qed.

Lemma lookup_set_prop_ne k k' v props :
  k ≠ k' → lookup_prop k' (set_prop k v props) = lookup_prop k' props.
Proof.
  intros Hne. induction props as [|[k0 v0] props IH]; cbn.
  - by rewrite decide_False.
  - destruct (decide (k0 = k)) as [->|Hne0]; cbn.
    + by rewrite !decide_False.
    + by rewrite IH.
Qed.

Lemma array_map_Some f v v' :
  array_map f v = Some v' →
  ∃ l l', v = Array l ∧ v' = Array l' ∧ Forall2 (λ x y, f x = Some y) l l'.
Proof.
  destruct v; cbn; try done.
  destruct (mapM f elements) as [l'|] eqn:Hm; [|done]. intros [= <-].
  apply mapM_Some in Hm. eauto.
Qed.

End Js.

(* ===================================================================== *)
(** * The schema library (zod) *)
(* ===================================================================== *)

(** The part of zod the schemas of [answerSchema.ts] use.  A schema reads a
    value at a path and either succeeds with the typed data or fails with
    the list of all issues found (zod does not stop at the first one).
    An object schema drops the keys it does not declare. *)

Module Zod.
Import Js.

Inductive seg := Key (k : string) | Idx (i : nat).

Inductive ZodIssueCode :=
| invalid_type
| too_small
| too_big
| invalid_string
| invalid_enum_value
| custom.

Record ZodIssue := mkIssue { code : ZodIssueCode; path : list seg }.

Inductive SafeParseReturn (A : Type) :=
| Success (data : A)
| Failure (error : list ZodIssue).
Global Arguments Success {A} data.
Global Arguments Failure {A} error.

Definition Schema (A : Type) : Type := list seg → value → SafeParseReturn A.

Definition zmap {A B} (f : A → B) (x : SafeParseReturn A) : SafeParseReturn B :=
  match x with Success a => Success (f a) | Failure e => Failure e end.

(** Both sides are evaluated and their issues are put together. *)
Definition zap {A B} (f : SafeParseReturn (A → B)) (x : SafeParseReturn A)
  : SafeParseReturn B :=
  match f, x with
  | Success g, Success a => Success (g a)
  | Success _, Failure e => Failure e
  | Failure e, Success _ => Failure e
  | Failure e1, Failure e2 => Failure (e1 ++ e2)
  end.

Notation "f <$z> x" := (zmap f x) (at level 61, left associativity).
Notation "f <*z> x" := (zap f x) (at level 61, left associativity).

(** A check on a value of the right type: the code of the issue it raises. *)
Definition Check (A : Type) : Type := A → option ZodIssueCode.

Definition run_checks {A} (checks : list (Check A)) (path : list seg) (a : A)
  : SafeParseReturn A :=
  match omap (λ chk, chk a) checks with
  | [] => Success a
  | codes => Failure (map (λ c, mkIssue c path) codes)
  end.

(** [z.string()] with its checks *)
Definition string_ (checks : list (Check string)) : Schema string :=
  λ path v,
    match v with
    | Str s => run_checks checks path s
    | _ => Failure [mkIssue invalid_type path]
    end.

(** [.min(n)] and [.max(n)] on a string *)
Definition min (n : nat) : Check string :=
  λ s, if (String.length s <? n)%nat then Some too_small else None.
Definition max (n : nat) : Check string :=
  λ s, if (n <? String.length s)%nat then Some too_big else None.

(** [.refine(f)] *)
Definition refine {A} (f : A → bool) : Check A :=
  λ a, if f a then None else Some custom.

(** [.url()], given what [new URL] accepts *)
Definition url (URL_ok : string → bool) : Check string :=
  λ s, if URL_ok s then None else Some invalid_string.

(** [z.number()] with its checks *)
Definition number (checks : list (Check Qc)) : Schema Qc :=
  λ path v,
    match v with
    | Number q => run_checks checks path q
    | _ => Failure [mkIssue invalid_type path]
    end.

(** [.positive()] *)
Definition positive : Check Qc :=
  λ q, if decide (0 < q)%Qc then None else Some too_small.

(** [.int()] *)
Definition int : Check Qc :=
  λ q, if decide (Qden (this q) = 1%positive) then None else Some invalid_type.

(** [z.enum([...])], from the table of its members *)
Definition enum {A} (members : list (string * A)) : Schema A :=
  λ path v,
    match v with
    | Str s =>
        match list_find (λ m, m.1 = s) members with
        | Some (_, (_, a)) => Success a
        | None => Failure [mkIssue invalid_enum_value path]
        end
    | _ => Failure [mkIssue invalid_type path]
    end.

(** The elements of an array, from index [i] on. *)
Fixpoint items {A} (elem : Schema A) (path : list seg) (i : nat) (l : list value)
  : SafeParseReturn (list A) :=
  match l with
  | [] => Success []
  | v :: l' => cons <$z> elem (path ++ [Idx i]) v <*z> items elem path (S i) l'
  end.

(** A bound on the length of an array: [.min(n)] or [.max(n)]. *)
Definition length_checks (lo hi : option nat) (path : list seg) (n : nat)
  : SafeParseReturn unit :=
  match (if lo is Some m then if (n <? m)%nat then [mkIssue too_small path] else [] else [])
        ++ (if hi is Some m then if (m <? n)%nat then [mkIssue too_big path] else [] else [])
  with
  | [] => Success ()
  | issues => Failure issues
  end.

(** [z.array(elem)], with [.min(lo)] and [.max(hi)] when given *)
Definition array {A} (elem : Schema A) (lo hi : option nat) : Schema (list A) :=
  λ path v,
    match v with
    | Array l => (λ _ data, data) <$z> length_checks lo hi path (length l)
                                  <*z> items elem path 0 l
    | _ => Failure [mkIssue invalid_type path]
    end.

(** [.optional()] *)
Definition optional {A} (s : Schema A) : Schema (option A) :=
  λ path v,
    match v with
    | Undefined => Success None
    | _ => Some <$z> s path v
    end.

(** [.default(d)] *)
Definition default_ {A} (s : Schema A) (d : A) : Schema A :=
  λ path v,
    match v with
    | Undefined => Success d
    | _ => s path v
    end.

(** The field [k] of an object being parsed at [path]. *)
Definition field {A} (s : Schema A) (k : string) (path : list seg)
  (props : list (string * value)) : SafeParseReturn A :=
  s (path ++ [Key k]) (lookup_prop k props).

(** [z.object({...})], from the parser of its fields *)
Definition object {A}
  (fields : list seg → list (string * value) → SafeParseReturn A) : Schema A :=
  λ path v,
    match v with
    | Object props => fields path props
    | _ => Failure [mkIssue invalid_type path]
    end.

(** ** Reading a success back *)

Lemma zmap_Success {A B} (f : A → B) x b :
  zmap f x = Success b ↔ ∃ a, x = Success a ∧ b = f a.
Proof. destruct x; cbn; naive_solver. Qed.

Lemma zap_Success {A B} (f : SafeParseReturn (A → B)) x b :
  zap f x = Success b ↔ ∃ g a, f = Success g ∧ x = Success a ∧ b = g a.
Proof. destruct f, x; cbn; naive_solver. Qed.

Lemma run_checks_Success {A} (checks : list (Check A)) path a b :
  run_checks checks path a = Success b ↔ b = a ∧ Forall (λ chk, chk a = None) checks.
Proof.
  unfold run_checks, Check in *.
  assert (omap (λ chk : A → option ZodIssueCode, chk a) checks = [] ↔
          Forall (λ chk, chk a = None) checks) as <-.
  { induction checks as [|chk checks IH]; cbn; [split; [constructor|done]|].
    rewrite Forall_cons, <-IH. destruct (chk a); cbn; naive_solver. }
  destruct (omap (λ chk : A → option ZodIssueCode, chk a) checks); cbn.
  - split; [intros [= <-]; done|intros [-> _]; done].
  - split; [done|intros [_ ?]; done].
Qed.

Lemma string_Success checks path v s :
  string_ checks path v = Success s ↔ v = Str s ∧ Forall (λ chk, chk s = None) checks.
Proof.
  destruct v; cbn; try naive_solver.
  rewrite run_checks_Success. naive_solver.
Qed.

Lemma number_Success checks path v q :
  number checks path v = Success q ↔ v = Number q ∧ Forall (λ chk, chk q = None) checks.
Proof.
  destruct v; cbn; try naive_solver.
  rewrite run_checks_Success. naive_solver.
Qed.

Lemma optional_Success {A} (s : Schema A) path v o :
  optional s path v = Success o ↔
  (v = Undefined ∧ o = None) ∨ (v ≠ Undefined ∧ ∃ a, s path v = Success a ∧ o = Some a).
Proof.
  destruct v; cbn; rewrite ?zmap_Success; naive_solver.
Qed.

Lemma default_Success {A} (s : Schema A) d path v a :
  default_ s d path v = Success a ↔
  (v = Undefined ∧ a = d) ∨ (v ≠ Undefined ∧ s path v = Success a).
Proof. destruct v; cbn; naive_solver. Qed.

Lemma items_Success {A} (elem : Schema A) path l : ∀ i data,
  items elem path i l = Success data ↔
  Forall2 (λ v a, ∃ j, elem (path ++ [Idx j]) v = Success a) l data ∧
  ∀ k v, l !! k = Some v → ∃ a, data !! k = Some a ∧
                              elem (path ++ [Idx (i + k)]) v = Success a.
Proof.
  induction l as [|v l IH]; intros i data; cbn.
  - split.
    + intros [= <-]. split; [constructor|]. intros k v. by rewrite lookup_nil.
    + intros [->%Forall2_nil_inv_l _]. done.
  - rewrite zap_Success. setoid_rewrite zmap_Success. split.
    + intros (g & data' & (a & Ha & ->) & Hitems & ->).
      apply IH in Hitems as [HF Hk]. split; [constructor; eauto|].
      intros [|k] v'; cbn.
      * intros [= <-]. exists a. by rewrite Nat.add_0_r.
      * intros Hl. destruct (Hk _ _ Hl) as (a' & ? & ?). exists a'.
        by replace (i + S k)%nat with (S i + k)%nat by lia.
    + intros [HF Hk]. destruct data as [|a data]; [by inversion HF|].
      apply Forall2_cons_1 in HF as [_ HF].
      destruct (Hk 0%nat v eq_refl) as (a' & [= <-] & Ha).
      rewrite Nat.add_0_r in Ha.
      exists (cons a), data. split; [eauto|]. split; [|done].
      apply IH. split; [done|]. intros k v' Hl.
      destruct (Hk (S k) v' Hl) as (a' & ? & ?). exists a'.
      by replace (S i + k)%nat with (i + S k)%nat by lia.
Qed.

Lemma length_checks_Success lo hi path n u :
  length_checks lo hi path n = Success u ↔
  (∀ m, lo = Some m → (m ≤ n)%nat) ∧ (∀ m, hi = Some m → (n ≤ m)%nat).
Proof.
  unfold length_checks. destruct u.
  match goal with
  | |- context [match ?x ++ ?y with _ => _ end] => set (l1 := x); set (l2 := y)
  end.
  trans (l1 = [] ∧ l2 = []).
  { rewrite <-app_nil. by destruct (l1 ++ l2). }
  subst l1 l2.
  assert (∀ P Q P' Q' : Prop, (P ↔ P') → (Q ↔ Q') → (P ∧ Q ↔ P' ∧ Q')) as Hand
    by tauto.
  apply Hand.
  - destruct lo as [m|]; [destruct (Nat.ltb_spec n m)|]; split; try done.
    + intros H'. specialize (H' m eq_refl). lia.
    + intros _ m' [= <-]. lia.
  - destruct hi as [m|]; [destruct (Nat.ltb_spec m n)|]; split; try done.
    + intros H'. specialize (H' m eq_refl). lia.
    + intros _ m' [= <-]. lia.
Qed.

Lemma array_Success {A} (elem : Schema A) lo hi path v data :
  array elem lo hi path v = Success data ↔
  ∃ l, v = Array l ∧
       (∀ m, lo = Some m → (m ≤ length l)%nat) ∧
       (∀ m, hi = Some m → (length l ≤ m)%nat) ∧
       items elem path 0 l = Success data.
Proof.
  destruct v; cbn; try naive_solver.
  rewrite zap_Success. setoid_rewrite zmap_Success. split.
  - intros (g & a & (u & Hu & ->) & Hitems & ->).
    apply length_checks_Success in Hu as [? ?]. eauto 10.
  - intros (l & [= <-] & Hlo & Hhi & Hitems).
    exists (λ data, data), data. split; [|done].
    exists (). split; [|done]. by apply length_checks_Success.
Qed.

Lemma items_length {A} (elem : Schema A) path i l data :
  items elem path i l = Success data → length data = length l.
Proof. intros [HF _]%items_Success. symmetry. by eapply Forall2_length. Qed.

(** Elements that parse to themselves, at every path. *)
Lemma items_map {A} (elem : Schema A) (toJs : A → value) path (data : list A) :
  Forall (λ a, ∀ p, elem p (toJs a) = Success a) data →
  ∀ i, items elem path i (map toJs data) = Success data.
Proof.
  induction 1 as [|a data Ha _ IH]; intros i; cbn; [done|].
  by rewrite Ha, IH.
Qed.

Lemma array_map {A} (elem : Schema A) (toJs : A → value) lo hi path (data : list A) :
  Forall (λ a, ∀ p, elem p (toJs a) = Success a) data →
  (∀ m, lo = Some m → (m ≤ length data)%nat) →
  (∀ m, hi = Some m → (length data ≤ m)%nat) →
  array elem lo hi path (Array (map toJs data)) = Success data.
Proof.
  intros Helem Hlo Hhi. apply array_Success. exists (map toJs data).
  rewrite length_map. split; [done|]. split; [done|]. split; [done|].
  by apply items_map.
Qed.

(** ** Where the issues of a failure come from *)

Definition issues {A} (r : SafeParseReturn A) : list ZodIssue :=
  match r with Success _ => [] | Failure e => e end.

Section issues.
Context (Q : ZodIssue → Prop).

Lemma issues_zmap {A B} (f : A → B) x : issues (zmap f x) = issues x.
Proof. by destruct x. Qed.

Lemma issues_zap {A B} (f : SafeParseReturn (A → B)) x :
  issues (zap f x) = issues f ++ issues x.
Proof. destruct f, x; cbn; by rewrite ?app_nil_r. Qed.

Lemma Forall_issues_zap {A B} (f : SafeParseReturn (A → B)) x :
  Forall Q (issues f) → Forall Q (issues x) → Forall Q (issues (zap f x)).
Proof. rewrite issues_zap. apply Forall_app_2. Qed.

Lemma Forall_issues_zmap {A B} (f : A → B) x :
  Forall Q (issues x) → Forall Q (issues (zmap f x)).
Proof. by rewrite issues_zmap. Qed.

Lemma Forall_issues_run_checks {A} (checks : list (Check A)) p a :
  (∀ chk c, chk ∈ checks → chk a = Some c → Q (mkIssue c p)) →
  Forall Q (issues (run_checks checks p a)).
Proof.
  intros Hchecks. unfold run_checks.
  assert (Forall (λ c, Q (mkIssue c p)) (omap (λ chk : Check A, chk a) checks)) as HF.
  { apply Forall_forall. intros c (chk & Hin & Hc)%list_elem_of_omap. eauto. }
  unfold Check in *.
  destruct (omap (λ chk : A → option ZodIssueCode, chk a) checks); cbn; [done|].
  by apply Forall_fmap in HF.
Qed.

Lemma Forall_issues_string checks p v :
  Q (mkIssue invalid_type p) →
  (∀ chk s c, chk ∈ checks → chk s = Some c → Q (mkIssue c p)) →
  Forall Q (issues (string_ checks p v)).
Proof.
  intros Htype Hchecks.
  destruct v; cbn; try by repeat constructor.
  apply Forall_issues_run_checks. eauto.
Qed.

Lemma Forall_issues_number checks p v :
  Q (mkIssue invalid_type p) →
  (∀ chk q c, chk ∈ checks → chk q = Some c → Q (mkIssue c p)) →
  Forall Q (issues (number checks p v)).
Proof.
  intros Htype Hchecks.
  destruct v; cbn; try by repeat constructor.
  apply Forall_issues_run_checks. eauto.
Qed.

Lemma Forall_issues_enum {A} (members : list (string * A)) p v :
  Q (mkIssue invalid_type p) → Q (mkIssue invalid_enum_value p) →
  Forall Q (issues (enum members p v)).
Proof.
  intros Htype Henum. destruct v; cbn; try by repeat constructor.
  destruct (list_find _ members) as [[? [? ?]]|]; cbn; by repeat constructor.
Qed.

Lemma Forall_issues_items {A} (elem : Schema A) p l : ∀ i,
  (∀ j v, v ∈ l → Forall Q (issues (elem (p ++ [Idx j]) v))) →
  Forall Q (issues (items elem p i l)).
Proof.
  induction l as [|v l IH]; intros i Helem; cbn [items]; [constructor|].
  apply Forall_issues_zap; [apply Forall_issues_zmap, Helem, elem_of_cons; auto|].
  apply IH. intros j v' Hin. apply Helem, elem_of_cons. auto.
Qed.

Lemma Forall_issues_array {A} (elem : Schema A) lo hi p v :
  Q (mkIssue invalid_type p) →
  (is_Some lo → Q (mkIssue too_small p)) →
  (is_Some hi → Q (mkIssue too_big p)) →
  (∀ l j x, v = Array l → x ∈ l → Forall Q (issues (elem (p ++ [Idx j]) x))) →
  Forall Q (issues (array elem lo hi p v)).
Proof.
  intros Htype Hlo Hhi Helem. destruct v; cbn; try by repeat constructor.
  apply Forall_issues_zap; [apply Forall_issues_zmap|].
  - unfold length_checks.
    match goal with
    | |- context [match ?x ++ ?y with _ => _ end] =>
        assert (Forall Q (x ++ y)) as HF
    end.
    { apply Forall_app_2.
      - destruct lo; [|constructor]. destruct (_ <? _)%nat; repeat constructor.
        by apply Hlo.
      - destruct hi; [|constructor]. destruct (_ <? _)%nat; repeat constructor.
        by apply Hhi. }
    by destruct (_ ++ _).
  - apply Forall_issues_items. intros j x Hx. by eapply Helem.
Qed.

Lemma Forall_issues_optional {A} (s : Schema A) p v :
  Forall Q (issues (s p v)) → Forall Q (issues (optional s p v)).
Proof. destruct v; cbn; rewrite ?issues_zmap; (done || constructor). Qed.

Lemma Forall_issues_default {A} (s : Schema A) d p v :
  Forall Q (issues (s p v)) → Forall Q (issues (default_ s d p v)).
Proof. destruct v; cbn; (done || constructor). Qed.

Lemma Forall_issues_object {A}
    (fields : list seg → list (string * value) → SafeParseReturn A) p v :
  Q (mkIssue invalid_type p) →
  (∀ props, v = Object props → Forall Q (issues (fields p props))) →
  Forall Q (issues (object fields p v)).
Proof. intros Htype Hfields. destruct v; cbn; try by repeat constructor. by apply Hfields. Qed.

End issues.

(** The code of the issue each check raises. *)
Lemma min_code n s c : min n s = Some c → c = too_small.
Proof. unfold min. by destruct (_ <? _)%nat; intros [= <-]. Qed.
Lemma max_code n s c : max n s = Some c → c = too_big.
Proof. unfold max. by destruct (_ <? _)%nat; intros [= <-]. Qed.
Lemma refine_code {A} (f : A → bool) a c : refine f a = Some c → c = custom.
Proof. unfold refine. by destruct (f a); intros [= <-]. Qed.
Lemma url_code ok s c : url ok s = Some c → c = invalid_string.
Proof. unfold url. by destruct (ok s); intros [= <-]. Qed.
Lemma positive_code q c : positive q = Some c → c = too_small.
Proof. unfold positive. by case_decide; intros [= <-]. Qed.
Lemma int_code q c : int q = Some c → c = invalid_type.
Proof. unfold int. by case_decide; intros [= <-]. Qed.

End Zod.

(* ===================================================================== *)
(** * The answer contract ([lib/answerSchema.ts]) *)
(* ===================================================================== *)

Module AnswerSchema.
Import JsString.

(** ** The type [Answer] ([z.infer<typeof AnswerSchema>]) *)

(** [z.enum(['Windows', 'macOS', 'Android', 'iOS', 'ChromeOS', 'Linux'])] *)
Inductive OS := Windows | macOS | Android | iOS | ChromeOS | Linux.

Module Step.
Record t := mk {
  title : string;
  detail : string;
  os : list OS;
  est_minutes : option Qc;
  shell : option (list string)
}.
End Step.

Module DecisionTree.
(** The fields [if] and [then]. *)
Record t := mk {
  if_ : string;
  then_ : string;
  link_step : option Qc
}.
End DecisionTree.

Module Diagram.
Record t := mk { caption : string; svg : string }.
End Diagram.

Module Citation.
Record t := mk { url : string; title : string; quote : string }.
End Citation.

Record Answer := mkAnswer {
  answer_title : string;
  one_paragraph_summary : string;
  prereqs : list string;
  steps : list Step.t;
  decision_tree : list DecisionTree.t;
  diagrams : list Diagram.t;
  citations : list Citation.t;
  warnings : list string
}.

(** ** [clampAnswer] *)

Definition clampStep (step : Step.t) : Step.t :=
  {| Step.title := substring0 150 (Step.title step);
     Step.detail := substring0 800 (Step.detail step);
     Step.os := Step.os step;
     Step.est_minutes := Step.est_minutes step;
     Step.shell := option_map (map (substring0 200)) (Step.shell step) |}.

Definition clampDecisionTree (dt : DecisionTree.t) : DecisionTree.t :=
  {| DecisionTree.if_ := substring0 200 (DecisionTree.if_ dt);
     DecisionTree.then_ := substring0 300 (DecisionTree.then_ dt);
     DecisionTree.link_step := DecisionTree.link_step dt |}.

Definition clampDiagram (d : Diagram.t) : Diagram.t :=
  {| Diagram.caption := substring0 200 (Diagram.caption d);
     Diagram.svg := substring0 10000 (Diagram.svg d) |}.

Definition clampCitation (c : Citation.t) : Citation.t :=
  {| Citation.url := Citation.url c;
     Citation.title := substring0 200 (Citation.title c);
     Citation.quote := substring0 180 (Citation.quote c) |}.

Definition clampAnswer (a : Answer) : Answer :=
  {| answer_title := substring0 200 (answer_title a);
     one_paragraph_summary := substring0 1000 (one_paragraph_summary a);
     prereqs := map (substring0 300) (prereqs a);
     steps := map clampStep (steps a);
     decision_tree := map clampDecisionTree (decision_tree a);
     diagrams := map clampDiagram (diagrams a);
     citations := map clampCitation (citations a);
     warnings := map (substring0 300) (warnings a) |}.

(** ** [clampAnswer] on unvalidated input

    [answerIssue] passes the result of [JSON.parse] to [clampAnswer] before
    any validation, so at run time the function meets values that are not
    of type [Answer].  [clampAnswer_js] is the same function read on
    arbitrary values; [None] is a [TypeError]. *)

Definition update_props (v : Js.value) (updates : list (string * Js.value)) : option Js.value :=
  match v with
  | Js.Object props =>
      Some (Js.Object (fold_left (λ ps '(k, x), Js.set_prop k x ps) updates props))
  | _ => None
  end.

Definition clampStep_js (step : Js.value) : option Js.value :=
  title ← Js.get step "title" ≫= Js.substring0 150;
  detail ← Js.get step "detail" ≫= Js.substring0 800;
  shell ← Js.get step "shell" ≫= Js.array_map_opt (Js.substring0 200);
  update_props step [("title", title); ("detail", detail); ("shell", shell)].

Definition clampDecisionTree_js (dt : Js.value) : option Js.value :=
  if_ ← Js.get dt "if" ≫= Js.substring0 200;
  then_ ← Js.get dt "then" ≫= Js.substring0 300;
  update_props dt [("if", if_); ("then", then_)].

Definition clampDiagram_js (d : Js.value) : option Js.value :=
  caption ← Js.get d "caption" ≫= Js.substring0 200;
  svg ← Js.get d "svg" ≫= Js.substring0 10000;
  update_props d [("caption", caption); ("svg", svg)].

Definition clampCitation_js (c : Js.value) : option Js.value :=
  title ← Js.get c "title" ≫= Js.substring0 200;
  quote ← Js.get c "quote" ≫= Js.substring0 180;
  update_props c [("title", title); ("quote", quote)].

Definition clampAnswer_js (a : Js.value) : option Js.value :=
  answer_title ← Js.get a "answer_title" ≫= Js.substring0 200;
  one_paragraph_summary ← Js.get a "one_paragraph_summary" ≫= Js.substring0 1000;
  prereqs ← Js.get a "prereqs" ≫= Js.array_map (Js.substring0 300);
  steps ← Js.get a "steps" ≫= Js.array_map clampStep_js;
  decision_tree ← Js.get a "decision_tree" ≫= Js.array_map clampDecisionTree_js;
  diagrams ← Js.get a "diagrams" ≫= Js.array_map clampDiagram_js;
  citations ← Js.get a "citations" ≫= Js.array_map clampCitation_js;
  warnings ← Js.get a "warnings" ≫= Js.array_map (Js.substring0 300);
  update_props a
    [("answer_title", answer_title);
     ("one_paragraph_summary", one_paragraph_summary);
     ("prereqs", prereqs);
     ("steps", steps);
     ("decision_tree", decision_tree);
     ("diagrams", diagrams);
     ("citations", citations);
     ("warnings", warnings)].

(** ** The schemas *)

Section with_URL.

(** [new URL(u).hostname]; [None] when the constructor throws. *)
Variable URL_hostname : string → option string.

(** What [z.string().url()] accepts: the strings [new URL] does not throw on. *)
Definition URL_ok (u : string) : bool := bool_decide (is_Some (URL_hostname u)).

Definition OS_members : list (string * OS) :=
  [("Windows", Windows); ("macOS", macOS); ("Android", Android);
   ("iOS", iOS); ("ChromeOS", ChromeOS); ("Linux", Linux)].

Definition StepSchema : Zod.Schema Step.t :=
  Zod.object (λ path props,
    Zod.zap (Zod.zap (Zod.zap (Zod.zap (Zod.zmap Step.mk
      (Zod.field (Zod.string_ [Zod.min 1]) "title" path props))
      (Zod.field (Zod.string_ [Zod.min 1]) "detail" path props))
      (Zod.field (Zod.array (Zod.enum OS_members) (Some 1%nat) None) "os" path props))
      (Zod.field (Zod.optional (Zod.number [Zod.positive])) "est_minutes" path props))
      (Zod.field (Zod.optional (Zod.array (Zod.string_ []) None None)) "shell" path props)).

Definition DecisionTreeSchema : Zod.Schema DecisionTree.t :=
  Zod.object (λ path props,
    Zod.zap (Zod.zap (Zod.zmap DecisionTree.mk
      (Zod.field (Zod.string_ [Zod.min 1]) "if" path props))
      (Zod.field (Zod.string_ [Zod.min 1]) "then" path props))
      (Zod.field (Zod.optional (Zod.number [Zod.int; Zod.positive])) "link_step" path props)).

Definition DiagramSchema : Zod.Schema Diagram.t :=
  Zod.object (λ path props,
    Zod.zap (Zod.zmap Diagram.mk
      (Zod.field (Zod.string_ [Zod.min 1]) "caption" path props))
      (Zod.field
         (Zod.string_ [Zod.min 1; Zod.refine (λ svg, startsWith "<svg" (trim svg))])
         "svg" path props)).

Definition CitationSchema : Zod.Schema Citation.t :=
  Zod.object (λ path props,
    Zod.zap (Zod.zap (Zod.zmap Citation.mk
      (Zod.field (Zod.string_ [Zod.url URL_ok]) "url" path props))
      (Zod.field (Zod.string_ [Zod.min 1]) "title" path props))
      (Zod.field (Zod.string_ [Zod.max 180]) "quote" path props)).

Definition AnswerSchema : Zod.Schema Answer :=
  Zod.object (λ path props,
    Zod.zap (Zod.zap (Zod.zap (Zod.zap (Zod.zap (Zod.zap (Zod.zap (Zod.zmap mkAnswer
      (Zod.field (Zod.string_ [Zod.min 1]) "answer_title" path props))
      (Zod.field (Zod.string_ [Zod.min 1]) "one_paragraph_summary" path props))
      (Zod.field (Zod.default_ (Zod.array (Zod.string_ []) None None) [])
         "prereqs" path props))
      (Zod.field (Zod.array StepSchema (Some 1%nat) None) "steps" path props))
      (Zod.field (Zod.default_ (Zod.array DecisionTreeSchema None None) [])
         "decision_tree" path props))
      (Zod.field (Zod.default_ (Zod.array DiagramSchema None None) [])
         "diagrams" path props))
      (Zod.field (Zod.array CitationSchema (Some 2%nat) (Some 5%nat))
         "citations" path props))
      (Zod.field (Zod.default_ (Zod.array (Zod.string_ []) None None) [])
         "warnings" path props)).

(** [safeParseAnswer(data)] *)
Definition safeParseAnswer (data : Js.value) : Zod.SafeParseReturn Answer :=
  AnswerSchema [] data.

(** [validateAnswer(data)]: [AnswerSchema.parse], which throws the
    [ZodError] ([inl]) where [safeParse] reports it. *)
Definition validateAnswer (data : Js.value) : list Zod.ZodIssue + Answer :=
  match AnswerSchema [] data with
  | Zod.Success a => inr a
  | Zod.Failure e => inl e
  end.

(** ** Typed answers as JavaScript values

    An optional field that is absent is an [undefined] property. *)

Definition OS_name (o : OS) : string :=
  match o with
  | Windows => "Windows" | macOS => "macOS" | Android => "Android"
  | iOS => "iOS" | ChromeOS => "ChromeOS" | Linux => "Linux"
  end.

Definition opt_toJs {A} (f : A → Js.value) (o : option A) : Js.value :=
  match o with Some a => f a | None => Js.Undefined end.

Definition strings_toJs (l : list string) : Js.value := Js.Array (map Js.Str l).

Definition Step_toJs (s : Step.t) : Js.value :=
  Js.Object
    [("title", Js.Str (Step.title s));
     ("detail", Js.Str (Step.detail s));
     ("os", Js.Array (map (λ o, Js.Str (OS_name o)) (Step.os s)));
     ("est_minutes", opt_toJs Js.Number (Step.est_minutes s));
     ("shell", opt_toJs strings_toJs (Step.shell s))].

Definition DecisionTree_toJs (dt : DecisionTree.t) : Js.value :=
  Js.Object
    [("if", Js.Str (DecisionTree.if_ dt));
     ("then", Js.Str (DecisionTree.then_ dt));
     ("link_step", opt_toJs Js.Number (DecisionTree.link_step dt))].

Definition Diagram_toJs (d : Diagram.t) : Js.value :=
  Js.Object
    [("caption", Js.Str (Diagram.caption d)); ("svg", Js.Str (Diagram.svg d))].

Definition Citation_toJs (c : Citation.t) : Js.value :=
  Js.Object
    [("url", Js.Str (Citation.url c));
     ("title", Js.Str (Citation.title c));
     ("quote", Js.Str (Citation.quote c))].

Definition Answer_toJs (a : Answer) : Js.value :=
  Js.Object
    [("answer_title", Js.Str (answer_title a));
     ("one_paragraph_summary", Js.Str (one_paragraph_summary a));
     ("prereqs", strings_toJs (prereqs a));
     ("steps", Js.Array (map Step_toJs (steps a)));
     ("decision_tree", Js.Array (map DecisionTree_toJs (decision_tree a)));
     ("diagrams", Js.Array (map Diagram_toJs (diagrams a)));
     ("citations", Js.Array (map Citation_toJs (citations a)));
     ("warnings", strings_toJs (warnings a))].

(** ** [distinctDomainsOK] *)

(** The body of the [try] block for one citation: the string it adds to
    [domains]. *)
Definition eTLD1 (hostname : string) : string :=
  let parts := split "." hostname in
  if (2 <=? length parts)%nat then join "." (slice_last 2 parts) else hostname.

Definition add_domain (domains : gset string) (citation : Citation.t) : gset string :=
  match URL_hostname (Citation.url citation) with
  | Some hostname => {[ eTLD1 (toLowerCase hostname) ]} ∪ domains
  | None => domains   (* Invalid URL, skip *)
  end.

Definition distinctDomainsOK (citations : list Citation.t) : bool :=
  if (length citations <? 2)%nat then false
  else bool_decide (2 ≤ size (fold_left add_domain citations ∅))%nat.

(** *** What the specification calls the registrable domains *)

(** The last two dot-separated labels of a host name (the whole name when
    it has a single label); host names are compared in lower case. *)
Definition registrable_domain (hostname : string) : string :=
  join "." (slice_last 2 (split "." (toLowerCase hostname))).

(** The registrable domains of the citations whose URL parses. *)
Definition registrable_domains (citations : list Citation.t) : gset string :=
  list_to_set
    (omap (λ c, registrable_domain <$> URL_hostname (Citation.url c)) citations).

Lemma eTLD1_registrable hostname :
  eTLD1 (toLowerCase hostname) = registrable_domain hostname.
Proof.
  unfold eTLD1, registrable_domain.
  destruct (Nat.leb_spec 2 (length (split "." (toLowerCase hostname)))) as [|Hlt]; [done|].
  rewrite <-(join_split "." (toLowerCase hostname)) at 1. f_equal.
  unfold slice_last. replace (_ - _)%nat with 0%nat by lia. done.
Qed.

Lemma fold_add_domain citations : ∀ domains,
  fold_left add_domain citations domains = registrable_domains citations ∪ domains.
Proof.
  unfold registrable_domains.
  induction citations as [|c citations IH]; intros domains; cbn.
  - by rewrite (left_id_L ∅ (∪)).
  - rewrite IH. unfold add_domain.
    destruct (URL_hostname (Citation.url c)) as [h|]; cbn; [|done].
    rewrite eTLD1_registrable. set_solver.
Qed.

(** The general part of C7. *)
Lemma distinctDomainsOK_spec citations :
  distinctDomainsOK citations = true ↔
  (2 ≤ length citations)%nat ∧ (2 ≤ size (registrable_domains citations))%nat.
Proof.
  unfold distinctDomainsOK. rewrite fold_add_domain, (right_id_L ∅ (∪)).
  destruct (Nat.ltb_spec (length citations) 2) as [Hlt|Hge].
  - split; [done|lia].
  - rewrite bool_decide_eq_true. split; [done|tauto].
Qed.

(** ** [clampAnswer] on typed answers and on their values agree *)

Lemma mapM_map_Some {A B C} (f : B → option C) (g : A → B) (h : A → C) (l : list A) :
  (∀ x, f (g x) = Some (h x)) → mapM f (map g l) = Some (map h l).
Proof.
  intros Hf. induction l as [|x l IH]; cbn; [done|].
  by rewrite Hf, IH.
Qed.

Lemma clamp_strings_toJs n (l : list string) :
  Js.array_map (Js.substring0 n) (strings_toJs l)
    = Some (strings_toJs (map (substring0 n) l)).
Proof.
  unfold strings_toJs. cbn.
  rewrite (mapM_map_Some _ _ (λ s, Js.Str (substring0 n s))) by done.
  cbn. by rewrite map_map.
Qed.

Lemma array_map_map_Some {A} (f : Js.value → option Js.value)
    (g : A → Js.value) (h : A → Js.value) (l : list A) :
  (∀ x, f (g x) = Some (h x)) →
  Js.array_map f (Js.Array (map g l)) = Some (Js.Array (map h l)).
Proof. intros Hf. cbn. by rewrite (mapM_map_Some _ _ h). Qed.

(** Evaluation of the property reads and updates of an object literal,
    leaving the string and list functions folded. *)
Ltac eval_props :=
  repeat (progress
    (lazy -[JsString.substring0 Js.substring0 mapM map strings_toJs
            Js.array_map Js.array_map_opt
            clampStep_js clampDecisionTree_js clampDiagram_js clampCitation_js
            clampStep clampDecisionTree clampDiagram clampCitation
            Step_toJs DecisionTree_toJs Diagram_toJs Citation_toJs];
     cbn [Js.substring0])).

Lemma clampStep_js_toJs step :
  clampStep_js (Step_toJs step) = Some (Step_toJs (clampStep step)).
Proof.
  destruct step as [title detail os est [shell|]];
    unfold clampStep_js, Step_toJs, clampStep; eval_props; [|done].
  change (Js.array_map_opt ?f (strings_toJs shell))
    with (Js.array_map f (strings_toJs shell)).
  rewrite clamp_strings_toJs. by eval_props.
Qed.

Lemma clampDecisionTree_js_toJs dt :
  clampDecisionTree_js (DecisionTree_toJs dt)
    = Some (DecisionTree_toJs (clampDecisionTree dt)).
Proof. by destruct dt. Qed.

Lemma clampDiagram_js_toJs d :
  clampDiagram_js (Diagram_toJs d) = Some (Diagram_toJs (clampDiagram d)).
Proof. by destruct d. Qed.

Lemma clampCitation_js_toJs c :
  clampCitation_js (Citation_toJs c) = Some (Citation_toJs (clampCitation c)).
Proof. by destruct c. Qed.

(** On a value of type [Answer] the function does not throw, and computes
    what [clampAnswer] does. *)
Lemma clampAnswer_js_toJs a :
  clampAnswer_js (Answer_toJs a) = Some (Answer_toJs (clampAnswer a)).
Proof.
  destruct a as [t s pre st dt dg ci w].
  unfold clampAnswer_js, Answer_toJs, clampAnswer. eval_props.
  rewrite clamp_strings_toJs. eval_props.
  rewrite (array_map_map_Some _ _ _ _ clampStep_js_toJs). eval_props.
  rewrite (array_map_map_Some _ _ _ _ clampDecisionTree_js_toJs). eval_props.
  rewrite (array_map_map_Some _ _ _ _ clampDiagram_js_toJs). eval_props.
  rewrite (array_map_map_Some _ _ _ _ clampCitation_js_toJs). eval_props.
  rewrite clamp_strings_toJs. eval_props.
  by rewrite !map_map.
Qed.

(** ** What the schema demands of a typed answer *)

Definition nonempty (s : string) : bool := (1 <=? String.length s)%nat.

Definition number_ok (checks : list (Zod.Check Qc)) (o : option Qc) : bool :=
  match o with
  | Some q => forallb (λ chk : Zod.Check Qc, bool_decide (chk q = None)) checks
  | None => true
  end.

Definition Step_ok (s : Step.t) : bool :=
  nonempty (Step.title s) && nonempty (Step.detail s) &&
  (1 <=? length (Step.os s))%nat &&
  number_ok [Zod.positive] (Step.est_minutes s).

Definition DecisionTree_ok (dt : DecisionTree.t) : bool :=
  nonempty (DecisionTree.if_ dt) && nonempty (DecisionTree.then_ dt) &&
  number_ok [Zod.int; Zod.positive] (DecisionTree.link_step dt).

Definition Diagram_ok (d : Diagram.t) : bool :=
  nonempty (Diagram.caption d) && nonempty (Diagram.svg d) &&
  startsWith "<svg" (trim (Diagram.svg d)).

Definition Citation_ok (c : Citation.t) : bool :=
  URL_ok (Citation.url c) && nonempty (Citation.title c) &&
  (String.length (Citation.quote c) <=? 180)%nat.

Definition Answer_ok (a : Answer) : bool :=
  nonempty (answer_title a) && nonempty (one_paragraph_summary a) &&
  forallb Step_ok (steps a) && (1 <=? length (steps a))%nat &&
  forallb DecisionTree_ok (decision_tree a) &&
  forallb Diagram_ok (diagrams a) &&
  forallb Citation_ok (citations a) &&
  (2 <=? length (citations a))%nat && (length (citations a) <=? 5)%nat.

(** *** Checks, read as conditions *)

Lemma min_None n s : Zod.min n s = None ↔ (n ≤ String.length s)%nat.
Proof. unfold Zod.min. destruct (Nat.ltb_spec (String.length s) n); split; (done || lia). Qed.

Lemma max_None n s : Zod.max n s = None ↔ (String.length s ≤ n)%nat.
Proof. unfold Zod.max. destruct (Nat.ltb_spec n (String.length s)); split; (done || lia). Qed.

Lemma refine_None {A} (f : A → bool) a : Zod.refine f a = None ↔ f a = true.
Proof. unfold Zod.refine. by destruct (f a). Qed.

Lemma url_None s : Zod.url URL_ok s = None ↔ URL_ok s = true.
Proof. unfold Zod.url. by destruct (URL_ok s). Qed.

Lemma nonempty_true s : nonempty s = true ↔ (1 ≤ String.length s)%nat.
Proof. unfold nonempty. apply Nat.leb_le. Qed.

Lemma number_ok_Some checks q :
  number_ok checks (Some q) = true ↔ Forall (λ chk : Zod.Check Qc, chk q = None) checks.
Proof.
  cbn. rewrite forallb_forall, Forall_forall.
  setoid_rewrite bool_decide_eq_true. by setoid_rewrite list_elem_of_In.
Qed.

(** *** A typed answer that meets the demands parses to itself *)

Lemma string_min1_toJs p s :
  nonempty s = true → Zod.string_ [Zod.min 1] p (Js.Str s) = Zod.Success s.
Proof.
  intros H%nonempty_true. apply Zod.string_Success. split; [done|].
  repeat constructor. by apply min_None.
Qed.

Lemma strings_toJs_parse lo hi p (l : list string) :
  (∀ m, lo = Some m → (m ≤ length l)%nat) →
  (∀ m, hi = Some m → (length l ≤ m)%nat) →
  Zod.array (Zod.string_ []) lo hi p (strings_toJs l) = Zod.Success l.
Proof. intros. apply Zod.array_map; [|done..]. by apply Forall_forall. Qed.

Lemma OS_toJs_parse p o : Zod.enum OS_members p (Js.Str (OS_name o)) = Zod.Success o.
Proof. by destruct o. Qed.

Lemma optional_number_toJs checks p o :
  number_ok checks o = true →
  Zod.optional (Zod.number checks) p (opt_toJs Js.Number o) = Zod.Success o.
Proof.
  destruct o as [q|]; [|done]. intros Hq%number_ok_Some.
  apply Zod.optional_Success. right. split; [done|]. exists q. split; [|done].
  by apply Zod.number_Success.
Qed.

Lemma optional_strings_toJs p (o : option (list string)) :
  Zod.optional (Zod.array (Zod.string_ []) None None) p (opt_toJs strings_toJs o)
    = Zod.Success o.
Proof.
  destruct o as [l|]; [|done].
  apply Zod.optional_Success. right. split; [done|]. exists l. split; [|done].
  by apply strings_toJs_parse.
Qed.

(** Evaluation of the field reads of an object schema on an object
    literal, leaving the field schemas folded. *)
Ltac eval_fields :=
  lazy -[Zod.string_ Zod.array Zod.optional Zod.default_ Zod.number Zod.enum
         Zod.zap Zod.zmap Zod.min Zod.max Zod.refine Zod.url Zod.positive Zod.int
         StepSchema DecisionTreeSchema DiagramSchema CitationSchema
         Step_toJs DecisionTree_toJs Diagram_toJs Citation_toJs
         map opt_toJs strings_toJs app OS_members OS_name URL_ok
         startsWith trim].

Lemma Step_toJs_parse p s :
  Step_ok s = true → StepSchema p (Step_toJs s) = Zod.Success s.
Proof.
  destruct s as [title detail os est shell]. unfold Step_ok.
  cbn [Step.title Step.detail Step.os Step.est_minutes Step.shell].
  rewrite !andb_true_iff. intros [[[Ht Hd] Hos%Nat.leb_le] Hest].
  unfold StepSchema, Step_toJs. eval_fields.
  rewrite !string_min1_toJs by done.
  rewrite (Zod.array_map (Zod.enum OS_members) (λ o, Js.Str (OS_name o))).
  - rewrite optional_number_toJs by done.
    change (match shell with Some a => strings_toJs a | None => Js.Undefined end)
      with (opt_toJs strings_toJs shell).
    by rewrite optional_strings_toJs.
  - apply Forall_forall. intros o _ p'. apply OS_toJs_parse.
  - by intros m [= <-].
  - done.
Qed.

Lemma DecisionTree_toJs_parse p dt :
  DecisionTree_ok dt = true → DecisionTreeSchema p (DecisionTree_toJs dt) = Zod.Success dt.
Proof.
  destruct dt as [i t l]. unfold DecisionTree_ok.
  cbn [DecisionTree.if_ DecisionTree.then_ DecisionTree.link_step].
  rewrite !andb_true_iff. intros [[Hi Ht] Hl].
  unfold DecisionTreeSchema, DecisionTree_toJs. eval_fields.
  rewrite !string_min1_toJs by done.
  change (match l with Some a => Js.Number a | None => Js.Undefined end)
    with (opt_toJs Js.Number l).
  by rewrite optional_number_toJs.
Qed.

Lemma Diagram_toJs_parse p d :
  Diagram_ok d = true → DiagramSchema p (Diagram_toJs d) = Zod.Success d.
Proof.
  destruct d as [c svg]. unfold Diagram_ok. cbn [Diagram.caption Diagram.svg].
  rewrite !andb_true_iff. intros [[Hc Hs%nonempty_true] Hsvg].
  unfold DiagramSchema, Diagram_toJs. eval_fields.
  rewrite string_min1_toJs by done.
  match goal with
  | |- Zod.zap _ ?x = _ => assert (x = Zod.Success svg) as ->; [|done]
  end.
  apply Zod.string_Success. split; [done|].
  repeat constructor; [by apply min_None|by apply refine_None].
Qed.

Lemma Citation_toJs_parse p c :
  Citation_ok c = true → CitationSchema p (Citation_toJs c) = Zod.Success c.
Proof.
  destruct c as [u t q]. unfold Citation_ok.
  cbn [Citation.url Citation.title Citation.quote].
  rewrite !andb_true_iff. intros [[Hu Ht] Hq%Nat.leb_le].
  unfold CitationSchema, Citation_toJs. eval_fields.
  rewrite string_min1_toJs by done.
  match goal with
  | |- Zod.zap (Zod.zap (Zod.zmap _ ?x) _) ?y = _ =>
      assert (x = Zod.Success u) as ->; [|assert (y = Zod.Success q) as ->; [|done]]
  end.
  - apply Zod.string_Success. split; [done|]. repeat constructor. by apply url_None.
  - apply Zod.string_Success. split; [done|]. repeat constructor. by apply max_None.
Qed.

Lemma default_array_toJs {A} (elem : Zod.Schema A) (toJs : A → Js.value) p (l : list A) :
  Forall (λ a, ∀ p, elem p (toJs a) = Zod.Success a) l →
  Zod.default_ (Zod.array elem None None) [] p (Js.Array (map toJs l)) = Zod.Success l.
Proof. intros. cbn [Zod.default_]. by apply Zod.array_map. Qed.

Lemma Forall_toJs_parse {A} (ok : A → bool) (elem : Zod.Schema A) (toJs : A → Js.value)
    (l : list A) :
  (∀ p a, ok a = true → elem p (toJs a) = Zod.Success a) →
  forallb ok l = true →
  Forall (λ a, ∀ p, elem p (toJs a) = Zod.Success a) l.
Proof.
  intros Helem Hl. apply Forall_forall. intros a Ha p. apply Helem.
  rewrite forallb_forall in Hl. by apply Hl, list_elem_of_In.
Qed.

(** A typed answer that meets the demands of the schema validates, and
    validation returns it. *)
Lemma Answer_toJs_parse a :
  Answer_ok a = true → safeParseAnswer (Answer_toJs a) = Zod.Success a.
Proof.
  destruct a as [t s pre st dt dg ci w]. unfold Answer_ok.
  cbn [answer_title one_paragraph_summary prereqs steps decision_tree diagrams
       citations warnings].
  rewrite !andb_true_iff.
  intros [[[[[[[[Ht Hs] Hst] Hn%Nat.leb_le] Hdt] Hdg] Hci] Hlo%Nat.leb_le] Hhi%Nat.leb_le].
  unfold safeParseAnswer, AnswerSchema, Answer_toJs. eval_fields.
  rewrite !string_min1_toJs by done.
  unfold strings_toJs.
  rewrite !(default_array_toJs (Zod.string_ []) Js.Str) by (by apply Forall_forall).
  rewrite (Zod.array_map StepSchema Step_toJs);
    [|by eapply Forall_toJs_parse; [apply Step_toJs_parse|]
     |by intros m [= <-]|done].
  rewrite (default_array_toJs DecisionTreeSchema DecisionTree_toJs)
    by (by eapply Forall_toJs_parse; [apply DecisionTree_toJs_parse|]).
  rewrite (default_array_toJs DiagramSchema Diagram_toJs)
    by (by eapply Forall_toJs_parse; [apply Diagram_toJs_parse|]).
  rewrite (Zod.array_map CitationSchema Citation_toJs);
    [|by eapply Forall_toJs_parse; [apply Citation_toJs_parse|]
     |by intros m [= <-]|by intros m [= <-]].
  done.
Qed.

(** *** What validation returns meets the demands of the schema *)

Ltac zinv :=
  repeat match goal with
         | H : Zod.zap _ _ = Zod.Success _ |- _ =>
             apply Zod.zap_Success in H as (? & ? & H & ? & ->)
         | H : Zod.zmap _ _ = Zod.Success _ |- _ =>
             apply Zod.zmap_Success in H as (? & ? & ->)
         | H : Zod.field _ _ _ _ = Zod.Success _ |- _ => unfold Zod.field in H
         | H : Zod.string_ _ _ _ = Zod.Success _ |- _ =>
             apply Zod.string_Success in H as [? ?]
         end.

Lemma object_Success {A} fields p v (a : A) :
  Zod.object fields p v = Zod.Success a →
  ∃ props, v = Js.Object props ∧ fields p props = Zod.Success a.
Proof. destruct v; cbn; naive_solver. Qed.

Lemma optional_number_ok checks p v o :
  Zod.optional (Zod.number checks) p v = Zod.Success o → number_ok checks o = true.
Proof.
  intros [[_ ->]|(_ & q & Hq & ->)]%Zod.optional_Success; [done|].
  apply Zod.number_Success in Hq as [_ Hq]. by apply number_ok_Some.
Qed.

Lemma Forall_min1 s : Forall (λ chk : Zod.Check string, chk s = None) [Zod.min 1] →
  nonempty s = true.
Proof. intros [H%min_None _]%Forall_cons. by apply nonempty_true. Qed.

Lemma Step_parse_ok p v s : StepSchema p v = Zod.Success s → Step_ok s = true.
Proof.
  intros (props & -> & H)%object_Success. zinv.
  unfold Step_ok. cbn [Step.title Step.detail Step.os Step.est_minutes Step.shell].
  rewrite !andb_true_iff. repeat split; try by apply Forall_min1.
  - match goal with
    | H : Zod.array _ _ _ _ _ = _ |- _ =>
        apply Zod.array_Success in H as (l & _ & Hlo & _ & Hl%Zod.items_length)
    end.
    apply Nat.leb_le. rewrite Hl. by apply Hlo.
  - by eapply optional_number_ok.
Qed.

Lemma DecisionTree_parse_ok p v dt :
  DecisionTreeSchema p v = Zod.Success dt → DecisionTree_ok dt = true.
Proof.
  intros (props & -> & H)%object_Success. zinv.
  unfold DecisionTree_ok.
  cbn [DecisionTree.if_ DecisionTree.then_ DecisionTree.link_step].
  rewrite !andb_true_iff. repeat split; try by apply Forall_min1.
  by eapply optional_number_ok.
Qed.

Lemma Diagram_parse_ok p v d : DiagramSchema p v = Zod.Success d → Diagram_ok d = true.
Proof.
  intros (props & -> & H)%object_Success. zinv.
  unfold Diagram_ok. cbn [Diagram.caption Diagram.svg].
  rewrite !andb_true_iff. repeat split; try by apply Forall_min1.
  - match goal with
    | H : Forall _ [Zod.min 1; _] |- _ => apply Forall_cons in H as [H%min_None _]
    end. by apply nonempty_true.
  - match goal with
    | H : Forall _ [Zod.min 1; _] |- _ =>
        apply Forall_cons in H as [_ [H%refine_None _]%Forall_cons]
    end. done.
Qed.

Lemma Citation_parse_ok p v c : CitationSchema p v = Zod.Success c → Citation_ok c = true.
Proof.
  intros (props & -> & H)%object_Success. zinv.
  unfold Citation_ok. cbn [Citation.url Citation.title Citation.quote].
  rewrite !andb_true_iff. repeat split; try by apply Forall_min1.
  - match goal with
    | H : Forall _ [Zod.url _] |- _ => apply Forall_cons in H as [H%url_None _]
    end. done.
  - match goal with
    | H : Forall _ [Zod.max _] |- _ => apply Forall_cons in H as [H%max_None _]
    end. by apply Nat.leb_le.
Qed.

Lemma items_ok {A} (ok : A → bool) (elem : Zod.Schema A) p i l data :
  (∀ p v a, elem p v = Zod.Success a → ok a = true) →
  Zod.items elem p i l = Zod.Success data → forallb ok data = true.
Proof.
  intros Helem [HF _]%Zod.items_Success.
  induction HF as [|v a l data (j & Hj) _ IH]; cbn; [done|].
  by rewrite (Helem _ _ _ Hj).
Qed.

Lemma default_array_ok {A} (ok : A → bool) (elem : Zod.Schema A) p v data :
  (∀ p v a, elem p v = Zod.Success a → ok a = true) →
  Zod.default_ (Zod.array elem None None) [] p v = Zod.Success data →
  forallb ok data = true.
Proof.
  intros Helem [[_ ->]|[_ H]]%Zod.default_Success; [done|].
  apply Zod.array_Success in H as (l & _ & _ & _ & H). by eapply items_ok.
Qed.

(** An answer that validation returns meets the demands of the schema. *)
Lemma Answer_parse_ok data a :
  safeParseAnswer data = Zod.Success a → Answer_ok a = true.
Proof.
  unfold safeParseAnswer, AnswerSchema.
  intros (props & -> & H)%object_Success. zinv.
  repeat match goal with
         | H : Zod.array _ (Some _) _ _ _ = _ |- _ =>
             apply Zod.array_Success in H as (? & _ & ? & ? & H);
             pose proof (Zod.items_length _ _ _ _ _ H)
         end.
  unfold Answer_ok.
  cbn [answer_title one_paragraph_summary prereqs steps decision_tree diagrams
       citations warnings].
  rewrite !andb_true_iff. repeat split; try by apply Forall_min1.
  - eapply items_ok; [apply Step_parse_ok|done].
  - apply Nat.leb_le. by match goal with
                         | Hlen : length ?d = _, Hlo : ∀ m, Some 1%nat = Some m → _ |- (1 ≤ length ?d)%nat =>
                             rewrite Hlen; apply Hlo
                         end.
  - eapply default_array_ok; [apply DecisionTree_parse_ok|done].
  - eapply default_array_ok; [apply Diagram_parse_ok|done].
  - eapply items_ok; [apply Citation_parse_ok|done].
  - apply Nat.leb_le. by match goal with
                         | Hlen : length ?d = _, Hlo : ∀ m, Some 2%nat = Some m → _ |- (2 ≤ length ?d)%nat =>
                             rewrite Hlen; apply Hlo
                         end.
  - apply Nat.leb_le. by match goal with
                         | Hlen : length ?d = _, Hhi : ∀ m, Some 5%nat = Some m → _ |- (length ?d ≤ 5)%nat =>
                             rewrite Hlen; apply Hhi
                         end.
Qed.

(** Validation is idempotent: what it returns validates again, to itself. *)
Lemma safeParseAnswer_idempotent data a :
  safeParseAnswer data = Zod.Success a →
  safeParseAnswer (Answer_toJs a) = Zod.Success a.
Proof. intros H. by apply Answer_toJs_parse, (Answer_parse_ok data). Qed.

(** ** After [clampAnswer], validation raises no issue about a string
       that is too long *)

Definition not_too_big (i : Zod.ZodIssue) : Prop := Zod.code i ≠ Zod.too_big.

(** The checks of a list raise other codes than [too_big]. *)
Ltac check_codes :=
  let Hin := fresh "Hin" in
  let Hc := fresh "Hc" in
  intros ? ? ? Hin Hc;
  repeat (apply elem_of_cons in Hin as [->|Hin];
          [first [ apply Zod.min_code in Hc | apply Zod.refine_code in Hc
                 | apply Zod.url_code in Hc | apply Zod.positive_code in Hc
                 | apply Zod.int_code in Hc ]; by subst|]);
  by apply elem_of_nil in Hin.

Ltac no_too_big :=
  repeat first
    [ apply Zod.Forall_issues_zap
    | apply Zod.Forall_issues_zmap
    | apply Zod.Forall_issues_optional
    | apply Zod.Forall_issues_default
    | apply Zod.Forall_issues_string; [done|check_codes]
    | apply Zod.Forall_issues_number; [done|check_codes]
    | apply Zod.Forall_issues_enum; done ].

Lemma strings_not_too_big lo p v :
  Forall not_too_big (Zod.issues (Zod.array (Zod.string_ []) lo None p v)).
Proof.
  apply Zod.Forall_issues_array; [done|done|by intros [? [=]]|].
  intros l j x _ _. no_too_big.
Qed.

Lemma Step_not_too_big p v : Forall not_too_big (Zod.issues (StepSchema p v)).
Proof.
  apply Zod.Forall_issues_object; [done|]. intros props _. unfold Zod.field.
  no_too_big.
  - apply Zod.Forall_issues_array; [done|done|by intros [? [=]]|].
    intros l j x _ _. no_too_big.
  - apply strings_not_too_big.
Qed.

Lemma DecisionTree_not_too_big p v :
  Forall not_too_big (Zod.issues (DecisionTreeSchema p v)).
Proof.
  apply Zod.Forall_issues_object; [done|]. intros props _. unfold Zod.field.
  no_too_big.
Qed.

Lemma Diagram_not_too_big p v : Forall not_too_big (Zod.issues (DiagramSchema p v)).
Proof.
  apply Zod.Forall_issues_object; [done|]. intros props _. unfold Zod.field.
  no_too_big.
Qed.

(** A citation whose quote was clamped. *)
Definition quote_clamped (c : Js.value) : Prop :=
  ∃ props, c = Js.Object props ∧
    ∀ s, Js.lookup_prop "quote" props = Js.Str s → (String.length s ≤ 180)%nat.

Lemma Citation_not_too_big p c :
  quote_clamped c → Forall not_too_big (Zod.issues (CitationSchema p c)).
Proof.
  intros (props & -> & Hquote). cbn [CitationSchema Zod.object]. unfold Zod.field.
  no_too_big.
  destruct (Js.lookup_prop "quote" props) as [| | | |s| |] eqn:Hq; cbn;
    try by repeat constructor.
  apply Zod.Forall_issues_run_checks. intros chk c Hin Hc.
  apply elem_of_cons in Hin as [->|Hin]; [|by apply elem_of_nil in Hin].
  unfold Zod.max in Hc. specialize (Hquote s eq_refl).
  by destruct (Nat.ltb_spec 180 (String.length s)); [lia|].
Qed.

Lemma clampCitation_js_quote c c' :
  clampCitation_js c = Some c' → quote_clamped c'.
Proof.
  unfold clampCitation_js. intros H.
  destruct (Js.get c "title" ≫= Js.substring0 200) as [title|]; [|done].
  destruct (Js.get c "quote" ≫= Js.substring0 180) as [quote|] eqn:Hquote; [|done].
  cbn [mbind option_bind] in H.
  destruct c; try done. injection H as <-.
  eexists. split; [done|]. cbn [fold_left]. rewrite Js.lookup_set_prop_eq.
  intros s ->. cbn in Hquote.
  destruct (Js.lookup_prop "quote" props); try done.
  injection Hquote as <-. apply substring0_le.
Qed.

(** What [clampAnswer_js] returns: an object whose citations are an array
    of citations with clamped quotes. *)
Lemma clampAnswer_js_citations a clamped :
  clampAnswer_js a = Some clamped →
  ∃ props citations',
    clamped = Js.Object props ∧
    Js.lookup_prop "citations" props = Js.Array citations' ∧
    Forall quote_clamped citations'.
Proof.
  unfold clampAnswer_js. intros H.
  repeat match type of H with
         | (?m ≫= _) = Some _ =>
             let E := fresh "E" in
             destruct m eqn:E; [cbn [mbind option_bind] in H|discriminate H]
         end.
  destruct a; try done. injection H as <-.
  match goal with
  | E : Js.get _ "citations" ≫= Js.array_map clampCitation_js = Some ?v |- _ =>
      destruct (Js.get (Js.Object props) "citations") as [cs|]; [|done];
      cbn [mbind option_bind] in E;
      apply Js.array_map_Some in E as (l & l' & -> & -> & HF)
  end.
  eexists _, l'. split; [done|]. split.
  - cbn [fold_left]. rewrite Js.lookup_set_prop_ne by done.
    by rewrite Js.lookup_set_prop_eq.
  - clear -HF. induction HF as [|c c' l l' Hc _ IH]; constructor; [|done].
    by eapply clampCitation_js_quote.
Qed.

(** The only [too_big] issue validation can raise on a clamped value is
    the one about the number of citations. *)
Lemma clamped_too_big_only_count a clamped :
  clampAnswer_js a = Some clamped →
  Forall (λ i, Zod.code i = Zod.too_big → Zod.path i = [Zod.Key "citations"])
    (Zod.issues (safeParseAnswer clamped)).
Proof.
  intros (props & citations' & -> & Hcit & Hclamped)%clampAnswer_js_citations.
  unfold safeParseAnswer. cbn [AnswerSchema Zod.object]. unfold Zod.field.
  assert (∀ l, Forall not_too_big l →
               Forall (λ i, Zod.code i = Zod.too_big →
                            Zod.path i = [Zod.Key "citations"]) l) as Hweaken.
  { intros l Hl. eapply Forall_impl; [exact Hl|]. by intros i Hi ?. }
  repeat apply Zod.Forall_issues_zap; try apply Zod.Forall_issues_zmap;
    try (apply Hweaken; no_too_big; fail).
  - apply Hweaken, Zod.Forall_issues_default, strings_not_too_big.
  - apply Hweaken.
    apply Zod.Forall_issues_array; [done|done|by intros [? [=]]|].
    intros l j x _ _. apply Step_not_too_big.
  - apply Hweaken, Zod.Forall_issues_default.
    apply Zod.Forall_issues_array; [done|done|by intros [? [=]]|].
    intros l j x _ _. apply DecisionTree_not_too_big.
  - apply Hweaken, Zod.Forall_issues_default.
    apply Zod.Forall_issues_array; [done|done|by intros [? [=]]|].
    intros l j x _ _. apply Diagram_not_too_big.
  - rewrite Hcit. apply Zod.Forall_issues_array; [done|done|done|].
    intros l j x [= <-] Hx. apply Hweaken, Citation_not_too_big.
    rewrite Forall_forall in Hclamped. by apply Hclamped.
  - apply Hweaken, Zod.Forall_issues_default, strings_not_too_big.
Qed.

End with_URL.

(** ** The bounds of the contract and [clampAnswer] *)

Definition strings_within (n : nat) (l : list string) : Prop :=
  Forall (λ s, (String.length s ≤ n)%nat) l.

Definition Step_within (s : Step.t) : Prop :=
  (String.length (Step.title s) ≤ 150)%nat ∧
  (String.length (Step.detail s) ≤ 800)%nat ∧
  (∀ shell, Step.shell s = Some shell → strings_within 200 shell).

Definition DecisionTree_within (dt : DecisionTree.t) : Prop :=
  (String.length (DecisionTree.if_ dt) ≤ 200)%nat ∧
  (String.length (DecisionTree.then_ dt) ≤ 300)%nat.

Definition Diagram_within (d : Diagram.t) : Prop :=
  (String.length (Diagram.caption d) ≤ 200)%nat ∧
  (String.length (Diagram.svg d) ≤ 10000)%nat.

Definition Citation_within (c : Citation.t) : Prop :=
  (String.length (Citation.title c) ≤ 200)%nat ∧
  (String.length (Citation.quote c) ≤ 180)%nat.

(** Every string of the answer is within its bound. *)
Definition within_bounds (a : Answer) : Prop :=
  (String.length (answer_title a) ≤ 200)%nat ∧
  (String.length (one_paragraph_summary a) ≤ 1000)%nat ∧
  strings_within 300 (prereqs a) ∧
  Forall Step_within (steps a) ∧
  Forall DecisionTree_within (decision_tree a) ∧
  Forall Diagram_within (diagrams a) ∧
  Forall Citation_within (citations a) ∧
  strings_within 300 (warnings a).

Lemma strings_within_map n l : strings_within n (map (substring0 n) l).
Proof. apply Forall_fmap, Forall_forall. intros s _. apply substring0_le. Qed.

Lemma clampAnswer_within_bounds a : within_bounds (clampAnswer a).
Proof.
  unfold within_bounds, clampAnswer. cbn.
  repeat split; try apply substring0_le; try apply strings_within_map;
    apply Forall_fmap, Forall_forall; intros x _.
  - repeat split; cbn; try apply substring0_le.
    intros shell. destruct (Step.shell x); intros [= <-]. apply strings_within_map.
  - split; apply substring0_le.
  - split; apply substring0_le.
  - split; apply substring0_le.
Qed.

Lemma map_id_Forall {A} (f : A → A) (l : list A) :
  Forall (λ x, f x = x) l → map f l = l.
Proof. induction 1 as [|x l Hx _ IH]; cbn; [done|]. by rewrite Hx, IH. Qed.

Lemma strings_within_id n l : strings_within n l → map (substring0 n) l = l.
Proof.
  intros H. apply map_id_Forall. eapply Forall_impl; [exact H|].
  intros s Hs. by apply substring0_id.
Qed.

(** An answer within the bounds is left as it is. *)
Lemma clampAnswer_id a : within_bounds a → clampAnswer a = a.
Proof.
  destruct a as [t s pre st dt dg ci w].
  intros (Ht & Hs & Hpre & Hst & Hdt & Hdg & Hci & Hw). cbn in *.
  unfold clampAnswer. cbn. f_equal;
    try (by apply substring0_id); try (by apply strings_within_id);
    apply map_id_Forall.
  - eapply Forall_impl; [exact Hst|]. intros [title detail os est shell] (H1 & H2 & H3).
    cbn in *. unfold clampStep. cbn. f_equal; try by apply substring0_id.
    destruct shell as [shell|]; [|done]. cbn. f_equal.
    by apply strings_within_id, H3.
  - eapply Forall_impl; [exact Hdt|]. intros [i th l] [H1 H2].
    cbn in *. unfold clampDecisionTree. cbn. f_equal; by apply substring0_id.
  - eapply Forall_impl; [exact Hdg|]. intros [c svg] [H1 H2].
    cbn in *. unfold clampDiagram. cbn. f_equal; by apply substring0_id.
  - eapply Forall_impl; [exact Hci|]. intros [u ti q] [H1 H2].
    cbn in *. unfold clampCitation. cbn. f_equal; by apply substring0_id.
Qed.

(** What [clampAnswer] leaves alone: the number of elements of every list,
    and the fields that are not strings. *)
Lemma clampAnswer_preserves a :
  let a' := clampAnswer a in
  length (prereqs a') = length (prereqs a) ∧
  length (steps a') = length (steps a) ∧
  length (decision_tree a') = length (decision_tree a) ∧
  length (diagrams a') = length (diagrams a) ∧
  length (citations a') = length (citations a) ∧
  length (warnings a') = length (warnings a) ∧
  map (λ s, length <$> Step.shell s) (steps a')
    = map (λ s, length <$> Step.shell s) (steps a) ∧
  map Step.os (steps a') = map Step.os (steps a) ∧
  map Step.est_minutes (steps a') = map Step.est_minutes (steps a) ∧
  map DecisionTree.link_step (decision_tree a')
    = map DecisionTree.link_step (decision_tree a) ∧
  map Citation.url (citations a') = map Citation.url (citations a).
Proof.
  cbn. rewrite !length_map, !map_map. cbn. repeat split; try done.
  apply map_ext. intros s. destruct (Step.shell s); cbn; [|done].
  by rewrite length_map.
Qed.

(** C7.  (1) Whatever the URL parser answers, [distinctDomainsOK] returns
    [true] exactly when there are at least two citations and the citations
    whose URL parses have at least two registrable domains between them (the
    last two dot-separated labels of the host name, in lower case; a URL
    that does not parse contributes none).  (2) It returns [false] for the
    pair https://support.example.com, https://docs.example.com and (3)
    [true] for the pair https://example.com, https://different.org, for
    every parser that finds the host names of these four URLs. *)
Theorem distinctDomainsOK_registrable_domains :
  (∀ URL_hostname citations,
      distinctDomainsOK URL_hostname citations = true ↔
      (2 ≤ length citations)%nat ∧
      (2 ≤ size (registrable_domains URL_hostname citations))%nat) ∧
  (∀ URL_hostname t1 q1 t2 q2,
      URL_hostname "https://support.example.com" = Some "support.example.com" →
      URL_hostname "https://docs.example.com" = Some "docs.example.com" →
      distinctDomainsOK URL_hostname
        [Citation.mk "https://support.example.com" t1 q1;
         Citation.mk "https://docs.example.com" t2 q2] = false) ∧
  (∀ URL_hostname t1 q1 t2 q2,
      URL_hostname "https://example.com" = Some "example.com" →
      URL_hostname "https://different.org" = Some "different.org" →
      distinctDomainsOK URL_hostname
        [Citation.mk "https://example.com" t1 q1;
         Citation.mk "https://different.org" t2 q2] = true).
Proof.
  split; [apply distinctDomainsOK_spec|].
  split; intros URL_hostname t1 q1 t2 q2 H1 H2;
    unfold distinctDomainsOK, add_domain; cbn; rewrite H1, H2; by vm_compute.
Qed.

(** The two pairs, run with the parser of [URL]. *)
Lemma distinctDomainsOK_registrable_domains_witness :
  distinctDomainsOK URL.hostname
    [Citation.mk "https://support.example.com" "Page 1" "Quote 1";
     Citation.mk "https://docs.example.com" "Page 2" "Quote 2"] = false ∧
  distinctDomainsOK URL.hostname
    [Citation.mk "https://example.com" "Page 1" "Quote 1";
     Citation.mk "https://different.org" "Page 2" "Quote 2"] = true.
Proof.
  destruct distinctDomainsOK_registrable_domains as (_ & Hsame & Hdiff).
  split; [apply Hsame|apply Hdiff]; reflexivity.
Defined.

End AnswerSchema.


(* ===================================================================== *)
(** * The page-fetch tool ([fetch_page] of [lib/tools.ts]) *)
(* ===================================================================== *)

Module Tools.
Import JsString.

(** [PageContent] *)
Record PageContent := mkPage { clean_text : string; headings : list string }.

(** What [await fetch(url, ...)] does: it rejects (a network error, or the
    abort after 15 seconds), or resolves to a response whose [text()]
    resolves to the body or rejects. *)
Inductive FetchResult :=
| Rejects
| Response (ok : bool) (status : Z) (statusText : string) (text : option string).

(** What the function reads of the document [cheerio.load(html)] builds,
    once [script, style, iframe, noscript, meta, link, head] are removed:
    the text of each element [$('h1, h2, h3')] selects, in document order,
    and the text of [body]. *)
Record Document := mkDocument {
  heading_texts : list string;
  body_text : string
}.

(** The cheerio module: loading and querying a page, [None] when it throws. *)
Record Cheerio := mkCheerio {
  load : string → option Document
}.

(** The world the function runs in: the network, and the result of
    [await import('cheerio')] ([None] when the import rejects). *)
Record World := mkWorld {
  fetch : string → FetchResult;
  import_cheerio : option Cheerio
}.

(** [s.replace(/\n+/g, ' ')] *)
Fixpoint replace_newlines (s : string) : string :=
  match s with
  | EmptyString => EmptyString
  | String c s' =>
      if decide (c = "010"%char) then
        match s' with
        | String c' _ => if decide (c' = "010"%char) then replace_newlines s'
                         else String " " (replace_newlines s')
        | EmptyString => String " " EmptyString
        end
      else String c (replace_newlines s')
  end.

Definition MAX_TEXT : nat := 40000.
Definition MAX_HEADINGS : nat := 20.

(** The callback of [.each]: push the trimmed text while fewer than 20
    headings are held, if it is not empty. *)
Definition push_heading (headings : list string) (element_text : string) : list string :=
  if (length headings <? MAX_HEADINGS)%nat then
    let text := trim element_text in
    if (0 <? String.length text)%nat then headings ++ [text] else headings
  else headings.

(** [s.substring(0, 40000) + '...'] when [s] is longer than 40000. *)
Definition truncate (cleanText : string) : string :=
  if (MAX_TEXT <? String.length cleanText)%nat
  then substring0 MAX_TEXT cleanText ++ "..."
  else cleanText.

(** The text of the page before truncation. *)
Definition page_text (doc : Document) : string :=
  trim (replace_newlines (collapse_spaces (body_text doc))).

(** The [try] block; [None] when it throws. *)
Definition fetch_page_try (w : World) (url : string) : option PageContent :=
  match fetch w url with
  | Rejects => None
  | Response ok status statusText text =>
      if negb ok then None   (* throw new Error(`HTTP ${status}: ${statusText}`) *)
      else
        html ← text;
        cheerio ← import_cheerio w;
        doc ← load cheerio html;
        let headings := fold_left push_heading (heading_texts doc) [] in
        Some {| clean_text := truncate (page_text doc); headings := headings |}
  end.

(** What the [catch] block returns. *)
Definition placeholder (url : string) : PageContent :=
  {| clean_text :=
       "Unable to fetch content from " ++ url
         ++ ". Please check the URL and try again.";
     headings := [] |}.

(** [fetch_page(url)] *)
Definition fetch_page (w : World) (url : string) : PageContent :=
  match fetch_page_try w url with
  | Some page => page
  | None => placeholder url
  end.

(** ** Properties *)

Lemma MAX_TEXT_Z : Z.of_nat MAX_TEXT = 40000.
Proof. by vm_compute. Qed.

Lemma truncate_length cleanText :
  Z.of_nat (String.length (truncate cleanText)) ≤ 40003.
Proof.
  unfold truncate. pose proof MAX_TEXT_Z.
  destruct (Nat.ltb_spec MAX_TEXT (String.length cleanText)); [|lia].
  rewrite length_append, length_substring0. cbn [String.length]. lia.
Qed.

(** The headings kept: the first 20 of the trimmed texts that are not empty. *)
Lemma fold_push_heading texts : ∀ headings,
  fold_left push_heading texts headings
    = headings ++ firstn (MAX_HEADINGS - length headings)
                    (filter (λ t, t ≠ EmptyString) (map trim texts)).
Proof.
  induction texts as [|t texts IH]; intros headings; cbn [fold_left map].
  - by rewrite filter_nil, firstn_nil, app_nil_r.
  - rewrite IH. unfold push_heading.
    destruct (Nat.ltb_spec (length headings) MAX_HEADINGS) as [Hlt|Hge].
    + destruct (trim t) as [|c t'] eqn:Ht; cbn [String.length Nat.ltb Nat.leb].
      * rewrite filter_cons_False by (by intros []). done.
      * rewrite filter_cons_True by done.
        rewrite length_app. cbn [length].
        replace (MAX_HEADINGS - length headings)%nat
          with (S (MAX_HEADINGS - (length headings + 1)))%nat by lia.
        cbn [firstn]. by rewrite <-app_assoc.
    + replace (MAX_HEADINGS - length headings)%nat with 0%nat by lia.
      by rewrite !firstn_0.
Qed.

(** The ways the [try] block throws. *)
Definition fails (w : World) (url : string) : Prop :=
  fetch w url = Rejects ∨
  (∃ status statusText text, fetch w url = Response false status statusText text) ∨
  (∃ status statusText, fetch w url = Response true status statusText None) ∨
  import_cheerio w = None ∨
  (∃ status statusText html cheerio,
      fetch w url = Response true status statusText (Some html) ∧
      import_cheerio w = Some cheerio ∧ load cheerio html = None).

(** C9, as the code has it.  [fetch_page] returns a page in every world (it
    is a total function of the world and the URL).  (1) When the request
    rejects or times out, the response is not OK, its body cannot be read,
    cheerio cannot be loaded or fails on the page, the result is the
    placeholder: a text that names the URL, and no headings.  (2) Otherwise
    the text is the collapsed, trimmed text of the body when that has at
    most 40000 characters, and its first 40000 characters followed by three
    dots when it is longer: at most 40003 characters in all.  The headings
    are the first 20 of the trimmed texts of the [h1], [h2] and [h3]
    elements that are not empty. *)
Theorem fetch_page_never_raises (w : World) (url : string) :
  (fails w url → fetch_page w url = placeholder url) ∧
  (∀ status statusText html cheerio doc,
      fetch w url = Response true status statusText (Some html) →
      import_cheerio w = Some cheerio →
      load cheerio html = Some doc →
      let page := fetch_page w url in
      let text := page_text doc in
      (Z.of_nat (String.length text) ≤ 40000 → clean_text page = text) ∧
      (40000 < Z.of_nat (String.length text) →
         clean_text page = (substring0 MAX_TEXT text ++ "...")%string ∧
         Z.of_nat (String.length (clean_text page)) = 40003) ∧
      Z.of_nat (String.length (clean_text page)) ≤ 40003 ∧
      headings page
        = firstn 20 (filter (λ t, t ≠ EmptyString) (map trim (heading_texts doc))) ∧
      (length (headings page) ≤ 20)%nat).
Proof.
  split.
  - unfold fails, fetch_page, fetch_page_try.
    intros [->|[(st & stt & tx & ->)|[(st & stt & ->)|[Himp|Hload]]]]; [done..| |].
    + destruct (fetch w url) as [|[] st stt [html|]]; cbn; [done| |done..].
      by rewrite Himp.
    + destruct Hload as (st & stt & html & cheerio & -> & -> & Hload). cbn.
      by rewrite Hload.
  - intros status statusText html cheerio doc Hfetch Himp Hload page text.
    unfold page, fetch_page, fetch_page_try. rewrite Hfetch, Himp.
    cbn [negb mbind option_bind]. rewrite Hload.
    cbn [mbind option_bind clean_text headings]. fold text.
    pose proof MAX_TEXT_Z as HM. pose proof (truncate_length text) as Hlen.
    repeat split.
    + intros Hle. unfold truncate.
      by destruct (Nat.ltb_spec MAX_TEXT (String.length text)); [lia|].
    + unfold truncate.
      by destruct (Nat.ltb_spec MAX_TEXT (String.length text)); [|lia].
    + unfold truncate.
      destruct (Nat.ltb_spec MAX_TEXT (String.length text)); [|lia].
      rewrite length_append, length_substring0. cbn [String.length]. lia.
    + done.
    + by rewrite fold_push_heading.
    + rewrite fold_push_heading. cbn [app]. rewrite length_firstn. unfold MAX_HEADINGS.
      cbn [length]. lia.
Qed.

(** A world in which the page of the repository's test
    ['should limit text content length'] is served: a paragraph of 50000
    characters. *)
Definition long_page : string :=
  "<html><body><p>" ++ replicate 50000 "a" ++ "</p></body></html>".

Definition long_page_world : World :=
  {| fetch := λ _, Response true 200 "OK" (Some long_page);
     import_cheerio :=
       Some {| load := λ html,
                 Some {| heading_texts := [];
                         body_text :=
                           String.substring 15 (String.length html - 33) html |} |} |}.

(** The specification bounds the text of a fetched page by 40000
    characters; on the long page the text has 40003. *)
Lemma fetch_page_text_exceeds_40000 :
  is_Some (fetch_page_try long_page_world "https://example.com") ∧
  Z.of_nat (String.length
              (clean_text (fetch_page long_page_world "https://example.com")))
    = 40003.
Proof. split; [eexists; reflexivity|by vm_compute]. Qed.

(** A short page, as the repository's test
    ['should fetch and parse page content successfully'] serves one. *)
Definition short_page : string :=
  "<html><body><h1>Test Heading</h1><p>Test content</p></body></html>".

Definition short_document : Document :=
  {| heading_texts := ["Test Heading"]; body_text := "Test HeadingTest content" |}.

Definition short_page_world : World :=
  {| fetch := λ _, Response true 200 "OK" (Some short_page);
     import_cheerio := Some {| load := λ _, Some short_document |} |}.

Lemma fetch_page_never_raises_witness :
  let page := fetch_page short_page_world "https://example.com" in
  clean_text page = "Test HeadingTest content" ∧ headings page = ["Test Heading"].
Proof.
  destruct (fetch_page_never_raises short_page_world "https://example.com")
    as [_ Hok].
  destruct (Hok 200 "OK" short_page {| load := λ _, Some short_document |}
              short_document eq_refl eq_refl eq_refl)
    as (Hshort & _ & _ & Hhead & _).
  split; [|exact Hhead].
  apply Hshort. vm_compute. discriminate.
Defined.

(** The repository's tests of the failure paths: a rejected request and a
    response that is not OK. *)
Example fetch_page_on_failure :
  fetch_page {| fetch := λ _, Rejects; import_cheerio := None |}
    "https://invalid-url.com"
    = {| clean_text :=
           "Unable to fetch content from https://invalid-url.com. Please check the URL and try again.";
         headings := [] |} ∧
  headings
    (fetch_page {| fetch := λ _, Response false 404 "Not Found" None;
                   import_cheerio := Some {| load := λ _, Some short_document |} |}
       "https://example.com/not-found") = [].
Proof. by vm_compute. Qed.

End Tools.

(* ===================================================================== *)
(** * The agent orchestrator ([answerIssue] of [lib/llm.ts]) *)
(* ===================================================================== *)

Module LLM.
Import JsString AnswerSchema.

(** ** The conversation *)

(** [toolCall.function]: [{ name, arguments }] *)
Record ToolCallFunction := mkFunction { name : string; arguments : string }.

(** A tool call of an assistant message; [function_] is the field
    [function], absent on calls of another type. *)
Record ToolCall := mkToolCall {
  id : string;
  type : string;
  function_ : option ToolCallFunction
}.

(** [completion.choices[0].message]; [content] is [null] on a message that
    only calls tools. *)
Record AssistantMessage := mkAssistant {
  content : option string;
  tool_calls : option (list ToolCall)
}.

(** [ChatCompletionMessageParam] *)
Inductive Message :=
| system (content : string)
| user (content : string)
| assistant (message : AssistantMessage)
| tool (tool_call_id : string) (content : string).

(** The argument of [openai.chat.completions.create]. *)
Record Request := mkRequest {
  model : string;
  messages : list Message;
  tools : bool;          (* [tools: toolSchemas, tool_choice: 'auto'] given *)
  temperature : Qc;
  max_tokens : Z
}.

(** What awaiting the call does: it throws (the message of the error), or
    returns a completion, of which the code reads [choices[0]?.message]. *)
Inductive Completion :=
| create_throws (message : string)
| completion (first_choice : option AssistantMessage).

(** ** The world outside the function *)

Record World := mkWorld {
  (** [process.env.OPENAI_API_KEY] *)
  OPENAI_API_KEY : option string;
  (** the constant [SYSTEM_PROMPT] (its text holds quotation marks and is
      not needed) *)
  SYSTEM_PROMPT : string;
  create : Request → Completion;
  (** [JSON.parse]; [None] when it throws *)
  JSON_parse : string → option Js.value;
  JSON_stringify : Js.value → string;
  (** the three tools, applied to the arguments the model gave; [None] when
      the call throws *)
  search_web : Js.value → Js.value → option Js.value;
  fetch_page : Js.value → option Js.value;
  make_svg_diagram : Js.value → option Js.value;
  (** [new URL(u).hostname] *)
  URL_hostname : string → option string
}.

(** ** Failures *)

(** The errors thrown inside the outer [try]; the [catch] rethrows each as
    [Unable to process your request: ${error.message}]. *)
Inductive Error :=
| ClientError (message : string)  (* thrown by [create] *)
| NoResponse           (* 'No response from OpenAI' *)
| NoFinalResponse      (* 'Failed to get final response after tool calls' *)
| InvalidFormat        (* 'Invalid response format from AI model - unable to
                          extract valid JSON' *)
| ClampTypeError       (* a [TypeError] of [clampAnswer] *)
| SchemaMismatch       (* 'Response does not match required schema' *)
| FinalValidation (error : list Zod.ZodIssue).  (* the [ZodError] of [validateAnswer] *)

Inductive Outcome :=
| Returns (answer : Answer)
| KeyNotConfigured     (* 'OpenAI API key not configured', thrown before the [try] *)
| Unable (e : Error).

(** ** Tool dispatch *)

(** The property names an object literal inherits: [toolFunctions[name]]
    is defined for them although they name no tool. *)
Definition Object_prototype_names : list string :=
  ["constructor"; "__defineGetter__"; "__defineSetter__"; "hasOwnProperty";
   "__lookupGetter__"; "__lookupSetter__"; "isPrototypeOf";
   "propertyIsEnumerable"; "toString"; "valueOf"; "__proto__"; "toLocaleString"].

(** ** Finding the JSON text in the model's answer *)

Definition backtick : ascii := "096".
Definition fence : string := String backtick (String backtick (String backtick "")).
Definition dquote : string := String "034" "".
Definition newline : ascii := "010".

(** [s] without its first [n] characters. *)
Definition drop (n : nat) (s : string) : string :=
  String.substring n (String.length s) s.

(** The text before and the text after the first code fence of [s]. *)
Fixpoint split_at_fence (s : string) : option (string * string) :=
  if String.prefix fence s then Some (EmptyString, drop 3 s)
  else match s with
       | EmptyString => None
       | String c s' => (λ '(before, after), (String c before, after)) <$> split_at_fence s'
       end.

(** The group that [/```(?:json)?\s*([\s\S]*?)\s*```/] captures: what stands
    between the first fence (and the word json and the white space after
    it) and the next fence, less the white space before that. *)
Definition match_code_block (s : string) : option string :=
  '(_, after) ← split_at_fence s;
  let after := if String.prefix "json" after then drop 4 after else after in
  '(inner, _) ← split_at_fence (trimStart after);
  Some (trimEnd inner).

(** The suffix of [s] that starts at its first [c]. *)
Fixpoint from_first (c : ascii) (s : string) : option string :=
  match s with
  | EmptyString => None
  | String x s' => if decide (x = c) then Some s else from_first c s'
  end.

(** The prefix of [s] that ends at its last [c]. *)
Fixpoint through_last (c : ascii) (s : string) : option string :=
  match s with
  | EmptyString => None
  | String x s' =>
      match through_last c s' with
      | Some t => Some (String x t)
      | None => if decide (x = c) then Some (String x EmptyString) else None
      end
  end.

(** What [s.match(/\{[\s\S]*\}/)] finds, and the same for brackets:
    from the first opening character to the last closing one after it. *)
Definition match_delimited (opening closing : ascii) (s : string) : option string :=
  match from_first opening s with
  | Some (String _ rest) => String opening <$> through_last closing rest
  | _ => None
  end.

(** The three strategies; the empty string stands for no text found. *)
Definition extract_json (finalResponse : string) : string :=
  match match_code_block finalResponse with
  | Some block => block
  | None =>
      match match_delimited "{" "}" finalResponse with
      | Some object => object
      | None => default "" (match_delimited "[" "]" finalResponse)
      end
  end.

(** [s.replace(/\n\s*/g, ' ')]; [skipping] holds inside a match. *)
Fixpoint replace_newline_runs (skipping : bool) (s : string) : string :=
  match s with
  | EmptyString => EmptyString
  | String c s' =>
      if skipping && is_space c then replace_newline_runs true s'
      else if decide (c = newline) then String " " (replace_newline_runs true s')
      else String c (replace_newline_runs false s')
  end.

(** The clean-up of the JSON text. *)
Definition clean_json (jsonStr : string) : string :=
  collapse_spaces (replace_newline_runs false (trim jsonStr)).

(** [\w] *)
Definition is_word (c : ascii) : bool :=
  URL.is_alpha c || URL.is_digit c || bool_decide (c = "_"%char).

(** [s.replace(/(\w+):/g, '"$1":')]; [run] is the run of word characters
    read so far. *)
Fixpoint quote_keys (run : string) (s : string) : string :=
  match s with
  | EmptyString => run
  | String c s' =>
      if is_word c then quote_keys (run ++ String c EmptyString) s'
      else if bool_decide (c = ":"%char) && negb (bool_decide (run = EmptyString))
      then dquote ++ run ++ dquote ++ String ":" (quote_keys EmptyString s')
      else run ++ String c (quote_keys EmptyString s')
  end.

(** [s.replace(/,\s*}/g, '}')], and the same for [']']; [pending] is the
    comma and the white space read after it. *)
Fixpoint strip_commas (closing : ascii) (pending : string) (s : string) : string :=
  match s with
  | EmptyString => pending
  | String c s' =>
      match pending with
      | EmptyString =>
          if decide (c = ","%char) then strip_commas closing (String c EmptyString) s'
          else String c (strip_commas closing EmptyString s')
      | _ =>
          if is_space c then strip_commas closing (pending ++ String c EmptyString) s'
          else if decide (c = closing) then String c (strip_commas closing EmptyString s')
          else if decide (c = ","%char)
               then pending ++ strip_commas closing (String c EmptyString) s'
               else pending ++ String c (strip_commas closing EmptyString s')
      end
  end.

(** The repair of the JSON text before the second parse. *)
Definition fix_json (jsonStr : string) : string :=
  strip_commas "]" EmptyString
    (strip_commas "}" EmptyString (quote_keys EmptyString jsonStr)).

Section with_world.
Variable w : World.

(** [JSON.stringify({ error: `Failed to execute ${name}` })], the content
    of the tool message when the call throws. *)
Definition failure_marker (name : string) : string :=
  JSON_stringify w (Js.Object [("error", Js.Str ("Failed to execute " ++ name))]).

(** The content of the tool message for one call of type function: [None]
    when no message is pushed ([toolFunctions[name]] is undefined). *)
Definition run_tool (f : ToolCallFunction) : option string :=
  match JSON_parse w (arguments f) with
  | None => Some (failure_marker (name f))
  | Some parsedArgs =>
      let result (r : option Js.value) : option string :=
        Some (match r with
              | Some v => JSON_stringify w v
              | None => failure_marker (name f)
              end) in
      if decide (name f = "search_web") then
        result (query ← Js.get parsedArgs "query";
                topK ← Js.get parsedArgs "topK";
                search_web w query topK)
      else if decide (name f = "fetch_page") then
        result (Js.get parsedArgs "url" ≫= fetch_page w)
      else if decide (name f = "make_svg_diagram") then
        result (Js.get parsedArgs "spec" ≫= make_svg_diagram w)
      else if bool_decide (name f ∈ Object_prototype_names) then
        Some (failure_marker (name f))   (* throw new Error(`Unknown tool: ${name}`) *)
      else None
  end.

(** The [for] loop over [assistantMessage.tool_calls]: [toolResults]. *)
Definition dispatch (calls : list ToolCall) : list Message :=
  omap (λ toolCall,
          if decide (type toolCall = "function") then
            f ← function_ toolCall;
            tool (id toolCall) <$> run_tool f
          else None)
       calls.

(** ** The tool-calling loop *)

Definition maxToolCalls : Z := 3.

Record LoopState := mkLoop {
  conversation : list Message;
  finalResponse : string;
  toolCallCount : Z
}.

Inductive LoopStep :=
| Continue (st : LoopState)
| Break (st : LoopState)
| Throw (e : Error).

Definition loop_request (conversation : list Message) : Request :=
  {| model := "gpt-3.5-turbo"; messages := conversation; tools := true;
     temperature := Q2Qc (3 # 10); max_tokens := 4000 |}.

(** One run of the body of the [while] loop. *)
Definition loop_body (st : LoopState) : LoopStep :=
  match create w (loop_request (conversation st)) with
  | create_throws message => Throw (ClientError message)
  | completion None => Throw NoResponse
  | completion (Some assistantMessage) =>
      let conversation := conversation st ++ [assistant assistantMessage] in
      match tool_calls assistantMessage with
      | None | Some [] =>
          Break {| conversation := conversation;
                   finalResponse := default "" (content assistantMessage);
                   toolCallCount := toolCallCount st |}
      | Some calls =>
          Continue {| conversation := conversation ++ dispatch calls;
                      finalResponse := finalResponse st;
                      toolCallCount := toolCallCount st + 1 |}
      end
  end.

(** The [while] loop, with the number of times its body ran.  [None]: the
    fuel ran out before the loop ended. *)
Fixpoint while_loop (fuel : nat) (st : LoopState) : option (nat * (Error + LoopState)) :=
  match fuel with
  | O => None
  | S fuel' =>
      if toolCallCount st <? maxToolCalls then
        match loop_body st with
        | Continue st' =>
            '(rounds, r) ← while_loop fuel' st'; Some (S rounds, r)
        | Break st' => Some (1%nat, inr st')
        | Throw e => Some (1%nat, inl e)
        end
      else Some (0%nat, inr st)
  end.

(** ** From the final text to the validated answer *)

(** The [try] block around the extraction and the two parses. *)
Definition parse_response (finalResponse : string) : Error + Js.value :=
  let jsonStr := extract_json finalResponse in
  if decide (jsonStr = EmptyString) then inl InvalidFormat
  else
    let jsonStr := clean_json jsonStr in
    match JSON_parse w jsonStr with
    | Some parsedResponse => inr parsedResponse
    | None =>
        match JSON_parse w (fix_json jsonStr) with
        | Some parsedResponse => inr parsedResponse
        | None => inl InvalidFormat
        end
    end.

(** [clampAnswer] and then [safeParseAnswer], in this order. *)
Definition clamp_and_validate (parsedResponse : Js.value) : Error + Answer :=
  match clampAnswer_js parsedResponse with
  | None => inl ClampTypeError
  | Some clamped =>
      match safeParseAnswer (URL_hostname w) clamped with
      | Zod.Success data => inr data
      | Zod.Failure _ => inl SchemaMismatch
      end
  end.

(** ** The citation repair round *)

Definition addendum_request (parsedResponse : Answer) : Request :=
  {| model := "gpt-3.5-turbo";
     messages :=
       [system "You are a helpful assistant. Provide ONLY a JSON array of 1-2 additional citations from different domains to replace or augment the existing ones. Each citation must have url, title, and quote (max 180 chars).";
        user ("The current citations are not from distinct domains. Please provide additional citations from different domains to ensure we have at least 2 unique eTLD+1 sources. Current citations: "
              ++ JSON_stringify w (Js.Array (map Citation_toJs (citations parsedResponse))))];
     tools := false;
     temperature := Q2Qc (1 # 10);
     max_tokens := 500 |}.

(** [parsedResponse.citations = newCitations]: the answer object with its
    citations replaced by arbitrary values. *)
Definition with_citations (parsedResponse : Answer) (newCitations : list Js.value)
  : Js.value :=
  match Answer_toJs parsedResponse with
  | Js.Object props => Js.Object (Js.set_prop "citations" (Js.Array newCitations) props)
  | v => v
  end.

(** The [try] block that reads the addendum: the value of [parsedResponse]
    after it.  The assignment to [citations] comes before the second
    validation, and a failure of that validation does not undo it. *)
Definition apply_addendum (parsedResponse : Answer) (addendumContent : string)
  : Js.value :=
  match match_delimited "[" "]" addendumContent with
  | None => Answer_toJs parsedResponse
  | Some text =>
      match JSON_parse w text with
      | None => Answer_toJs parsedResponse      (* caught: 'Failed to parse citation addendum' *)
      | Some (Js.Array additionalCitations) =>
          let newCitations :=
            firstn 5 (map Citation_toJs (firstn 2 (citations parsedResponse))
                        ++ firstn 3 additionalCitations) in
          let mutated := with_citations parsedResponse newCitations in
          match safeParseAnswer (URL_hostname w) mutated with
          | Zod.Success data => Answer_toJs data
          | Zod.Failure _ => mutated   (* 'Revalidation failed after citation addendum' *)
          end
      | Some _ => Answer_toJs parsedResponse
      end
  end.

(** The [if (!distinctDomainsOK(...))] block: the value of [parsedResponse]
    after it, or the error of the request. *)
Definition citation_repair (parsedResponse : Answer) : Error + Js.value :=
  if distinctDomainsOK (URL_hostname w) (citations parsedResponse)
  then inr (Answer_toJs parsedResponse)
  else
    match create w (addendum_request parsedResponse) with
    | create_throws message => inl (ClientError message)
    | completion first_choice =>
        match first_choice ≫= content with
        | None | Some EmptyString => inr (Answer_toJs parsedResponse)
        | Some addendumContent => inr (apply_addendum parsedResponse addendumContent)
        end
    end.

(** What follows the first validation: the repair round and
    [return validateAnswer(parsedResponse)]. *)
Definition after_validation (parsedResponse : Answer) : Outcome :=
  match citation_repair parsedResponse with
  | inl e => Unable e
  | inr parsedResponse =>
      match validateAnswer (URL_hostname w) parsedResponse with
      | inr answer => Returns answer
      | inl error => Unable (FinalValidation error)
      end
  end.

(** What follows the loop. *)
Definition after_loop (st : LoopState) : Outcome :=
  if decide (finalResponse st = EmptyString) then Unable NoFinalResponse
  else
    match parse_response (finalResponse st) with
    | inl e => Unable e
    | inr parsedResponse =>
        match clamp_and_validate parsedResponse with
        | inl e => Unable e
        | inr parsedResponse => after_validation parsedResponse
        end
    end.

(** ** [answerIssue] *)

Definition truthy (o : option string) : bool :=
  match o with Some (String _ _) => true | _ => false end.

Definition userMessage (issue : string) (os device : option string) : string :=
  (let m := "Please help me resolve this IT issue: " ++ issue in
   let m := if truthy os
            then m ++ String newline ("Operating System: " ++ default "" os) else m in
   let m := if truthy device
            then m ++ String newline ("Device Type: " ++ default "" device) else m in
   if negb (truthy os) || negb (truthy device)
   then m ++ String newline (String newline
          "Note: If OS or device type is essential for this issue, please ask ONE clarifying question.")
   else m)%string.

Definition initial_state (issue : string) (os device : option string) : LoopState :=
  {| conversation := [system (SYSTEM_PROMPT w); user (userMessage issue os device)];
     finalResponse := EmptyString;
     toolCallCount := 0 |}.

(** [answerIssue({ issue, os, device })], with the number of rounds of the
    loop; [None]: the fuel ran out. *)
Definition answerIssue_rounds (fuel : nat) (issue : string) (os device : option string)
  : option (nat * Outcome) :=
  if negb (truthy (OPENAI_API_KEY w)) then Some (0%nat, KeyNotConfigured)
  else
    '(rounds, r) ← while_loop fuel (initial_state issue os device);
    Some (rounds,
          match r with
          | inl e => Unable e
          | inr st => after_loop st
          end).

Definition answerIssue (fuel : nat) (issue : string) (os device : option string)
  : option Outcome :=
  snd <$> answerIssue_rounds fuel issue os device.

(** ** The round ceiling *)

(** The model asks for tool calls on each of the next [n] rounds of the
    conversation. *)
Fixpoint requests_tools (n : nat) (conversation : list Message) : bool :=
  match n with
  | O => true
  | S n' =>
      match create w (loop_request conversation) with
      | completion (Some assistantMessage) =>
          match tool_calls assistantMessage with
          | Some (call :: calls) =>
              requests_tools n'
                ((conversation ++ [assistant assistantMessage]) ++ dispatch (call :: calls))
          | _ => false
          end
      | _ => false
      end
  end.

Lemma loop_body_Continue st st' :
  loop_body st = Continue st' →
  toolCallCount st' = toolCallCount st + 1 ∧ finalResponse st' = finalResponse st.
Proof.
  unfold loop_body. destruct (create w _) as [|[m|]]; [done| |done].
  destruct (tool_calls m) as [[|call calls]|]; [done| |done].
  by intros [= <-].
Qed.

(** The loop ends within the rounds that are left. *)
Lemma while_loop_terminates fuel : ∀ st,
  (Z.to_nat (maxToolCalls - toolCallCount st) < fuel)%nat →
  ∃ rounds r, while_loop fuel st = Some (rounds, r) ∧
              (rounds ≤ Z.to_nat (maxToolCalls - toolCallCount st))%nat.
Proof.
  induction fuel as [|fuel IH]; intros st Hfuel; [lia|]. cbn [while_loop].
  destruct (Z.ltb_spec (toolCallCount st) maxToolCalls) as [Hlt|Hge].
  - destruct (loop_body st) as [st'| |] eqn:Hbody.
    + apply loop_body_Continue in Hbody as [Hcount _].
      destruct (IH st') as (rounds & r & -> & Hrounds); [lia|].
      cbn. eexists _, _. split; [done|]. lia.
    + eexists _, _. split; [done|]. lia.
    + eexists _, _. split; [done|]. lia.
  - eexists _, _. split; [done|]. lia.
Qed.

(** When the model asks for tools on each of the rounds that are left, the
    loop runs them all and ends without a final response. *)
Lemma while_loop_exhausted (n : nat) : ∀ fuel st,
  requests_tools n (conversation st) = true →
  toolCallCount st = maxToolCalls - Z.of_nat n →
  (n < fuel)%nat →
  ∃ st', while_loop fuel st = Some (n, inr st') ∧
         finalResponse st' = finalResponse st.
Proof.
  induction n as [|n IH]; intros fuel st Hreq Hcount Hfuel;
    (destruct fuel as [|fuel]; [lia|]); cbn [while_loop].
  - destruct (Z.ltb_spec (toolCallCount st) maxToolCalls); [lia|]. by exists st.
  - destruct (Z.ltb_spec (toolCallCount st) maxToolCalls); [|lia].
    cbn [requests_tools] in Hreq. unfold loop_body.
    destruct (create w _) as [|[m|]]; [done| |done].
    destruct (tool_calls m) as [[|call calls]|]; [done| |done].
    edestruct (IH fuel) as (st' & -> & Hfinal); [exact Hreq|cbn; lia|lia|].
    cbn. by exists st'.
Qed.

(** C5.  (1) For every world and every input, [answerIssue] ends (four
    units of fuel are enough for the loop) and the body of the tool-calling
    loop runs at most 3 times.  (2) When the key is configured and the model
    asks for tool calls on each of the 3 rounds, the loop runs 3 times and
    the call fails with the error 'Failed to get final response after tool
    calls', the failure that stands for the exhausted tool-call budget. *)
Theorem answerIssue_round_ceiling (issue : string) (os device : option string) :
  (∀ fuel, (4 ≤ fuel)%nat →
     ∃ rounds outcome,
       answerIssue_rounds fuel issue os device = Some (rounds, outcome) ∧
       (rounds ≤ 3)%nat) ∧
  (truthy (OPENAI_API_KEY w) = true →
   requests_tools 3 (conversation (initial_state issue os device)) = true →
   ∀ fuel, (4 ≤ fuel)%nat →
     answerIssue_rounds fuel issue os device = Some (3%nat, Unable NoFinalResponse)).
Proof.
  split.
  - intros fuel Hfuel. unfold answerIssue_rounds.
    destruct (truthy (OPENAI_API_KEY w)); cbn [negb];
      [|eexists _, _; split; [reflexivity|lia]].
    destruct (while_loop_terminates fuel (initial_state issue os device))
      as (rounds & r & -> & Hrounds);
      [unfold maxToolCalls; cbn [toolCallCount initial_state]; lia|].
    unfold maxToolCalls in Hrounds. cbn [toolCallCount initial_state] in Hrounds.
    cbn [mbind option_bind].
    eexists _, _. split; [reflexivity|lia].
  - intros Hkey Hreq fuel Hfuel. unfold answerIssue_rounds. rewrite Hkey. cbn [negb].
    destruct (while_loop_exhausted 3 fuel (initial_state issue os device))
      as (st' & -> & Hfinal); [done|done|lia|].
    cbn [mbind option_bind]. unfold after_loop. rewrite Hfinal. cbn [initial_state finalResponse].
    by rewrite decide_True.
Qed.

(** ** The citation repair round *)

(** The reply to the repair request gives no array to splice in: it has no
    content, no bracket-delimited text, or text that [JSON.parse] rejects. *)
Definition unusable_reply (addendumContent : option string) : bool :=
  match addendumContent with
  | None | Some EmptyString => true
  | Some addendumContent =>
      match match_delimited "[" "]" addendumContent with
      | None => true
      | Some text =>
          match JSON_parse w text with
          | None => true
          | Some v => negb (Js.isArray v)
          end
      end
  end.

(** C1, as the code has it.  Let the answer be validated and its citations
    fail the distinct-domain check.  (1) When the reply to the repair
    request is unusable, the call returns the answer unchanged.  (2) When
    the repair request itself throws, the call fails with that error: the
    request stands outside the inner [try] block, as every other request to
    the model does. *)
Theorem citation_repair_best_effort (a : Answer) :
  Answer_ok (URL_hostname w) a = true →
  distinctDomainsOK (URL_hostname w) (citations a) = false →
  (∀ first_choice,
      create w (addendum_request a) = completion first_choice →
      unusable_reply (first_choice ≫= content) = true →
      after_validation a = Returns a) ∧
  (∀ message,
      create w (addendum_request a) = create_throws message →
      after_validation a = Unable (ClientError message)).
Proof.
  intros Hok Hdistinct.
  assert (validateAnswer (URL_hostname w) (Answer_toJs a) = inr a) as Hvalid.
  { unfold validateAnswer.
    by rewrite (Answer_toJs_parse (URL_hostname w) a Hok
                  : AnswerSchema (URL_hostname w) [] (Answer_toJs a) = Zod.Success a). }
  split.
  - intros first_choice Hcreate Hreply.
    unfold after_validation, citation_repair. rewrite Hdistinct, Hcreate.
    unfold unusable_reply in Hreply.
    destruct (first_choice ≫= content) as [[|c addendumContent]|];
      [by rewrite Hvalid| |by rewrite Hvalid].
    unfold apply_addendum.
    destruct (match_delimited "[" "]" (String c addendumContent)) as [text|];
      [|by rewrite Hvalid].
    destruct (JSON_parse w text) as [v|]; [|by rewrite Hvalid].
    destruct v; try by rewrite Hvalid. done.
  - intros message Hcreate.
    unfold after_validation, citation_repair. by rewrite Hdistinct, Hcreate.
Qed.

End with_world.

(** ** Worlds to run the orchestrator in *)

(** A model that asks for a diagram on every round. *)
Definition tool_hungry_world : World :=
  {| OPENAI_API_KEY := Some "sk-test";
     SYSTEM_PROMPT := "You are a Level-1 IT support expert.";
     create := λ _,
       completion
         (Some {| content := None;
                  tool_calls :=
                    Some [mkToolCall "call_1" "function"
                            (Some (mkFunction "make_svg_diagram" "{}"))] |});
     JSON_parse := λ _, Some (Js.Object []);
     JSON_stringify := λ _, "{}";
     search_web := λ _ _, Some (Js.Array []);
     fetch_page := λ _, Some (Js.Object []);
     make_svg_diagram := λ _, Some (Js.Object [("svg", Js.Str "<svg></svg>")]);
     URL_hostname := URL.hostname |}.

Lemma answerIssue_round_ceiling_witness :
  answerIssue_rounds tool_hungry_world 4
    "My computer won't turn on" (Some "Windows") (Some "Desktop")
    = Some (3%nat, Unable NoFinalResponse).
Proof.
  apply (answerIssue_round_ceiling tool_hungry_world); [reflexivity|reflexivity|lia].
Defined.

(** A validated answer whose two citations share the domain example.com. *)
Definition same_domain_answer : Answer :=
  {| answer_title := "How to Fix WiFi Issues";
     one_paragraph_summary := "Restart the adapter, then the router.";
     prereqs := ["Router access"];
     steps := [Step.mk "Check WiFi adapter" "Ensure the adapter is enabled"
                 [Windows; macOS] (Some (Qc_of_Z 5)) None];
     decision_tree := [];
     diagrams := [];
     citations := [Citation.mk "https://support.example.com/wifi" "Support" "Quote 1";
                   Citation.mk "https://docs.example.com/wifi" "Docs" "Quote 2"];
     warnings := [] |}.

(** A world in which the model answers the first request with the text of
    [same_domain_answer] (the parser of the world knows that text) and the
    repair request fails. *)
Definition flaky_world : World :=
  {| OPENAI_API_KEY := Some "sk-test";
     SYSTEM_PROMPT := "You are a Level-1 IT support expert.";
     create := λ request,
       if tools request
       then completion (Some {| content := Some "{answer}"; tool_calls := None |})
       else create_throws "Connection error.";
     JSON_parse := λ text,
       if decide (text = "{answer}") then Some (Answer_toJs same_domain_answer)
       else None;
     JSON_stringify := λ _, "[]";
     search_web := λ _ _, None;
     fetch_page := λ _, None;
     make_svg_diagram := λ _, None;
     URL_hostname := URL.hostname |}.

(** The specification has the repair round keep the answer when the repair
    request fails; the call fails instead. *)
Lemma repair_request_failure_fails_call :
  Answer_ok URL.hostname same_domain_answer = true ∧
  distinctDomainsOK URL.hostname (citations same_domain_answer) = false ∧
  create flaky_world (addendum_request flaky_world same_domain_answer)
    = create_throws "Connection error." ∧
  after_validation flaky_world same_domain_answer
    = Unable (ClientError "Connection error.") ∧
  answerIssue flaky_world 4 "My WiFi keeps dropping" (Some "Windows") (Some "Laptop")
    = Some (Unable (ClientError "Connection error.")).
Proof. by vm_compute. Qed.

(** A world in which the model answers the repair request with prose. *)
Definition prose_world : World :=
  {| OPENAI_API_KEY := Some "sk-test";
     SYSTEM_PROMPT := "You are a Level-1 IT support expert.";
     create := λ _,
       completion (Some {| content := Some "I could not find other sources.";
                           tool_calls := None |});
     JSON_parse := λ _, None;
     JSON_stringify := λ _, "[]";
     search_web := λ _ _, None;
     fetch_page := λ _, None;
     make_svg_diagram := λ _, None;
     URL_hostname := URL.hostname |}.

(** A world in which the model answers the repair request with the JSON
    text of an array that holds [null]. *)
Definition null_citation_world : World :=
  {| OPENAI_API_KEY := Some "sk-test";
     SYSTEM_PROMPT := "You are a Level-1 IT support expert.";
     create := λ _,
       completion (Some {| content := Some "[null]"; tool_calls := None |});
     JSON_parse := λ text,
       if decide (text = "[null]") then Some (Js.Array [Js.Null]) else None;
     JSON_stringify := λ _, "[]";
     search_web := λ _ _, None;
     fetch_page := λ _, None;
     make_svg_diagram := λ _, None;
     URL_hostname := URL.hostname |}.

(** The spliced list is assigned before it is validated again, and the
    failed validation (which only logs 'Revalidation failed after citation
    addendum') leaves it in place: the final [validateAnswer] then throws. *)
Remark failed_revalidation_fails_call :
  after_validation null_citation_world same_domain_answer
    = Unable (FinalValidation
                [{| Zod.code := Zod.invalid_type;
                    Zod.path := [Zod.Key "citations"; Zod.Idx 2] |}]).
Proof. by vm_compute. Qed.

Lemma citation_repair_best_effort_witness :
  after_validation prose_world same_domain_answer = Returns same_domain_answer.
Proof.
  apply (citation_repair_best_effort prose_world same_domain_answer)
    with (first_choice := Some {| content := Some "I could not find other sources.";
                                  tool_calls := None |});
    by vm_compute.
Defined.

(** ** Whole calls *)

(** A world with a model that first asks for a search and then answers, and
    that answers the repair request with one citation from another domain.
    The parser of the world knows the two texts the model produces; the
    texts stand for the JSON of [same_domain_answer] and of the citation. *)
Definition other_citation : Citation.t :=
  Citation.mk "https://different.org/wifi" "Other" "Quote 3".

Definition helpful_world : World :=
  {| OPENAI_API_KEY := Some "sk-test";
     SYSTEM_PROMPT := "You are a Level-1 IT support expert.";
     create := λ request,
       if tools request then
         if (length (messages request) <=? 2)%nat then
           completion
             (Some {| content := None;
                      tool_calls :=
                        Some [mkToolCall "call_1" "function"
                                (Some (mkFunction "search_web" "{query}"))] |})
         else
           completion
             (Some {| content := Some "Here is the answer: {answer} Good luck!";
                      tool_calls := None |})
       else
         completion (Some {| content := Some "Sure: [citation]"; tool_calls := None |});
     JSON_parse := λ text,
       if decide (text = "{answer}") then Some (Answer_toJs same_domain_answer)
       else if decide (text = "[citation]")
            then Some (Js.Array [Citation_toJs other_citation])
            else if decide (text = "{query}")
                 then Some (Js.Object [("query", Js.Str "wifi")])
                 else None;
     JSON_stringify := λ _, "[]";
     search_web := λ _ _, Some (Js.Array []);
     fetch_page := λ _, None;
     make_svg_diagram := λ _, None;
     URL_hostname := URL.hostname |}.

(** Two rounds of the loop, then the repair round: the answer comes back
    with the new citation after its own two. *)
Example answerIssue_with_repair :
  answerIssue_rounds helpful_world 4 "My WiFi keeps dropping" (Some "Windows") None
    = Some (2%nat,
            Returns
              {| answer_title := answer_title same_domain_answer;
                 one_paragraph_summary := one_paragraph_summary same_domain_answer;
                 prereqs := prereqs same_domain_answer;
                 steps := steps same_domain_answer;
                 decision_tree := [];
                 diagrams := [];
                 citations := citations same_domain_answer ++ [other_citation];
                 warnings := [] |}).
Proof. by vm_compute. Qed.

(** Without a key the call throws at once. *)
Example answerIssue_without_key :
  answerIssue
    {| OPENAI_API_KEY := None; SYSTEM_PROMPT := ""; create := create helpful_world;
       JSON_parse := JSON_parse helpful_world; JSON_stringify := λ _, "";
       search_web := λ _ _, None; fetch_page := λ _, None;
       make_svg_diagram := λ _, None; URL_hostname := URL.hostname |}
    4 "My WiFi keeps dropping" None None
    = Some KeyNotConfigured.
Proof. reflexivity. Qed.

(** ** Clamping comes before validation *)

(** C6.  (1) [clampAnswer] is total on answers, and every string of its
    result is within the bound of the contract; an answer that is within
    the bounds is returned as it is.  (2) A title of 300 characters becomes
    one of 200.  (3) At run time, on the value of a typed answer, the
    function does not throw and computes the same result.  (4) The
    orchestrator validates what [clampAnswer] returns: an answer is accepted
    if its clamped form meets the schema, whatever the lengths of its
    strings were; and (5) on every value that [clampAnswer] accepts,
    validation raises no [too_big] issue other than the one about the
    number of citations, so no string is rejected for its length. *)
Theorem clampAnswer_truncates_before_validation :
  (∀ a, within_bounds (clampAnswer a) ∧ (within_bounds a → clampAnswer a = a)) ∧
  (∀ a, String.length (answer_title a) = 300%nat →
        String.length (answer_title (clampAnswer a)) = 200%nat) ∧
  (∀ a, clampAnswer_js (Answer_toJs a) = Some (Answer_toJs (clampAnswer a))) ∧
  (∀ w a, Answer_ok (URL_hostname w) (clampAnswer a) = true →
          clamp_and_validate w (Answer_toJs a) = inr (clampAnswer a)) ∧
  (∀ w parsedResponse clamped,
      clampAnswer_js parsedResponse = Some clamped →
      Forall (λ i, Zod.code i = Zod.too_big → Zod.path i = [Zod.Key "citations"])
        (Zod.issues (safeParseAnswer (URL_hostname w) clamped))).
Proof.
  split; [|split; [|split; [|split]]].
  - intros a. split; [apply clampAnswer_within_bounds|apply clampAnswer_id].
  - intros a Hlen. cbn. rewrite length_substring0, Hlen. by vm_compute.
  - apply clampAnswer_js_toJs.
  - intros w a Hok. unfold clamp_and_validate.
    by rewrite clampAnswer_js_toJs, (Answer_toJs_parse _ _ Hok).
  - intros w parsedResponse clamped. apply clamped_too_big_only_count.
Qed.

(** The answer of the repository's test ['should trim long strings to safe
    lengths'], as far as its title goes. *)
Lemma clampAnswer_truncates_before_validation_witness :
  String.length
    (answer_title
       (clampAnswer
          {| answer_title := replicate 300 "A";
             one_paragraph_summary := replicate 1500 "B";
             prereqs := [replicate 500 "C"];
             steps := []; decision_tree := []; diagrams := []; citations := [];
             warnings := [] |})) = 200%nat.
Proof.
  apply clampAnswer_truncates_before_validation. apply length_replicate.
Defined.

(** C10.  (1) [clampAnswer] keeps the number of elements of [prereqs],
    [steps], [decision_tree], [diagrams], [citations], [warnings] and of the
    [shell] list of each step, and leaves each step's [os] and
    [est_minutes], each decision's [link_step] and each citation's [url] as
    they are.  (2) What the orchestrator validates is this result: a count
    out of bounds or a malformed URL is still there when validation runs. *)
Theorem clampAnswer_changes_only_strings :
  (∀ a,
      let a' := clampAnswer a in
      length (prereqs a') = length (prereqs a) ∧
      length (steps a') = length (steps a) ∧
      length (decision_tree a') = length (decision_tree a) ∧
      length (diagrams a') = length (diagrams a) ∧
      length (citations a') = length (citations a) ∧
      length (warnings a') = length (warnings a) ∧
      map (λ s, length <$> Step.shell s) (steps a')
        = map (λ s, length <$> Step.shell s) (steps a) ∧
      map Step.os (steps a') = map Step.os (steps a) ∧
      map Step.est_minutes (steps a') = map Step.est_minutes (steps a) ∧
      map DecisionTree.link_step (decision_tree a')
        = map DecisionTree.link_step (decision_tree a) ∧
      map Citation.url (citations a') = map Citation.url (citations a)) ∧
  (∀ w a,
      clamp_and_validate w (Answer_toJs a)
        = match safeParseAnswer (URL_hostname w) (Answer_toJs (clampAnswer a)) with
          | Zod.Success data => inr data
          | Zod.Failure _ => inl SchemaMismatch
          end).
Proof.
  split; [apply clampAnswer_preserves|].
  intros w a. unfold clamp_and_validate. by rewrite clampAnswer_js_toJs.
Qed.

(** *** The contract on examples *)

Definition with_quote (quote : string) (a : Answer) : Answer :=
  {| answer_title := answer_title a;
     one_paragraph_summary := one_paragraph_summary a;
     prereqs := prereqs a; steps := steps a; decision_tree := decision_tree a;
     diagrams := diagrams a;
     citations := map (λ c, Citation.mk (Citation.url c) (Citation.title c) quote)
                    (citations a);
     warnings := warnings a |}.

(** Quotes of 300 characters: validation alone rejects them as too long;
    the orchestrator, which clamps first, accepts the answer with the quotes
    cut to 180 characters. *)
Example long_quotes_accepted_after_clamp :
  let a := with_quote (replicate 300 "q") same_domain_answer in
  Zod.issues (safeParseAnswer URL.hostname (Answer_toJs a))
    = [{| Zod.code := Zod.too_big;
          Zod.path := [Zod.Key "citations"; Zod.Idx 0; Zod.Key "quote"] |};
       {| Zod.code := Zod.too_big;
          Zod.path := [Zod.Key "citations"; Zod.Idx 1; Zod.Key "quote"] |}] ∧
  clamp_and_validate prose_world (Answer_toJs a)
    = inr (with_quote (replicate 180 "q") same_domain_answer).
Proof. by vm_compute. Qed.

Definition with_diagram (d : Diagram.t) (a : Answer) : Answer :=
  {| answer_title := answer_title a;
     one_paragraph_summary := one_paragraph_summary a;
     prereqs := prereqs a; steps := steps a; decision_tree := decision_tree a;
     diagrams := [d]; citations := citations a; warnings := warnings a |}.

(** Truncation is by position, also where the schema looks at content: a
    diagram that starts with 10000 spaces passes the schema as it is, and
    fails the check of the opening tag once it is cut to 10000 characters. *)
Remark clamp_can_cut_the_svg_tag :
  let a := with_diagram
             (Diagram.mk "Flow" (replicate 10000 " " ++ "<svg></svg>"))
             same_domain_answer in
  Answer_ok URL.hostname a = true ∧
  clamp_and_validate prose_world (Answer_toJs a) = inl SchemaMismatch.
Proof. by vm_compute. Qed.

End LLM.

(* ===================================================================== *)
(** * The request handler ([POST] of [app/api/answer/route.ts]) *)
(* ===================================================================== *)

Module Route.
Import AnswerSchema.

(** What the handler reads of the [NextRequest]: two headers, and the
    result of the first [await request.json()] ([None] when it rejects). *)
Record NextRequest := mkRequest {
  x_forwarded_for : option string;
  x_real_ip : option string;
  json : option Js.value
}.

(** The process-wide state: [rateLimiter] and [cache]. *)
Record State := mkState {
  rateLimiter : TokenBucketRateLimiter.t;
  cache : LRUCache.t string Answer
}.

(** [TelemetryLog] *)
Record TelemetryLog := mkLog {
  ts : Z;
  ipHash : string;
  issueLen : Z;
  os : string;
  device : string;
  durationMs : Z;
  sourcesCount : Z;
  cacheHit : bool
}.

(** The calls the handler makes to its collaborators, in order. *)
Inductive Event :=
| consume_called (ip : string)
| getRemainingTokens_called (ip : string)
| request_json_called
| schema_parse_called
| cache_get_called (key : string)
| answerIssue_called (issue os device : string)
| cache_set_called (key : string)
| logTelemetry_called (log : TelemetryLog).

Inductive Header :=
| number_header (q : Qc)      (* [n.toString()] *)
| text_header (s : string)
| date_header (ms : Z).       (* [new Date(ms).toISOString()] *)

Inductive Body :=
| rate_limited (error : string) (retryAfter : Z)
| answer_body (answer : Answer)
| invalid_request (error : string) (details : list Zod.ZodIssue)
| internal_error (error : string).

(** [NextResponse.json(body, { status, headers })] *)
Record NextResponse := mkResponse {
  status : Z;
  body : Body;
  headers : list (string * Header)
}.

(** The validated request data. *)
Record AnswerRequest := mkAnswerRequest {
  issue : string;
  req_os : OS;
  req_device : string
}.

(** [AnswerRequestSchema] of [lib/schemas.ts] *)
Definition AnswerRequestSchema : Zod.Schema AnswerRequest :=
  Zod.object (λ path props,
    Zod.zap (Zod.zap (Zod.zmap mkAnswerRequest
      (Zod.field (Zod.string_ [Zod.min 1]) "issue" path props))
      (Zod.field (Zod.enum OS_members) "os" path props))
      (Zod.field (Zod.string_ [Zod.min 1]) "device" path props)).

Section handler.

(** [crypto.createHash('sha256').update(ip).digest('hex').substring(0, 8)] *)
Variable hashIP : string → string.
Variable JSON_stringify : Js.value → string.
(** The orchestrator: what [await answerIssue({ issue, os, device })] does. *)
Variable answerIssue : string → string → string → LLM.Outcome.
(** The successive values of [Date.now()] during the request. *)
Variable clock : nat → Z.

(** [forwarded?.split(',')[0] || realIp || 'anonymous'] *)
Definition clientIP (request : NextRequest) : string :=
  let first :=
    match x_forwarded_for request with
    | Some forwarded => head (JsString.split "," forwarded)
    | None => None
    end in
  if LLM.truthy first then default "" first
  else if LLM.truthy (x_real_ip request) then default "" (x_real_ip request)
  else "anonymous".

(** [Math.ceil((10 * 60 * 1000 - (now % (10 * 60 * 1000))) / 1000)] *)
Definition retryAfter (now : Z) : Z :=
  - ((- (10 * 60 * 1000 - Z.rem now (10 * 60 * 1000))) / 1000).

(** The [catch] block, for an error that is not a [ZodError]: the body was
    read already, so the second [request.json()] rejects and the log holds
    the defaults. *)
Definition catch_telemetry (startTime : Z) (ip : string) (t1 t2 : Z) : Event :=
  logTelemetry_called
    {| ts := t2; ipHash := hashIP ip; issueLen := 0; os := ""; device := "";
       durationMs := t1 - startTime; sourcesCount := 0; cacheHit := false |}.

(** [POST(request)]: the response, the new state, and the calls made. *)
Definition POST (st : State) (request : NextRequest)
  : NextResponse * State * list Event :=
  let startTime := clock 0 in
  let ip := clientIP request in
  let '(ok, rl) := TokenBucketRateLimiter.consume (rateLimiter st) ip (clock 1) in
  let st := {| rateLimiter := rl; cache := cache st |} in
  if negb ok then
    (* Rate limiting *)
    let remaining := TokenBucketRateLimiter.getRemainingTokens rl ip (clock 2) in
    ({| status := 429;
        body := rate_limited "Rate limit exceeded. Please try again later."
                  (retryAfter (clock 3));
        headers := [("X-RateLimit-Remaining", number_header remaining);
                    ("X-RateLimit-Reset", date_header (clock 4 + 10 * 60 * 1000))] |},
     st,
     [consume_called ip; getRemainingTokens_called ip])
  else
    let internal (events : list Event) (t : nat) :=
      ({| status := 500; body := internal_error "Internal server error"; headers := [] |},
       st,
       events ++ [catch_telemetry startTime ip (clock t) (clock (S t))]) in
    match json request with
    | None => internal [consume_called ip; request_json_called] 2%nat
    | Some body_value =>
        match AnswerRequestSchema [] body_value with
        | Zod.Failure error =>
            ({| status := 400;
                body := invalid_request "Invalid request data" error;
                headers := [] |},
             st,
             [consume_called ip; request_json_called; schema_parse_called;
              catch_telemetry startTime ip (clock 2) (clock 3)])
        | Zod.Success data =>
            let issue := issue data in
            let os := OS_name (req_os data) in
            let device := req_device data in
            let cacheKey :=
              JSON_stringify
                (Js.Object [("issue", Js.Str issue); ("os", Js.Str os);
                            ("device", Js.Str device)]) in
            let before :=
              [consume_called ip; request_json_called; schema_parse_called;
               cache_get_called cacheKey] in
            let '(cachedResult, c) := LRUCache.get (cache st) cacheKey (clock 2) in
            let st := {| rateLimiter := rl; cache := c |} in
            match cachedResult with
            | Some cached =>
                ({| status := 200; body := answer_body cached;
                    headers := [("X-Cache", text_header "HIT");
                                ("X-Cache-Size", number_header (Qc_of_Z (LRUCache.size c)))] |},
                 st,
                 before ++
                 [logTelemetry_called
                    {| ts := clock 4; ipHash := hashIP ip;
                       issueLen := Z.of_nat (String.length issue);
                       os := os; device := device;
                       durationMs := clock 3 - startTime;
                       sourcesCount := 0; cacheHit := true |}])
            | None =>
                match answerIssue issue os device with
                | LLM.Returns answer =>
                    let c := LRUCache.set c cacheKey answer (clock 3) in
                    ({| status := 200; body := answer_body answer;
                        headers :=
                          [("X-Cache", text_header "MISS");
                           ("X-Cache-Size", number_header (Qc_of_Z (LRUCache.size c)));
                           ("X-RateLimit-Remaining",
                            number_header
                              (TokenBucketRateLimiter.getRemainingTokens rl ip (clock 6)))] |},
                     {| rateLimiter := rl; cache := c |},
                     before ++
                     [answerIssue_called issue os device;
                      cache_set_called cacheKey;
                      logTelemetry_called
                        {| ts := clock 5; ipHash := hashIP ip;
                           issueLen := Z.of_nat (String.length issue);
                           os := os; device := device;
                           durationMs := clock 4 - startTime;
                           sourcesCount := Z.of_nat (length (citations answer));
                           cacheHit := false |};
                      getRemainingTokens_called ip])
                | _ =>
                    let '(response, _, events) :=
                      internal (before ++ [answerIssue_called issue os device]) 3%nat in
                    (response, st, events)
                end
            end
        end
    end.

(** ** Denied requests *)

(** The calls that lie behind admission: reading and parsing the payload,
    the cache, and the orchestrator. *)
Definition behind_admission (ev : Event) : bool :=
  match ev with
  | request_json_called | schema_parse_called | cache_get_called _
  | answerIssue_called _ _ _ | cache_set_called _ => true
  | _ => false
  end.

Lemma retryAfter_bounds now : 0 ≤ now → 1 ≤ retryAfter now ≤ 600.
Proof.
  intros Hnow. unfold retryAfter.
  pose proof (Z.rem_bound_pos now (10 * 60 * 1000) Hnow ltac:(lia)) as Hr.
  Z.to_euclidean_division_equations. lia.
Qed.

(** C8.  When [consume] denies the identity of a request, the handler
    answers with status 429 and a body that holds an error text and a
    [retryAfter] number of seconds (between 1 and 600 for a clock that is
    not negative); the only calls it makes are to the rate limiter; it reads
    no payload, looks nothing up in the cache and does not call the
    orchestrator, and the cache is left as it was. *)
Theorem denied_request_stops_at_admission (st : State) (request : NextRequest) :
  fst (TokenBucketRateLimiter.consume (rateLimiter st) (clientIP request) (clock 1))
    = false →
  let result := POST st request in
  let response := result.1.1 in
  let events := result.2 in
  status response = 429 ∧
  body response
    = rate_limited "Rate limit exceeded. Please try again later."
        (retryAfter (clock 3)) ∧
  (0 ≤ clock 3 → 1 ≤ retryAfter (clock 3) ≤ 600) ∧
  events = [consume_called (clientIP request);
            getRemainingTokens_called (clientIP request)] ∧
  Forall (λ ev, behind_admission ev = false) events ∧
  (∀ issue os device, answerIssue_called issue os device ∉ events) ∧
  cache result.1.2 = cache st.
Proof.
  intros Hdenied. unfold POST.
  destruct (TokenBucketRateLimiter.consume _ _ _) as [ok rl]. cbn in Hdenied. subst ok.
  cbn. repeat split; try done.
  - by apply retryAfter_bounds.
  - by apply retryAfter_bounds.
  - by repeat constructor.
  - intros issue os device Hin. by repeat (apply elem_of_cons in Hin as [?|Hin]; [done|]);
      apply elem_of_nil in Hin.
Qed.

End handler.

(** A limiter whose bucket for the anonymous identity is empty, and a
    request without address headers at the time of the last refill. *)
Definition exhausted_state (now : Z) : State :=
  {| rateLimiter :=
       TokenBucketRateLimiter.with_buckets TokenBucketRateLimiter.rateLimiter
         {[ "anonymous" := {| TokenBucketRateLimiter.tokens := 0%Qc;
                             TokenBucketRateLimiter.lastRefill := now |} ]};
     cache := LRUCache.new 100 6 |}.

Lemma denied_request_stops_at_admission_witness :
  let result :=
    POST (λ _, "00000000") (λ _, "{}") (λ _ _ _, LLM.KeyNotConfigured)
      (λ _, 1700000000000)
      (exhausted_state 1700000000000)
      {| x_forwarded_for := None; x_real_ip := None; json := Some Js.Null |} in
  status result.1.1 = 429 ∧
  body result.1.1
    = rate_limited "Rate limit exceeded. Please try again later." 400 ∧
  result.2 = [consume_called "anonymous"; getRemainingTokens_called "anonymous"].
Proof.
  destruct (denied_request_stops_at_admission
              (λ _, "00000000") (λ _, "{}") (λ _ _ _, LLM.KeyNotConfigured)
              (λ _, 1700000000000)
              (exhausted_state 1700000000000)
              {| x_forwarded_for := None; x_real_ip := None; json := Some Js.Null |})
    as (Hstatus & Hbody & _ & Hevents & _).
  - by vm_compute.
  - intros result. split; [exact Hstatus|split; [exact Hbody|exact Hevents]].
Defined.

End Route.

(* ===================================================================== *)
(** * The rate limiter: what it reports, isolation, bounds and pace *)
(* ===================================================================== *)

(** Further properties of [class TokenBucketRateLimiter], among them of
    [getRemainingTokens]. *)

Module RateLimiterFacts.
Import TokenBucketRateLimiter.
Local Open Scope Qc_scope.

Implicit Types (rl : t) (ip : string) (now : Z) (b : Bucket).

(** Calls of [consume] by any identities, each at its clock reading: the
    answers in order, and the final state. *)
Fixpoint consume_calls (rl : t) (calls : list (string * Z)) : list bool * t :=
  match calls with
  | [] => ([], rl)
  | (ip, now) :: calls' =>
      let '(ok, rl1) := consume rl ip now in
      let '(oks, rl2) := consume_calls rl1 calls' in
      (ok :: oks, rl2)
  end.

Lemma Math_min_cases (x y : Qc) :
  (x ≤ y ∧ Math_min x y = x) ∨ (y < x ∧ Math_min x y = y).
Proof.
  unfold Math_min. case_decide as H; [by left|right].
  split; [|done]. by apply Qclt_nge.
Qed.

Lemma Math_min_le_l (x y : Qc) : Math_min x y ≤ x.
Proof.
  destruct (Math_min_cases x y) as [[_ ->]|[H ->]]; [done|]. by apply Qclt_le_weak.
Qed.

Lemma Math_min_le_r (x y : Qc) : Math_min x y ≤ y.
Proof. by destruct (Math_min_cases x y) as [[H ->]|[_ ->]]. Qed.

Lemma Math_min_glb (x y z : Qc) : z ≤ x → z ≤ y → z ≤ Math_min x y.
Proof. intros. by destruct (Math_min_cases x y) as [[_ ->]|[_ ->]]. Qed.

Lemma Math_min_ge_1 (x y : Qc) : 1 ≤ x → (1 ≤ Math_min x y ↔ 1 ≤ y).
Proof.
  intros Hx. destruct (Math_min_cases x y) as [[H ->]|[H ->]]; [|done].
  split; [|done]. intros _. by trans x.
Qed.

(** The bucket [consume] works on, and the token count it finds in it. *)
Definition bucket_of rl ip now : Bucket :=
  default {| tokens := maxTokens rl; lastRefill := now |} (buckets rl !! ip).

Lemma getRemainingTokens_refilled rl ip now :
  getRemainingTokens rl ip now = refilled rl (bucket_of rl ip now) now.
Proof.
  unfold getRemainingTokens, bucket_of.
  destruct (buckets rl !! ip) as [b|]; [done|]. cbn.
  by rewrite refilled_same_instant.
Qed.

Lemma refilled_le_max rl b now : refilled rl b now ≤ maxTokens rl.
Proof. apply Math_min_le_l. Qed.

Lemma consume_fst rl ip now :
  fst (consume rl ip now) = bool_decide (1 ≤ getRemainingTokens rl ip now).
Proof. by rewrite consume_stores, getRemainingTokens_refilled. Qed.

Lemma consume_buckets rl ip now :
  buckets (snd (consume rl ip now))
    = <[ip := {| tokens := if bool_decide (1 ≤ getRemainingTokens rl ip now)
                           then getRemainingTokens rl ip now - 1
                           else getRemainingTokens rl ip now;
                 lastRefill := now |}]> (buckets rl).
Proof. by rewrite consume_stores, getRemainingTokens_refilled. Qed.

Lemma consume_config rl ip now :
  maxTokens (snd (consume rl ip now)) = maxTokens rl ∧
  refillRate (snd (consume rl ip now)) = refillRate rl ∧
  refillInterval (snd (consume rl ip now)) = refillInterval rl.
Proof. by rewrite consume_stores. Qed.

(** X1.  [consume] and [getRemainingTokens] agree.  At any clock reading
    [consume] admits the identity exactly when [getRemainingTokens]
    reports at least one token at that reading; read again at the same
    instant after the call, the count is one less when the call was
    admitted and the same when it was denied. *)
Theorem remaining_tokens_decide_admission rl ip now :
  let remaining := getRemainingTokens rl ip now in
  let result := consume rl ip now in
  fst result = bool_decide (1 ≤ remaining) ∧
  getRemainingTokens (snd result) ip now
    = (if fst result then remaining - 1 else remaining).
Proof.
  intros remaining result. split; [apply consume_fst|].
  unfold result. rewrite consume_fst. fold remaining.
  unfold getRemainingTokens at 1. rewrite consume_buckets, lookup_insert_eq.
  destruct (consume_config rl ip now) as (Hmax & _).
  rewrite refilled_same_instant; [done| |done].
  cbn [tokens]. rewrite Hmax. fold remaining.
  assert (remaining ≤ maxTokens rl) as Hle.
  { unfold remaining. rewrite getRemainingTokens_refilled. apply refilled_le_max. }
  case_bool_decide; [|done].
  trans remaining; [|done].
  rewrite <-(Qcplus_0_r remaining) at 2. unfold Qcminus.
  apply Qcplus_le_mono_l. done.
Qed.

Lemma Math_min_l (x y : Qc) : x ≤ y → Math_min x y = x.
Proof. intros. unfold Math_min. by rewrite decide_True. Qed.

Lemma Qcle_plus_nonneg (x d : Qc) : 0 ≤ d → x ≤ x + d.
Proof.
  intros Hd. rewrite <-(Qcplus_0_r x) at 1. by apply Qcplus_le_mono_l.
Qed.

Lemma elapsed_nonneg rl (t1 t2 : Z) :
  0 ≤ refillRate rl → (t1 ≤ t2)%Z → 0 ≤ Qc_of_Z (t2 - t1) * refillRate rl.
Proof.
  intros Hrate Ht. apply Qcmult_nonneg_nonneg; [|done].
  rewrite <-Z2Qc_inj_0. apply (proj1 (Z2Qc_inj_le _ _)). lia.
Qed.

(** ** Buckets of other identities *)

Lemma getRemainingTokens_ext rl rl' ip now :
  maxTokens rl' = maxTokens rl → refillRate rl' = refillRate rl →
  buckets rl' !! ip = buckets rl !! ip →
  getRemainingTokens rl' ip now = getRemainingTokens rl ip now.
Proof.
  intros Hmax Hrate Hb. unfold getRemainingTokens, refilled.
  by rewrite Hb, Hmax, Hrate.
Qed.

(** X2.  Identities do not interfere.  A [consume] for one identity leaves
    the bucket of every other identity as it was, so what
    [getRemainingTokens] reports for another identity and what [consume]
    decides for it, at any reading, are what they would be without that
    call; and two calls for different identities store the same buckets in
    either order. *)
Theorem consume_other_identity rl ip ip' now now' :
  ip ≠ ip' →
  let rl1 := snd (consume rl ip now) in
  buckets rl1 !! ip' = buckets rl !! ip' ∧
  getRemainingTokens rl1 ip' now' = getRemainingTokens rl ip' now' ∧
  fst (consume rl1 ip' now') = fst (consume rl ip' now') ∧
  buckets (snd (consume rl1 ip' now'))
    = buckets (snd (consume (snd (consume rl ip' now')) ip now)).
Proof.
  intros Hne rl1.
  destruct (consume_config rl ip now) as (Hmax & Hrate & _). fold rl1 in Hmax, Hrate.
  assert (buckets rl1 !! ip' = buckets rl !! ip') as Hb.
  { unfold rl1. rewrite consume_buckets. by apply lookup_insert_ne. }
  assert (∀ t, getRemainingTokens rl1 ip' t = getRemainingTokens rl ip' t) as Hrem
    by (intros t; by apply getRemainingTokens_ext).
  split; [done|]. split; [done|]. split; [by rewrite !consume_fst, Hrem|].
  set (rl2 := snd (consume rl ip' now')).
  destruct (consume_config rl ip' now') as (Hmax2 & Hrate2 & _). fold rl2 in Hmax2, Hrate2.
  assert (getRemainingTokens rl2 ip now = getRemainingTokens rl ip now) as Hrem2.
  { apply getRemainingTokens_ext; [done..|].
    unfold rl2. rewrite consume_buckets. by apply lookup_insert_ne. }
  rewrite (consume_buckets rl1), (consume_buckets rl2), Hrem, Hrem2.
  unfold rl1, rl2. rewrite !consume_buckets. by apply insert_insert_ne.
Qed.

(** ** The token count stays in range *)

Definition inv rl (t : Z) : Prop :=
  ∀ ip b, buckets rl !! ip = Some b →
    (0 ≤ tokens b ∧ tokens b ≤ maxTokens rl) ∧ (lastRefill b ≤ t)%Z.

Lemma getRemainingTokens_bounds rl ip (t now : Z) :
  0 ≤ maxTokens rl → 0 ≤ refillRate rl → inv rl t → (t ≤ now)%Z →
  0 ≤ getRemainingTokens rl ip now ∧ getRemainingTokens rl ip now ≤ maxTokens rl.
Proof.
  intros Hmax Hrate Hinv Ht. unfold getRemainingTokens.
  destruct (buckets rl !! ip) as [b|] eqn:Hb; [|done].
  split; [|apply refilled_le_max].
  destruct (Hinv ip b Hb) as [[H0 _] Hlast].
  apply Math_min_glb; [done|].
  apply Qcplus_nonneg_nonneg; [done|]. apply elapsed_nonneg; [done|lia].
Qed.

Lemma inv_consume rl ip (t now : Z) :
  0 ≤ maxTokens rl → 0 ≤ refillRate rl → inv rl t → (t ≤ now)%Z →
  inv (snd (consume rl ip now)) now.
Proof.
  intros Hmax Hrate Hinv Ht ip' b'.
  destruct (consume_config rl ip now) as (-> & _).
  rewrite consume_buckets.
  destruct (decide (ip = ip')) as [<-|Hne].
  - rewrite lookup_insert_eq. intros [= <-]. cbn [tokens lastRefill].
    split; [|done].
    destruct (getRemainingTokens_bounds rl ip t now) as [H0 Hle]; [done..|].
    case_bool_decide as H1; [|done]. split.
    + apply (Qcplus_le_mono_r _ _ 1). by ring_simplify.
    + trans (getRemainingTokens rl ip now); [|done].
      apply (Qcplus_le_mono_r _ _ 1). ring_simplify.
      by apply Qcle_plus_nonneg.
  - rewrite lookup_insert_ne by done. intros Hb.
    destruct (Hinv ip' b' Hb) as [? ?]. split; [done|lia].
Qed.

Lemma inv_new_limiter (maxT interval t : Z) : inv (new maxT interval) t.
Proof. intros ip b. cbn. by rewrite lookup_empty. Qed.

Lemma new_rate_nonneg (maxT interval : Z) :
  (0 ≤ maxT)%Z → (0 < interval)%Z → 0 ≤ refillRate (new maxT interval).
Proof.
  intros Hmax Hint. cbn. unfold Qcdiv. apply Qcmult_nonneg_nonneg.
  - rewrite <-Z2Qc_inj_0. by apply (proj1 (Z2Qc_inj_le _ _)).
  - apply Qclt_le_weak, Qcinv_pos. rewrite <-Z2Qc_inj_0.
    by apply (proj1 (Z2Qc_inj_lt _ _)).
Qed.

Lemma consume_calls_config calls : ∀ rl,
  maxTokens (snd (consume_calls rl calls)) = maxTokens rl ∧
  refillRate (snd (consume_calls rl calls)) = refillRate rl.
Proof.
  induction calls as [|[ip now] calls IH]; intros rl; [done|].
  cbn [consume_calls].
  destruct (consume rl ip now) as [ok rl1] eqn:Hc.
  specialize (IH rl1). destruct (consume_calls rl1 calls) as [oks rl2]. cbn [snd] in *.
  destruct (consume_config rl ip now) as (Hmax & Hrate & _). rewrite Hc in Hmax, Hrate.
  cbn [snd] in *. destruct IH as [-> ->]. done.
Qed.

Lemma inv_mono rl (t t' : Z) : inv rl t → (t ≤ t')%Z → inv rl t'.
Proof.
  intros Hinv Ht ip b Hb. destruct (Hinv ip b Hb) as [? ?]. split; [done|lia].
Qed.

Lemma inv_consume_calls calls : ∀ rl (t t' : Z),
  0 ≤ maxTokens rl → 0 ≤ refillRate rl → inv rl t →
  StronglySorted Z.le (t :: map snd calls) →
  Forall (λ call, (call.2 ≤ t')%Z) calls → (t ≤ t')%Z →
  inv (snd (consume_calls rl calls)) t'.
Proof.
  induction calls as [|[ip now] calls IH]; intros rl t t' Hmax Hrate Hinv Hs Hall' Ht';
    [by apply (inv_mono rl t)|].
  cbn [consume_calls].
  destruct (consume rl ip now) as [ok rl1] eqn:Hc.
  specialize (IH rl1 now t'). destruct (consume_calls rl1 calls) as [oks rl2]. cbn [snd] in *.
  destruct (consume_config rl ip now) as (Hmax1 & Hrate1 & _). rewrite Hc in Hmax1, Hrate1.
  cbn [snd] in *.
  apply StronglySorted_inv in Hs as [Hs Hall]. cbn [map snd] in Hs, Hall.
  apply Forall_cons in Hall as [Ht _]. apply Forall_cons in Hall' as [Hnow Hall'].
  cbn [snd] in Hnow.
  apply IH; [by rewrite Hmax1|by rewrite Hrate1| |done..].
  pose proof (inv_consume rl ip t now Hmax Hrate Hinv Ht) as Hi. by rewrite Hc in Hi.
Qed.

(** X3.  The token count stays in range.  For a limiter created with a
    maximum of at least 0 and an interval above 0, after any calls of
    [consume] whose clock readings do not go down, every stored bucket
    holds between 0 and [maxTokens] tokens, and so does the count
    [getRemainingTokens] reports at any reading that is not before the
    calls'. *)
Theorem tokens_stay_in_range (maxT interval : Z) (calls : list (string * Z)) :
  (0 ≤ maxT)%Z → (0 < interval)%Z →
  Sorted Z.le (map snd calls) →
  let rl := snd (consume_calls (new maxT interval) calls) in
  (∀ ip b, buckets rl !! ip = Some b → 0 ≤ tokens b ∧ tokens b ≤ Qc_of_Z maxT) ∧
  (∀ ip now, Forall (λ call, (call.2 ≤ now)%Z) calls →
     0 ≤ getRemainingTokens rl ip now ∧ getRemainingTokens rl ip now ≤ Qc_of_Z maxT).
Proof.
  intros Hmax Hint Hsorted rl.
  assert (0 ≤ maxTokens (new maxT interval)) as Hmax'.
  { cbn. rewrite <-Z2Qc_inj_0. by apply (proj1 (Z2Qc_inj_le _ _)). }
  pose proof (new_rate_nonneg maxT interval Hmax Hint) as Hrate.
  destruct (consume_calls_config calls (new maxT interval)) as [Hm Hr]. fold rl in Hm, Hr.
  apply Sorted_StronglySorted in Hsorted; [|intros x y z; apply Z.le_trans].
  assert (∀ t', Forall (λ call, (call.2 ≤ t')%Z) calls → inv rl t') as Hinv.
  { intros t' Hall.
    destruct calls as [|[ip0 now0] calls].
    - apply inv_new_limiter.
    - apply (inv_consume_calls _ _ now0); [done|done|apply inv_new_limiter| |done|].
      + cbn [map snd] in *. constructor; [exact Hsorted|]. constructor; [lia|].
        by apply StronglySorted_inv in Hsorted as [_ ?].
      + by apply Forall_cons in Hall as [? _]. }
  split.
  - intros ip b Hb.
    set (t' := fold_right Z.max 0%Z (map snd calls)).
    assert (Forall (λ call : string * Z, (call.2 ≤ t')%Z) calls) as Hall;
      [|destruct (Hinv t' Hall ip b Hb) as [[? ?] _]; by rewrite Hm in *].
    apply Forall_forall. intros call Hin. unfold t'.
    clear -Hin. induction calls as [|c calls IH]; [by apply elem_of_nil in Hin|].
    cbn. apply elem_of_cons in Hin as [->|Hin]; [lia|]. apply IH in Hin. lia.
  - intros ip now Hnow.
    destruct (getRemainingTokens_bounds rl ip now now)
      as [? ?]; [by rewrite Hm|by rewrite Hr|by apply Hinv|done|by rewrite Hm in *].
Qed.

(** ** The pace of the handler's limiter *)

Lemma rateLimiter_rate : refillRate rateLimiter * Qc_of_Z 60000 = 1.
Proof. by apply Qc_is_canon. Qed.

Lemma remaining_scaled (q : Qc) (d : Z) :
  (q + Qc_of_Z d * refillRate rateLimiter) * Qc_of_Z 60000
    = q * Qc_of_Z 60000 + Qc_of_Z d.
Proof.
  rewrite Qcmult_plus_distr_l, <-Qcmult_assoc, rateLimiter_rate. ring.
Qed.

Lemma Qc_60000_pos : 0 < Qc_of_Z 60000.
Proof. rewrite <-Z2Qc_inj_0. by apply (proj1 (Z2Qc_inj_lt _ _)). Qed.

(** X4.  The handler's limiter (10 tokens, 10 minutes) refills one token a
    minute.  For a bucket that holds [n] whole tokens since the reading
    [t0], [consume] at [now] admits exactly when [now - t0] is at least
    [60000 * (1 - n)] milliseconds: an emptied bucket admits again 60000 ms
    later and not 1 ms earlier.  Ten minutes after [t0], a bucket that held
    at least 0 tokens is full again. *)
Theorem one_token_a_minute (bs : gmap string Bucket) ip (n t0 now : Z) :
  bs !! ip = Some {| tokens := Qc_of_Z n; lastRefill := t0 |} →
  let rl := with_buckets rateLimiter bs in
  fst (consume rl ip now) = bool_decide (60000 * (1 - n) ≤ now - t0)%Z ∧
  ((0 ≤ n)%Z → (t0 + 600000 ≤ now)%Z →
     getRemainingTokens rl ip now = Qc_of_Z 10).
Proof.
  intros Hb rl.
  assert (getRemainingTokens rl ip now
          = Math_min (Qc_of_Z 10)
              (Qc_of_Z n + Qc_of_Z (now - t0) * refillRate rateLimiter)) as Hrem.
  { unfold getRemainingTokens, rl. cbn [buckets with_buckets]. by rewrite Hb. }
  pose proof Qc_60000_pos as HK.
  split.
  - rewrite consume_fst, Hrem. apply bool_decide_ext.
    rewrite Math_min_ge_1
      by (rewrite <-Z2Qc_inj_1; by apply (proj1 (Z2Qc_inj_le _ _))).
    rewrite (Qcmult_le_mono_pos_r _ _ (Qc_of_Z 60000)) by done.
    rewrite remaining_scaled, Qcmult_1_l, <-Z2Qc_inj_mul, <-Z2Qc_inj_add.
    rewrite <-Z2Qc_inj_le. lia.
  - intros Hn Hnow. rewrite Hrem. apply Math_min_l.
    apply (Qcmult_le_mono_pos_r _ _ (Qc_of_Z 60000)); [done|].
    rewrite remaining_scaled, <-!Z2Qc_inj_mul, <-Z2Qc_inj_add.
    apply (proj1 (Z2Qc_inj_le _ _)). lia.
Qed.

(** The same pace on binary64 numbers: an emptied bucket denies after
    59999 ms, admits after 60000 ms, and is full after ten minutes. *)
Example a_minute_in_doubles :
  let emptied := Some {| TokenBucketDoubles.tokens := 0%float;
                         TokenBucketDoubles.lastRefill := 0%float |} in
  fst (TokenBucketDoubles.consume emptied 59999%float) = false ∧
  TokenBucketDoubles.consume emptied 60000%float
    = (true, {| TokenBucketDoubles.tokens := 0%float;
                TokenBucketDoubles.lastRefill := 60000%float |}) ∧
  TokenBucketDoubles.consume emptied 600000%float
    = (true, {| TokenBucketDoubles.tokens := 9%float;
                TokenBucketDoubles.lastRefill := 600000%float |}).
Proof. by vm_compute. Qed.

(** The handler's limiter with one bucket, emptied at time 0. *)
Definition emptied : t :=
  with_buckets rateLimiter {[ "203.0.113.7" := {| tokens := Qc_of_Z 0; lastRefill := 0%Z |} ]}.

Lemma consume_other_identity_witness :
  let rl1 := snd (consume emptied "203.0.113.7" 30000) in
  buckets rl1 !! "198.51.100.9" = buckets emptied !! "198.51.100.9" ∧
  getRemainingTokens rl1 "198.51.100.9" 45000
    = getRemainingTokens emptied "198.51.100.9" 45000 ∧
  fst (consume rl1 "198.51.100.9" 45000) = fst (consume emptied "198.51.100.9" 45000) ∧
  buckets (snd (consume rl1 "198.51.100.9" 45000))
    = buckets (snd (consume (snd (consume emptied "198.51.100.9" 45000))
                      "203.0.113.7" 30000)).
Proof.
  by apply (consume_other_identity emptied "203.0.113.7" "198.51.100.9" 30000 45000).
Defined.

Lemma tokens_stay_in_range_witness :
  let rl := snd (consume_calls (new 10 600000)
                   [("203.0.113.7", 0%Z); ("198.51.100.9", 5%Z); ("203.0.113.7", 5%Z)]) in
  (∀ ip b, buckets rl !! ip = Some b → 0 ≤ tokens b ∧ tokens b ≤ Qc_of_Z 10) ∧
  (∀ ip now,
     Forall (λ call : string * Z, (call.2 ≤ now)%Z)
       [("203.0.113.7", 0%Z); ("198.51.100.9", 5%Z); ("203.0.113.7", 5%Z)] →
     0 ≤ getRemainingTokens rl ip now ∧ getRemainingTokens rl ip now ≤ Qc_of_Z 10).
Proof.
  apply (tokens_stay_in_range 10 600000
           [("203.0.113.7", 0%Z); ("198.51.100.9", 5%Z); ("203.0.113.7", 5%Z)]).
  - lia.
  - lia.
  - cbn. repeat constructor; lia.
Defined.

Lemma one_token_a_minute_witness :
  fst (consume emptied "203.0.113.7" 59999) = false ∧
  fst (consume emptied "203.0.113.7" 60000) = true.
Proof.
  unfold emptied. split.
  - by destruct (one_token_a_minute
                   {[ "203.0.113.7" := {| tokens := Qc_of_Z 0; lastRefill := 0%Z |} ]}
                   "203.0.113.7" 0 0 59999 (lookup_singleton_eq _ _)) as [-> _].
  - by destruct (one_token_a_minute
                   {[ "203.0.113.7" := {| tokens := Qc_of_Z 0; lastRefill := 0%Z |} ]}
                   "203.0.113.7" 0 0 60000 (lookup_singleton_eq _ _)) as [-> _].
Defined.

End RateLimiterFacts.

(* ===================================================================== *)
(** * The response cache: reading back, and small capacities *)
(* ===================================================================== *)

Module LRUCacheFacts.
Import LRUCache.

Section cache_properties.
Context {K V : Type} `{EqDecision K}.
Implicit Types (c : t K V) (key : K) (v : V) (now : Z).

Lemma get_app_absent (m : JsMap.t K (Item V)) key (item : Item V) :
  key ∉ JsMap.keys m → JsMap.get (m ++ [(key, item)]) key = Some item.
Proof.
  induction m as [|[k0 i0] m IH]; cbn.
  - intros _. by rewrite decide_True.
  - rewrite not_elem_of_cons. intros [Hne Hm]. rewrite decide_False by done. auto.
Qed.

(** What [set] leaves in the map: the new entry, last, behind entries of
    other keys. *)
Lemma set_stores c key v now :
  ∃ m, cache (set c key v now) = m ++ [(key, {| value := v; timestamp := now |})] ∧
       (key ∉ JsMap.keys m) ∧ ttl (set c key v now) = ttl c ∧
       capacity (set c key v now) = capacity c.
Proof.
  rewrite set_spec. cbn zeta. eexists. split; [reflexivity|]. split; [|done].
  destruct (_ >=? _); [|apply JsMap.not_elem_of_keys_delete].
  destruct (JsMap.first_key _); [|apply JsMap.not_elem_of_keys_delete].
  rewrite !JsMap.elem_of_keys_delete. naive_solver.
Qed.

(** X5.  What [set] stores can be read back until it expires.  A [get] of
    the key that was [set] at the reading [t] returns the value at every
    reading [t'] with [t' - t] at most the time to live, whatever the cache
    held before and whatever its capacity; past the time to live it returns
    nothing and removes the entry. *)
Theorem set_then_get c key v (t t' : Z) :
  (t' - t ≤ ttl c → fst (get (set c key v t) key t') = Some v) ∧
  (t' - t > ttl c →
     fst (get (set c key v t) key t') = None ∧
     JsMap.get (cache (snd (get (set c key v t) key t'))) key = None).
Proof.
  destruct (set_stores c key v t) as (m & Hc & Hm & Httl & _).
  unfold get. rewrite Hc, get_app_absent, Httl by done. cbn [timestamp value].
  split; intros Ht.
  - by destruct (Z.gtb_spec (t' - t) (ttl c)); [lia|].
  - destruct (Z.gtb_spec (t' - t) (ttl c)); [|lia]. split; [done|].
    cbn [snd cache with_cache]. apply JsMap.get_delete_eq.
Qed.

(** X6.  A cache created with a capacity of 1 or less (0 or a negative
    number included) holds at most one entry after any operations, and
    after a [set] it holds exactly the entry that was set: a cache of
    capacity 0 still stores one entry. *)
Theorem small_capacity_holds_last_entry (cap ttlHours : Z) (ops : list (op K V)) :
  cap ≤ 1 →
  let c := run (new cap ttlHours) ops in
  size c ≤ 1 ∧
  ∀ key v now, cache (set c key v now) = [(key, {| value := v; timestamp := now |})].
Proof.
  intros Hcap.
  assert (∀ c key v now, capacity c ≤ 1 → (length (cache c) ≤ 1)%nat →
            cache (set c key v now) = [(key, {| value := v; timestamp := now |})])
    as Hset.
  { intros c key v now Hc Hlen. rewrite set_spec. cbn zeta. cbn [cache with_cache].
    pose proof (JsMap.length_delete_le key (cache c)) as Hd.
    destruct (JsMap.delete key (cache c)) as [|[k0 i0] [|e m]] eqn:Hm;
      cbn [length] in Hd; [|idtac|lia].
    - by destruct (_ >=? _).
    - unfold JsMap.size. cbn [length].
      destruct (Z.geb_spec (Z.of_nat 1) (capacity c)); [|lia].
      cbn. by rewrite decide_True. }
  assert (∀ ops c, capacity c ≤ 1 → (length (cache c) ≤ 1)%nat →
            capacity (run c ops) ≤ 1 ∧ (length (cache (run c ops)) ≤ 1)%nat) as Hrun.
  { clear ops. induction ops as [|o ops IH]; intros c Hc Hlen; [done|].
    change (run c (o :: ops)) with (run (step c o) ops).
    apply IH; [by rewrite capacity_step|].
    destruct o as [key now|key v now|]; cbn [step]; [|by rewrite Hset|done].
    unfold get. destruct (JsMap.get (cache c) key) as [item|] eqn:Hg; [|done].
    pose proof (JsMap.length_delete_lt key (cache c) (JsMap.get_Some_keys _ _ _ Hg)).
    destruct (_ >? _); cbn [snd cache with_cache]; [lia|].
    pose proof (JsMap.length_set_le key item (JsMap.delete key (cache c))). lia. }
  intros c. destruct (Hrun ops (new cap ttlHours)) as [Hc Hlen]; [done|cbn; lia|].
  fold c in Hc, Hlen. split.
  - unfold size, JsMap.size. lia.
  - intros key v now. by apply Hset.
Qed.

End cache_properties.

Lemma small_capacity_holds_last_entry_witness :
  let c := run (new 0 6) [OpSet "a" 1%nat 0; OpSet "b" 2%nat 5] in
  size c ≤ 1 ∧
  ∀ key v now, cache (set c key v now) = [(key, {| value := v; timestamp := now |})].
Proof.
  apply (small_capacity_holds_last_entry (K:=string) (V:=nat) 0 6). lia.
Defined.

End LRUCacheFacts.

(* ===================================================================== *)
(** * The answer contract: what validation guarantees *)
(* ===================================================================== *)

(** Properties of [AnswerSchema], [validateAnswer], [safeParseAnswer] and
    [clampAnswer] of [lib/answerSchema.ts]. *)

Module AnswerSchemaFacts.
Import JsString AnswerSchema.

Section with_URL.
Variable URL_hostname : string → option string.

(** ** What a validated answer is known to satisfy *)

Definition Step_valid (s : Step.t) : Prop :=
  Step.title s ≠ "" ∧ Step.detail s ≠ "" ∧ Step.os s ≠ [] ∧
  (∀ q, Step.est_minutes s = Some q → (0 < q)%Qc).

Definition DecisionTree_valid (dt : DecisionTree.t) : Prop :=
  DecisionTree.if_ dt ≠ "" ∧ DecisionTree.then_ dt ≠ "" ∧
  (∀ q, DecisionTree.link_step dt = Some q →
        (0 < q)%Qc ∧ ∃ n : Z, q = Qc_of_Z n).

Definition Diagram_valid (d : Diagram.t) : Prop :=
  Diagram.caption d ≠ "" ∧ Diagram.svg d ≠ "" ∧
  startsWith "<svg" (trim (Diagram.svg d)) = true.

Definition Citation_valid (c : Citation.t) : Prop :=
  is_Some (URL_hostname (Citation.url c)) ∧ Citation.title c ≠ "" ∧
  (String.length (Citation.quote c) ≤ 180)%nat.

Definition Answer_valid (a : Answer) : Prop :=
  answer_title a ≠ "" ∧ one_paragraph_summary a ≠ "" ∧
  steps a ≠ [] ∧ Forall Step_valid (steps a) ∧
  Forall DecisionTree_valid (decision_tree a) ∧
  Forall Diagram_valid (diagrams a) ∧
  (2 ≤ length (citations a) ≤ 5)%nat ∧ Forall Citation_valid (citations a).

Lemma nonempty_ne s : nonempty s = true ↔ s ≠ "".
Proof. unfold nonempty. by destruct s. Qed.

Lemma length_ge_1 {A} (l : list A) : (1 <=? length l)%nat = true ↔ l ≠ [].
Proof. by destruct l. Qed.

Lemma int_None q : Zod.int q = None ↔ ∃ n : Z, q = Qc_of_Z n.
Proof.
  unfold Zod.int. case_decide as Hden; split; try done.
  - intros _. exists (Qnum (this q)). apply Qc_is_canon.
    destruct q as [[n d] Hq]. cbn in *. subst d. unfold Qc_of_Z. cbn. reflexivity.
  - intros [n ->]. destruct Hden. reflexivity.
Qed.

Lemma positive_None q : Zod.positive q = None ↔ (0 < q)%Qc.
Proof. unfold Zod.positive. by case_decide. Qed.

Lemma Step_ok_valid s : Step_ok s = true ↔ Step_valid s.
Proof.
  unfold Step_ok, Step_valid.
  rewrite !andb_true_iff, !nonempty_ne, length_ge_1.
  destruct (Step.est_minutes s) as [q|].
  - rewrite number_ok_Some, Forall_singleton, positive_None. naive_solver.
  - cbn. naive_solver.
Qed.

Lemma DecisionTree_ok_valid dt : DecisionTree_ok dt = true ↔ DecisionTree_valid dt.
Proof.
  unfold DecisionTree_ok, DecisionTree_valid.
  rewrite !andb_true_iff, !nonempty_ne.
  destruct (DecisionTree.link_step dt) as [q|].
  - rewrite number_ok_Some, Forall_cons, Forall_singleton, positive_None, int_None.
    naive_solver.
  - cbn. naive_solver.
Qed.

Lemma Diagram_ok_valid d : Diagram_ok d = true ↔ Diagram_valid d.
Proof.
  unfold Diagram_ok, Diagram_valid. rewrite !andb_true_iff, !nonempty_ne. tauto.
Qed.

Lemma Citation_ok_valid c : Citation_ok URL_hostname c = true ↔ Citation_valid c.
Proof.
  unfold Citation_ok, Citation_valid, URL_ok.
  rewrite !andb_true_iff, !nonempty_ne, bool_decide_eq_true, Nat.leb_le. tauto.
Qed.

Lemma forallb_Forall {A} (f : A → bool) (P : A → Prop) (l : list A) :
  (∀ x, f x = true ↔ P x) → forallb f l = true ↔ Forall P l.
Proof.
  intros Hf. induction l as [|x l IH]; cbn; [by split; [constructor|]|].
  by rewrite andb_true_iff, Forall_cons, Hf, IH.
Qed.

Lemma Answer_ok_valid a : Answer_ok URL_hostname a = true ↔ Answer_valid a.
Proof.
  unfold Answer_ok, Answer_valid.
  rewrite !andb_true_iff, !nonempty_ne, length_ge_1, !Nat.leb_le.
  rewrite (forallb_Forall _ _ _ Step_ok_valid).
  rewrite (forallb_Forall _ _ _ DecisionTree_ok_valid).
  rewrite (forallb_Forall _ _ _ Diagram_ok_valid).
  rewrite (forallb_Forall _ _ _ Citation_ok_valid).
  tauto.
Qed.

Lemma parsed_Answer_valid data a :
  safeParseAnswer URL_hostname data = Zod.Success a → Answer_valid a.
Proof. intros Hparse. by apply Answer_ok_valid, (Answer_parse_ok URL_hostname data). Qed.

Lemma Answer_valid_validates a :
  Answer_valid a →
  safeParseAnswer URL_hostname (Answer_toJs a) = Zod.Success a ∧
  validateAnswer URL_hostname (Answer_toJs a) = inr a.
Proof.
  intros Ha%Answer_ok_valid.
  pose proof (Answer_toJs_parse URL_hostname a Ha) as Hparse.
  split; [done|]. unfold validateAnswer.
  by rewrite (Hparse : AnswerSchema URL_hostname [] (Answer_toJs a) = Zod.Success a).
Qed.

(** X7.  What validation guarantees, and that it asks for no more.  Every
    answer [safeParseAnswer] accepts has a title and a summary that are not
    empty; at least one step, each with a title, a detail and at least one
    operating system, and a duration above 0 when it has one; decision-tree
    entries with both texts, and a whole step number above 0 when they have
    one; diagrams with a caption and a text that starts with [<svg] once
    trimmed; and 2 to 5 citations, each with a URL that parses, a title and
    a quote of at most 180 characters.  Conversely every answer with these
    properties, written as an object, is accepted by [safeParseAnswer] and
    by [validateAnswer] and comes back unchanged; so an answer that was
    accepted is accepted again. *)
Theorem validated_answer_meets_contract :
  (∀ data a, safeParseAnswer URL_hostname data = Zod.Success a → Answer_valid a) ∧
  (∀ a, Answer_valid a →
        safeParseAnswer URL_hostname (Answer_toJs a) = Zod.Success a ∧
        validateAnswer URL_hostname (Answer_toJs a) = inr a) ∧
  (∀ data a, safeParseAnswer URL_hostname data = Zod.Success a →
             validateAnswer URL_hostname (Answer_toJs a) = inr a).
Proof.
  split; [apply parsed_Answer_valid|]. split; [apply Answer_valid_validates|].
  intros data a Hparse. by apply Answer_valid_validates, (parsed_Answer_valid data).
Qed.

(** ** Keys that are absent, keys that are not declared *)

Ltac eval_fields :=
  lazy -[Zod.string_ Zod.array Zod.optional Zod.default_ Zod.number Zod.enum
         Zod.zap Zod.zmap Zod.min Zod.max Zod.refine Zod.url Zod.positive Zod.int
         StepSchema DecisionTreeSchema DiagramSchema CitationSchema
         Step_toJs DecisionTree_toJs Diagram_toJs Citation_toJs
         map opt_toJs strings_toJs app OS_members OS_name URL_ok
         startsWith trim].

(** The keys the schema declares. *)
Definition declared_keys : list string :=
  ["answer_title"; "one_paragraph_summary"; "prereqs"; "steps"; "decision_tree";
   "diagrams"; "citations"; "warnings"].

Lemma lookup_prop_app_ne k k' v props :
  k ≠ k' → Js.lookup_prop k' (props ++ [(k, v)]) = Js.lookup_prop k' props.
Proof.
  intros Hne. induction props as [|[k0 v0] props IH]; cbn.
  - by rewrite decide_False.
  - by rewrite IH.
Qed.

(** The object with the four keys that have no default. *)
Definition minimal (title summary : string) (steps : list Step.t)
    (citations : list Citation.t) : Js.value :=
  Js.Object
    [("answer_title", Js.Str title);
     ("one_paragraph_summary", Js.Str summary);
     ("steps", Js.Array (map Step_toJs steps));
     ("citations", Js.Array (map Citation_toJs citations))].

(** X8.  Keys left out, keys not declared, [null].  (1) An object with
    only [answer_title], [one_paragraph_summary], [steps] and [citations]
    is accepted when these are valid, and the answer gets empty [prereqs],
    [decision_tree], [diagrams] and [warnings].  (2) A key the schema does
    not declare, added to an object, does not change the result.  (3) An
    object with [null] under a declared key is never accepted, also when
    the key has a default. *)
Theorem absent_lists_default :
  (∀ title summary steps citations,
     let a := {| answer_title := title; one_paragraph_summary := summary;
                 prereqs := []; steps := steps; decision_tree := [];
                 diagrams := []; citations := citations; warnings := [] |} in
     Answer_valid a →
     safeParseAnswer URL_hostname (minimal title summary steps citations)
       = Zod.Success a) ∧
  (∀ props k v, k ∉ declared_keys →
     safeParseAnswer URL_hostname (Js.Object (props ++ [(k, v)]))
       = safeParseAnswer URL_hostname (Js.Object props)) ∧
  (∀ props k, k ∈ declared_keys → Js.lookup_prop k props = Js.Null →
     ∀ a, safeParseAnswer URL_hostname (Js.Object props) ≠ Zod.Success a).
Proof.
  split; [|split].
  - intros title summary steps citations a Ha%Answer_ok_valid.
    revert Ha. unfold Answer_ok.
    cbn [answer_title one_paragraph_summary AnswerSchema.prereqs AnswerSchema.steps
         decision_tree diagrams AnswerSchema.citations warnings a].
    rewrite !andb_true_iff.
    intros [[[[[[[[Ht Hs] Hst] Hn%Nat.leb_le] Hdt] Hdg] Hci] Hlo%Nat.leb_le] Hhi%Nat.leb_le].
    unfold safeParseAnswer, AnswerSchema, minimal. eval_fields.
    rewrite !string_min1_toJs by done.
    rewrite (Zod.array_map (StepSchema) Step_toJs);
      [|by eapply Forall_toJs_parse; [apply Step_toJs_parse|]
       |by intros m [= <-]|done].
    rewrite (Zod.array_map (CitationSchema URL_hostname) Citation_toJs);
      [|by eapply Forall_toJs_parse; [apply Citation_toJs_parse|]
       |by intros m [= <-]|by intros m [= <-]].
    done.
  - intros props k v Hk.
    unfold safeParseAnswer, AnswerSchema. cbn [Zod.object]. unfold Zod.field.
    rewrite !(lookup_prop_app_ne k) by (intros ->; apply Hk; set_solver).
    done.
  - intros props k Hk Hnull a. unfold safeParseAnswer, AnswerSchema. cbn [Zod.object].
    intros H.
    repeat match goal with
           | H : Zod.zap _ _ = Zod.Success _ |- _ =>
               apply Zod.zap_Success in H as (? & ? & H & ? & ->)
           | H : Zod.zmap _ _ = Zod.Success _ |- _ =>
               apply Zod.zmap_Success in H as (? & ? & ->)
           end.
    unfold Zod.field in *.
    repeat (apply elem_of_cons in Hk as [->|Hk]);
      [..|by apply elem_of_nil in Hk];
      rewrite Hnull in *;
      repeat match goal with
             | H : Zod.string_ _ _ Js.Null = _ |- _ => by apply Zod.string_Success in H as [? _]
             | H : Zod.default_ _ _ _ Js.Null = _ |- _ =>
                 apply Zod.default_Success in H as [[? _]|[_ H]]; [done|]
             | H : Zod.array _ _ _ _ Js.Null = _ |- _ =>
                 by apply Zod.array_Success in H as (? & ? & _)
             end.
Qed.

(** ** [clampAnswer] and validity *)

Lemma substring0_nonempty n s : s ≠ "" → substring0 (S n) s ≠ "".
Proof. by destruct s. Qed.

Lemma clampStep_valid s : Step_valid s → Step_valid (clampStep s).
Proof.
  intros (Ht & Hd & Hos & Hest). unfold Step_valid, clampStep. cbn.
  repeat split; try done; by apply substring0_nonempty.
Qed.

Lemma clampDecisionTree_valid dt :
  DecisionTree_valid dt → DecisionTree_valid (clampDecisionTree dt).
Proof.
  intros (Hi & Ht & Hl). unfold DecisionTree_valid, clampDecisionTree. cbn.
  split; [by apply substring0_nonempty|split; [by apply substring0_nonempty|done]].
Qed.

Lemma clampCitation_valid c : Citation_valid c → Citation_valid (clampCitation c).
Proof.
  intros (Hu & Ht & Hq). unfold Citation_valid, clampCitation. cbn.
  repeat split; [done|by apply substring0_nonempty|apply substring0_le].
Qed.

(** The [<svg] tag of the diagram survives the cut at 10000 characters. *)
Definition svg_tag_kept (d : Diagram.t) : Prop :=
  startsWith "<svg" (trim (substring0 10000 (Diagram.svg d))) = true.

Lemma clampDiagram_valid d :
  Diagram_valid d → svg_tag_kept d → Diagram_valid (clampDiagram d).
Proof.
  intros (Hc & Hs & _) Hkept. unfold Diagram_valid, clampDiagram. cbn.
  repeat split; [by apply substring0_nonempty..|done].
Qed.

(** X9.  [clampAnswer] keeps a valid answer valid as long as it does not
    cut into the [<svg] tag of a diagram: when every diagram, cut to its
    first 10000 characters, still starts with [<svg] once trimmed, the
    clamped answer is valid; this is so in particular when no diagram is
    longer than 10000 characters. *)
Theorem clampAnswer_keeps_valid (a : Answer) :
  Answer_valid a →
  (Forall svg_tag_kept (diagrams a) → Answer_valid (clampAnswer a)) ∧
  (Forall (λ d, (String.length (Diagram.svg d) ≤ 10000)%nat) (diagrams a) →
   Answer_valid (clampAnswer a)).
Proof.
  intros (Ht & Hs & Hne & Hsteps & Hdt & Hdg & Hlen & Hci).
  assert (Forall svg_tag_kept (diagrams a) → Answer_valid (clampAnswer a)) as Hkept.
  { intros Hkept. unfold Answer_valid, clampAnswer. cbn.
    rewrite !length_map. repeat split; try done; try lia.
    - by apply substring0_nonempty.
    - by apply substring0_nonempty.
    - by destruct (steps a).
    - apply Forall_fmap. eapply Forall_impl; [exact Hsteps|]. apply clampStep_valid.
    - apply Forall_fmap. eapply Forall_impl; [exact Hdt|]. apply clampDecisionTree_valid.
    - apply Forall_fmap. apply Forall_forall. intros d Hd.
      rewrite Forall_forall in Hdg, Hkept. apply clampDiagram_valid; auto.
    - apply Forall_fmap. eapply Forall_impl; [exact Hci|]. apply clampCitation_valid. }
  split; [done|]. intros Hshort. apply Hkept.
  apply Forall_forall. intros d Hd. rewrite Forall_forall in Hdg, Hshort.
  destruct (Hdg d Hd) as (_ & _ & Htag). unfold svg_tag_kept.
  by rewrite substring0_id by auto.
Qed.

End with_URL.

Lemma clampAnswer_keeps_valid_witness :
  Answer_valid URL.hostname (clampAnswer LLM.same_domain_answer).
Proof.
  destruct (clampAnswer_keeps_valid URL.hostname LLM.same_domain_answer) as [_ Hshort].
  - apply Answer_ok_valid. by vm_compute.
  - apply Hshort. constructor.
Defined.

End AnswerSchemaFacts.

(* ===================================================================== *)
(** * The orchestrator: tool replies, returned answers, the repair *)
(* ===================================================================== *)

(** Properties of [answerIssue] of [lib/llm.ts] and of the parts it is
    made of. *)

Module LLMFacts.
Import JsString AnswerSchema LLM.

(** ** The text between the delimiters *)

Lemma from_first_Some c s t :
  from_first c s = Some t ↔
  ∃ pre rest, s = (pre ++ String c rest)%string ∧
              (c ∉ list_ascii_of_string pre) ∧ t = String c rest.
Proof.
  revert t. induction s as [|x s IH]; intros t; cbn [from_first].
  - split; [done|]. intros (pre & rest & Hs & _). by destruct pre.
  - case_decide as Hx.
    + subst x. split.
      * intros [= <-]. exists EmptyString, s. split; [done|]. split; [|done].
        apply not_elem_of_nil.
      * intros (pre & rest & Hs & Hpre & ->). destruct pre as [|y pre].
        -- by injection Hs as <-.
        -- injection Hs as <- _. cbn in Hpre. by apply not_elem_of_cons in Hpre as [? _].
    + rewrite IH. split.
      * intros (pre & rest & -> & Hpre & ->). exists (String x pre), rest.
        split; [done|]. split; [|done]. cbn. by apply not_elem_of_cons.
      * intros (pre & rest & Hs & Hpre & ->). destruct pre as [|y pre].
        -- by injection Hs as ->.
        -- injection Hs as <- ->. exists pre, rest. split; [done|]. split; [|done].
           cbn in Hpre. by apply not_elem_of_cons in Hpre as [_ ?].
Qed.

Lemma through_last_None c s :
  through_last c s = None ↔ c ∉ list_ascii_of_string s.
Proof.
  induction s as [|x s IH]; cbn [through_last list_ascii_of_string].
  - split; [intros _; apply not_elem_of_nil|done].
  - rewrite not_elem_of_cons. destruct (through_last c s) as [t|].
    + split; [done|]. intros [_ Hs]. by apply IH in Hs.
    + case_decide as Hx; [subst x|]; split; try done.
      * by intros [? _].
      * intros _. split; [done|]. by apply IH.
Qed.

Lemma through_last_Some c s t :
  through_last c s = Some t ↔
  ∃ body post, s = (body ++ String c post)%string ∧
               (c ∉ list_ascii_of_string post) ∧ t = (body ++ String c "")%string.
Proof.
  revert t. induction s as [|x s IH]; intros t; cbn [through_last].
  - split; [done|]. intros (body & post & Hs & _). by destruct body.
  - destruct (through_last c s) as [t'|] eqn:Ht'.
    + split.
      * intros [= <-]. destruct (proj1 (IH t') eq_refl) as (body & post & -> & Hpost & ->).
        by exists (String x body), post.
      * intros (body & post & Hs & Hpost & ->).
        destruct body as [|y body].
        -- injection Hs as <- <-. apply through_last_None in Hpost. congruence.
        -- injection Hs as <- ->.
           assert (Some t' = Some (body ++ String c "")%string) as [= ->]; [|done].
           apply IH. by exists body, post.
    + apply through_last_None in Ht'. case_decide as Hx; [subst x|]; split; try done.
      * intros [= <-]. by exists EmptyString, s.
      * intros (body & post & Hs & Hpost & ->). destruct body as [|y body].
        -- by injection Hs as <-.
        -- injection Hs as <- ->. destruct Ht'.
           clear. induction body as [|z body IH]; cbn; apply elem_of_cons; auto.
      * intros (body & post & Hs & Hpost & ->). destruct body as [|y body].
        -- by injection Hs as ->.
        -- injection Hs as <- ->. destruct Ht'.
           clear. induction body as [|z body IH]; cbn; apply elem_of_cons; auto.
Qed.

(** X10.  The text between delimiters, as [/\{[\s\S]*\}/] and
    [/\[[\s\S]*\]/] match it.  A text is found exactly when the string
    has an opening character with a closing character somewhere after it;
    the text then runs from the first opening character of the string to
    its last closing character, with all that lies between them. *)
Theorem match_delimited_spec (opening closing : ascii) (s t : string) :
  match_delimited opening closing s = Some t ↔
  ∃ pre body post,
    s = (pre ++ String opening (body ++ String closing post))%string ∧
    (opening ∉ list_ascii_of_string pre) ∧
    (closing ∉ list_ascii_of_string post) ∧
    t = String opening (body ++ String closing "")%string.
Proof.
  unfold match_delimited. split.
  - destruct (from_first opening s) as [[|x rest]|] eqn:Hfirst; [done| |done].
    apply from_first_Some in Hfirst as (pre & rest' & -> & Hpre & [= -> ->]).
    destruct (through_last closing rest') as [t'|] eqn:Hlast; [|done].
    apply through_last_Some in Hlast as (body & post & -> & Hpost & ->).
    intros [= <-]. by exists pre, body, post.
  - intros (pre & body & post & -> & Hpre & Hpost & ->).
    rewrite (proj2 (from_first_Some opening _ _))
      by (by exists pre, (body ++ String closing post)%string).
    lazy beta iota.
    by rewrite (proj2 (through_last_Some closing _ _)) by (by exists body, post).
Qed.

(** ** The replies to tool calls *)

(** [message.tool_call_id] of a tool message. *)
Definition tool_call_id_of (m : Message) : option string :=
  match m with tool tool_call_id _ => Some tool_call_id | _ => None end.

(** The names [toolFunctions] maps to a tool. *)
Definition tool_names : list string := ["search_web"; "fetch_page"; "make_svg_diagram"].

(** A call of type function that names one of the three tools. *)
Definition names_tool (call : ToolCall) : Prop :=
  type call = "function" ∧ ∃ f, function_ call = Some f ∧ name f ∈ tool_names.

Lemma run_tool_known w f : name f ∈ tool_names → is_Some (run_tool w f).
Proof.
  intros Hname. unfold run_tool.
  destruct (JSON_parse w (arguments f)); [|done].
  repeat (case_decide; [done|]).
  exfalso. repeat (apply elem_of_cons in Hname as [?|Hname]; [done|]).
  by apply elem_of_nil in Hname.
Qed.

(** X11.  The replies to a round of tool calls.  Every message the loop
    over [tool_calls] produces is a tool message; the [tool_call_id]s of
    the messages are ids of the calls, in the order of the calls, no call
    being answered twice; when every call is of type function and names one
    of the three tools, every call is answered, in order.  A call that
    names no tool (and no property an object literal inherits), with
    arguments that parse, gets no reply. *)
Theorem dispatch_answers_tool_calls (w : World) (calls : list ToolCall) :
  Forall (λ m, is_Some (tool_call_id_of m)) (dispatch w calls) ∧
  omap tool_call_id_of (dispatch w calls) `sublist_of` map id calls ∧
  (Forall names_tool calls →
     omap tool_call_id_of (dispatch w calls) = map id calls) ∧
  (∀ call f, function_ call = Some f →
     name f ∉ tool_names → name f ∉ Object_prototype_names →
     is_Some (JSON_parse w (arguments f)) →
     dispatch w [call] = []).
Proof.
  unfold dispatch. split; [|split; [|split]].
  - induction calls as [|call calls IH]; cbn [omap list_omap]; [constructor|].
    case_decide; [|done].
    destruct (function_ call) as [f|]; [|done]. cbn.
    destruct (run_tool w f); [|done]. cbn. by constructor.
  - induction calls as [|call calls IH]; cbn [omap list_omap map]; [constructor|].
    case_decide; [|by constructor].
    destruct (function_ call) as [f|]; [|by constructor]. cbn.
    destruct (run_tool w f); cbn; by constructor.
  - induction 1 as [|call calls (Htype & f & Hf & Hname) _ IH]; cbn [omap list_omap map];
      [done|].
    rewrite decide_True, Hf by done. cbn.
    destruct (run_tool_known w f Hname) as [content ->]. cbn. by rewrite IH.
  - intros call f Hf Hname Hproto [parsedArgs Hargs]. cbn [omap list_omap]. rewrite Hf.
    case_decide; [|done]. cbn.
    assert (run_tool w f = None) as ->; [|done].
    unfold run_tool. rewrite Hargs.
    rewrite !decide_False, bool_decide_eq_false_2; [done|done|..];
      intros Heq; apply Hname; rewrite Heq; set_solver.
Qed.

(** ** What the orchestrator returns *)

(** X12.  An answer that [answerIssue] returns meets the contract.
    Whatever the model, the tools and the parser do, a returned answer
    satisfies every constraint of the schema (as in X7), an answer is
    returned only when an API key is configured, and [validateAnswer]
    accepts the returned answer again, unchanged. *)
Theorem answerIssue_returns_valid (w : World) (fuel : nat) (issue : string)
    (os device : option string) (a : Answer) :
  answerIssue w fuel issue os device = Some (Returns a) →
  AnswerSchemaFacts.Answer_valid (URL_hostname w) a ∧
  truthy (OPENAI_API_KEY w) = true ∧
  validateAnswer (URL_hostname w) (Answer_toJs a) = inr a.
Proof.
  unfold answerIssue, answerIssue_rounds.
  destruct (truthy (OPENAI_API_KEY w)); [|done]. cbn [negb].
  destruct (while_loop w fuel _) as [[rounds [e|st]]|]; [done| |done].
  cbn. intros [= Hreturns].
  assert (∃ data, safeParseAnswer (URL_hostname w) data = Zod.Success a) as [data Hdata].
  { unfold after_loop in Hreturns.
    destruct (decide _); [done|].
    destruct (parse_response w _) as [|parsedResponse]; [done|].
    destruct (clamp_and_validate w parsedResponse) as [|a0]; [done|].
    unfold after_validation in Hreturns.
    destruct (citation_repair w a0) as [|v]; [done|].
    unfold validateAnswer in Hreturns. exists v. unfold safeParseAnswer.
    destruct (AnswerSchema (URL_hostname w) [] v); by inversion Hreturns. }
  pose proof (AnswerSchemaFacts.parsed_Answer_valid _ _ _ Hdata) as Hvalid.
  split; [done|]. split; [done|]. by apply AnswerSchemaFacts.Answer_valid_validates.
Qed.

(** ** What [clampAnswer] demands of the parsed reply *)

Definition string_keys : list string := ["answer_title"; "one_paragraph_summary"].
Definition list_keys : list string :=
  ["prereqs"; "steps"; "decision_tree"; "diagrams"; "citations"; "warnings"].

Lemma clampAnswer_js_Some v clamped :
  clampAnswer_js v = Some clamped →
  ∃ props, v = Js.Object props ∧
    (∀ k, k ∈ string_keys → ∃ s, Js.lookup_prop k props = Js.Str s) ∧
    (∀ k, k ∈ list_keys → ∃ l, Js.lookup_prop k props = Js.Array l).
Proof.
  unfold clampAnswer_js. intros H.
  repeat match type of H with
         | (?m ≫= _) = Some _ =>
             let E := fresh "E" in
             destruct m eqn:E; [cbn [mbind option_bind] in H|discriminate H]
         end.
  destruct v as [| | | | | |props]; try done. exists props. split; [done|].
  cbn [Js.get mbind option_bind] in *.
  split; intros k Hk;
    repeat (apply elem_of_cons in Hk as [->|Hk]);
    try (by apply elem_of_nil in Hk);
    match goal with
    | E : _ (Js.lookup_prop ?k props) = Some _ |- ∃ _, Js.lookup_prop ?k props = _ =>
        destruct (Js.lookup_prop k props); try done; eauto
    end.
Qed.

(** X13.  What [clampAnswer] demands of the parsed reply, before the
    schema is reached.  Unless the reply is an object with strings under
    [answer_title] and [one_paragraph_summary] and arrays under the six
    list keys, [clampAnswer] throws.  So a reply that leaves out a key the
    schema declares, or has [null] under it, fails there, also when the
    schema has a default for the key. *)
Theorem reply_without_declared_key_fails (w : World) :
  (∀ v, clamp_and_validate w v ≠ inl ClampTypeError →
     ∃ props, v = Js.Object props ∧
       (∀ k, k ∈ string_keys → ∃ s, Js.lookup_prop k props = Js.Str s) ∧
       (∀ k, k ∈ list_keys → ∃ l, Js.lookup_prop k props = Js.Array l)) ∧
  (∀ props k, k ∈ AnswerSchemaFacts.declared_keys →
     Js.lookup_prop k props = Js.Undefined ∨ Js.lookup_prop k props = Js.Null →
     clamp_and_validate w (Js.Object props) = inl ClampTypeError).
Proof.
  split.
  - intros v Hv. unfold clamp_and_validate in Hv.
    destruct (clampAnswer_js v) as [clamped|] eqn:Hclamp; [|done].
    by eapply clampAnswer_js_Some.
  - intros props k Hk Hlookup. unfold clamp_and_validate.
    destruct (clampAnswer_js (Js.Object props)) as [clamped|] eqn:Hclamp; [|done].
    apply clampAnswer_js_Some in Hclamp as (props' & [= <-] & Hstr & Hlist).
    exfalso.
    assert (k ∈ string_keys ∨ k ∈ list_keys) as [Hin|Hin].
    { unfold AnswerSchemaFacts.declared_keys, string_keys, list_keys in *. set_solver. }
    + destruct (Hstr k Hin) as [s Hs]. rewrite Hs in Hlookup. by destruct Hlookup.
    + destruct (Hlist k Hin) as [l Hl]. rewrite Hl in Hlookup. by destruct Hlookup.
Qed.

(** ** The strings of a reply that passed [clampAnswer] and validation *)

(** A string that [substring(0, n)] returned. *)
Definition cut_to (n : nat) (v : Js.value) : Prop :=
  ∃ s, v = Js.Str (substring0 n s).

(** An array of such strings. *)
Definition strings_cut_to (n : nat) (v : Js.value) : Prop :=
  ∃ l, v = Js.Array l ∧ Forall (cut_to n) l.

Lemma substring0_cut n v v' : Js.substring0 n v = Some v' → cut_to n v'.
Proof. destruct v; try done. intros [= <-]. by eexists. Qed.

Lemma array_map_Forall (f : Js.value → option Js.value) (P : Js.value → Prop) v v' :
  (∀ x y, f x = Some y → P y) →
  Js.array_map f v = Some v' → ∃ l', v' = Js.Array l' ∧ Forall P l'.
Proof.
  intros Hf (l & l' & -> & -> & HF)%Js.array_map_Some. exists l'. split; [done|].
  induction HF; constructor; eauto.
Qed.

Lemma array_map_cut n v v' :
  Js.array_map (Js.substring0 n) v = Some v' → strings_cut_to n v'.
Proof. apply array_map_Forall, substring0_cut. Qed.

Ltac bind_inv H :=
  repeat match type of H with
         | (?m ≫= _) = Some _ =>
             let E := fresh "E" in
             destruct m eqn:E; [cbn [mbind option_bind] in H|discriminate H]
         end.

Ltac get_inv :=
  repeat match goal with
         | E : Js.get (Js.Object _) _ ≫= _ = Some _ |- _ =>
             cbn [Js.get mbind option_bind] in E
         end.

Ltac lookup_updated :=
  cbn [fold_left];
  repeat first [ rewrite Js.lookup_set_prop_eq
               | rewrite Js.lookup_set_prop_ne by done ].

(** What [clampAnswer] returns for a step, a decision, a diagram and a
    citation. *)
Definition step_cut (y : Js.value) : Prop :=
  ∃ props, y = Js.Object props ∧
    cut_to 150 (Js.lookup_prop "title" props) ∧
    cut_to 800 (Js.lookup_prop "detail" props) ∧
    (Js.lookup_prop "shell" props = Js.Undefined ∨
     strings_cut_to 200 (Js.lookup_prop "shell" props)).

Definition decision_cut (y : Js.value) : Prop :=
  ∃ props, y = Js.Object props ∧
    cut_to 200 (Js.lookup_prop "if" props) ∧
    cut_to 300 (Js.lookup_prop "then" props).

Definition diagram_cut (y : Js.value) : Prop :=
  ∃ props, y = Js.Object props ∧
    cut_to 200 (Js.lookup_prop "caption" props) ∧
    cut_to 10000 (Js.lookup_prop "svg" props).

Definition citation_cut (y : Js.value) : Prop :=
  ∃ props, y = Js.Object props ∧
    cut_to 200 (Js.lookup_prop "title" props) ∧
    cut_to 180 (Js.lookup_prop "quote" props).

Lemma clampStep_js_cut x y : clampStep_js x = Some y → step_cut y.
Proof.
  unfold clampStep_js. intros H. bind_inv H.
  destruct x as [| | | | | |props]; try done. injection H as <-. get_inv.
  eexists. split; [done|]. lookup_updated.
  split; [by eapply substring0_cut|]. split; [by eapply substring0_cut|].
  destruct (Js.lookup_prop "shell" props); cbn in *;
    try (left; congruence); try done.
  right. by eapply (array_map_cut 200 (Js.Array _)).
Qed.

Lemma clampDecisionTree_js_cut x y : clampDecisionTree_js x = Some y → decision_cut y.
Proof.
  unfold clampDecisionTree_js. intros H. bind_inv H.
  destruct x as [| | | | | |props]; try done. injection H as <-. get_inv.
  eexists. split; [done|]. lookup_updated.
  split; by eapply substring0_cut.
Qed.

Lemma clampDiagram_js_cut x y : clampDiagram_js x = Some y → diagram_cut y.
Proof.
  unfold clampDiagram_js. intros H. bind_inv H.
  destruct x as [| | | | | |props]; try done. injection H as <-. get_inv.
  eexists. split; [done|]. lookup_updated.
  split; by eapply substring0_cut.
Qed.

Lemma clampCitation_js_cut x y : clampCitation_js x = Some y → citation_cut y.
Proof.
  unfold clampCitation_js. intros H. bind_inv H.
  destruct x as [| | | | | |props]; try done. injection H as <-. get_inv.
  eexists. split; [done|]. lookup_updated.
  split; by eapply substring0_cut.
Qed.

Definition answer_cut (y : Js.value) : Prop :=
  ∃ props, y = Js.Object props ∧
    cut_to 200 (Js.lookup_prop "answer_title" props) ∧
    cut_to 1000 (Js.lookup_prop "one_paragraph_summary" props) ∧
    strings_cut_to 300 (Js.lookup_prop "prereqs" props) ∧
    (∃ l, Js.lookup_prop "steps" props = Js.Array l ∧ Forall step_cut l) ∧
    (∃ l, Js.lookup_prop "decision_tree" props = Js.Array l ∧ Forall decision_cut l) ∧
    (∃ l, Js.lookup_prop "diagrams" props = Js.Array l ∧ Forall diagram_cut l) ∧
    (∃ l, Js.lookup_prop "citations" props = Js.Array l ∧ Forall citation_cut l) ∧
    strings_cut_to 300 (Js.lookup_prop "warnings" props).

Lemma clampAnswer_js_cut x y : clampAnswer_js x = Some y → answer_cut y.
Proof.
  unfold clampAnswer_js. intros H. bind_inv H.
  destruct x as [| | | | | |props]; try done. injection H as <-. get_inv.
  eexists. split; [done|]. lookup_updated.
  split; [by eapply substring0_cut|]. split; [by eapply substring0_cut|].
  split; [by eapply array_map_cut|].
  split; [by eapply array_map_Forall; [apply clampStep_js_cut|]|].
  split; [by eapply array_map_Forall; [apply clampDecisionTree_js_cut|]|].
  split; [by eapply array_map_Forall; [apply clampDiagram_js_cut|]|].
  split; [by eapply array_map_Forall; [apply clampCitation_js_cut|]|].
  by eapply array_map_cut.
Qed.

Section bounds.
Variable URL_hostname : string → option string.

Ltac zinv :=
  repeat match goal with
         | H : Zod.zap _ _ = Zod.Success _ |- _ =>
             apply Zod.zap_Success in H as (? & ? & H & ? & ->)
         | H : Zod.zmap _ _ = Zod.Success _ |- _ =>
             apply Zod.zmap_Success in H as (? & ? & ->)
         | H : Zod.field _ _ _ _ = Zod.Success _ |- _ => unfold Zod.field in H
         end.

Lemma string_cut_within n checks p v s :
  Zod.string_ checks p v = Zod.Success s → cut_to n v → (String.length s ≤ n)%nat.
Proof.
  intros [-> _]%Zod.string_Success [s0 [= ->]]. apply substring0_le.
Qed.

Lemma array_parse_Forall {A} (elem : Zod.Schema A) (P : Js.value → Prop) (Q : A → Prop)
    lo hi p v data :
  (∀ p v a, elem p v = Zod.Success a → P v → Q a) →
  Zod.array elem lo hi p v = Zod.Success data →
  (∃ l, v = Js.Array l ∧ Forall P l) → Forall Q data.
Proof.
  intros Helem (l & -> & _ & _ & [HF _]%Zod.items_Success)%Zod.array_Success
    (l' & [= <-] & HP).
  induction HF as [|x a l data (j & Hj) _ IH]; [constructor|].
  apply Forall_cons in HP as [Hx HP]. constructor; eauto.
Qed.

Lemma default_array_parse_Forall {A} (elem : Zod.Schema A) (P : Js.value → Prop)
    (Q : A → Prop) p v data :
  (∀ p v a, elem p v = Zod.Success a → P v → Q a) →
  Zod.default_ (Zod.array elem None None) [] p v = Zod.Success data →
  (∃ l, v = Js.Array l ∧ Forall P l) → Forall Q data.
Proof.
  intros Helem [[_ ->]|[_ H]]%Zod.default_Success HP; [constructor|].
  by eapply array_parse_Forall.
Qed.

Lemma strings_parse_cut n lo hi p v data :
  Zod.array (Zod.string_ []) lo hi p v = Zod.Success data →
  strings_cut_to n v → strings_within n data.
Proof.
  intros H Hcut. eapply array_parse_Forall; [|exact H|exact Hcut].
  intros p' v' s. apply string_cut_within.
Qed.

Lemma Step_parse_within p y s :
  StepSchema p y = Zod.Success s → step_cut y → Step_within s.
Proof.
  intros Hparse (props & -> & Ht & Hd & Hshell).
  cbn [StepSchema Zod.object] in Hparse. zinv.
  unfold Step_within. cbn [Step.title Step.detail Step.shell].
  split; [by eapply string_cut_within|]. split; [by eapply string_cut_within|].
  intros shell ->.
  match goal with
  | H : Zod.optional _ _ (Js.lookup_prop "shell" _) = _ |- _ =>
      apply Zod.optional_Success in H as [[_ [=]]|(Hne & l & H & [= <-])]
  end.
  destruct Hshell as [?|Hshell]; [done|]. by eapply strings_parse_cut.
Qed.

Lemma DecisionTree_parse_within p y dt :
  DecisionTreeSchema p y = Zod.Success dt → decision_cut y → DecisionTree_within dt.
Proof.
  intros Hparse (props & -> & Hi & Ht).
  cbn [DecisionTreeSchema Zod.object] in Hparse. zinv.
  split; by eapply string_cut_within.
Qed.

Lemma Diagram_parse_within p y d :
  DiagramSchema p y = Zod.Success d → diagram_cut y → Diagram_within d.
Proof.
  intros Hparse (props & -> & Hc & Hs).
  cbn [DiagramSchema Zod.object] in Hparse. zinv.
  split; by eapply string_cut_within.
Qed.

Lemma Citation_parse_within p y c :
  CitationSchema URL_hostname p y = Zod.Success c → citation_cut y → Citation_within c.
Proof.
  intros Hparse (props & -> & Ht & Hq).
  cbn [CitationSchema Zod.object] in Hparse. zinv.
  split; by eapply string_cut_within.
Qed.

Lemma Answer_parse_within y a :
  safeParseAnswer URL_hostname y = Zod.Success a → answer_cut y → within_bounds a.
Proof.
  intros Hparse (props & -> & Ht & Hs & Hpre & Hst & Hdt & Hdg & Hci & Hw).
  unfold safeParseAnswer in Hparse. cbn [AnswerSchema Zod.object] in Hparse. zinv.
  unfold within_bounds.
  cbn [answer_title one_paragraph_summary prereqs steps decision_tree diagrams
       citations warnings].
  split; [by eapply string_cut_within|]. split; [by eapply string_cut_within|].
  split.
  { eapply (default_array_parse_Forall (Zod.string_ []) (cut_to 300)); [|done..].
    intros p' v' s'. apply string_cut_within. }
  split; [by eapply array_parse_Forall; [apply Step_parse_within|..]|].
  split; [by eapply default_array_parse_Forall; [apply DecisionTree_parse_within|..]|].
  split; [by eapply default_array_parse_Forall; [apply Diagram_parse_within|..]|].
  split; [by eapply array_parse_Forall; [apply Citation_parse_within|..]|].
  eapply (default_array_parse_Forall (Zod.string_ []) (cut_to 300)); [|done..].
  intros p' v' s'. apply string_cut_within.
Qed.

(** ** The answer after a repair *)

(** [a] with other citations. *)
Definition set_citations (a : Answer) (cs : list Citation.t) : Answer :=
  {| answer_title := answer_title a;
     one_paragraph_summary := one_paragraph_summary a;
     prereqs := prereqs a; steps := steps a; decision_tree := decision_tree a;
     diagrams := diagrams a; citations := cs; warnings := warnings a |}.

Lemma set_citations_parse props news a data :
  AnswerSchema URL_hostname [] (Js.Object props) = Zod.Success a →
  AnswerSchema URL_hostname []
    (Js.Object (Js.set_prop "citations" (Js.Array news) props)) = Zod.Success data →
  ∃ cs, Zod.array (CitationSchema URL_hostname) (Some 2%nat) (Some 5%nat)
          [Zod.Key "citations"] (Js.Array news) = Zod.Success cs ∧
        data = set_citations a cs.
Proof.
  cbn [AnswerSchema Zod.object]. intros Ha Hdata.
  unfold Zod.field in *.
  rewrite Js.lookup_set_prop_eq in Hdata.
  rewrite !Js.lookup_set_prop_ne in Hdata by done.
  zinv.
  repeat match goal with
         | H1 : ?x = Zod.Success ?a1, H2 : ?x = Zod.Success ?a2 |- _ =>
             rewrite H1 in H2; injection H2 as <-
         end.
  eexists. split; [done|]. done.
Qed.

Lemma items_toJs_inv {A} (elem : Zod.Schema A) (toJs : A → Js.value) (l : list A) :
  Forall (λ a, ∀ p, elem p (toJs a) = Zod.Success a) l →
  ∀ data, Forall2 (λ v a, ∃ j : nat, elem ([Zod.Key "citations"] ++ [Zod.Idx j]) v
                                       = Zod.Success a) (map toJs l) data →
  data = l.
Proof.
  induction 1 as [|a l Ha _ IH]; intros data HF; cbn [map] in HF.
  - by apply Forall2_nil_inv_l in HF.
  - apply Forall2_cons_inv_l in HF as (a' & data' & (j & Hj) & HF & ->).
    rewrite Ha in Hj. injection Hj as <-. f_equal. by apply IH.
Qed.

End bounds.

(** X14.  A reply that passes [clampAnswer] and the first validation is
    within every length bound of [clampAnswer] and meets the contract; when
    its citations are from at least two distinct domains it is what
    [answerIssue] returns, unchanged and without a further request. *)
Theorem validated_reply_within_bounds (w : World) (v : Js.value) (a : Answer) :
  clamp_and_validate w v = inr a →
  within_bounds a ∧
  AnswerSchemaFacts.Answer_valid (URL_hostname w) a ∧
  (distinctDomainsOK (URL_hostname w) (citations a) = true →
   after_validation w a = Returns a).
Proof.
  unfold clamp_and_validate.
  destruct (clampAnswer_js v) as [clamped|] eqn:Hclamp; [|done].
  destruct (safeParseAnswer (URL_hostname w) clamped) as [data|] eqn:Hparse; [|done].
  intros [= ->].
  pose proof (AnswerSchemaFacts.parsed_Answer_valid _ _ _ Hparse) as Hvalid.
  split; [|split; [done|]].
  - eapply Answer_parse_within; [exact Hparse|]. by eapply clampAnswer_js_cut.
  - intros Hdistinct. unfold after_validation, citation_repair. rewrite Hdistinct.
    by destruct (AnswerSchemaFacts.Answer_valid_validates _ _ Hvalid) as [_ ->].
Qed.

(** X15.  What a repair that validates changes.  When the answer, with its
    first two citations followed by the first three of the additional ones
    in place of its citations, passes the schema, the validated answer
    differs from the original in its citations only; its first two
    citations are the original's first two (further citations of the
    original are dropped) and it has 2 citations plus one for each
    additional citation used, at most 3.  When the citations of the
    original are not from distinct domains and the reply to the repair
    request carries this array, this is the answer returned. *)
Theorem repair_keeps_first_two (w : World) (a data : Answer)
    (additionalCitations : list Js.value) :
  AnswerSchemaFacts.Answer_valid (URL_hostname w) a →
  safeParseAnswer (URL_hostname w)
    (with_citations a
       (firstn 5 (map Citation_toJs (firstn 2 (citations a))
                    ++ firstn 3 additionalCitations))) = Zod.Success data →
  data = set_citations a (citations data) ∧
  firstn 2 (citations data) = firstn 2 (citations a) ∧
  length (citations data) = (2 + Nat.min 3 (length additionalCitations))%nat ∧
  (∀ first_choice addendumContent text,
     distinctDomainsOK (URL_hostname w) (citations a) = false →
     create w (addendum_request w a) = completion first_choice →
     first_choice ≫= content = Some addendumContent →
     addendumContent ≠ "" →
     match_delimited "[" "]" addendumContent = Some text →
     JSON_parse w text = Some (Js.Array additionalCitations) →
     after_validation w a = Returns data).
Proof.
  intros Hvalid Hdata.
  pose proof Hvalid as (_ & _ & _ & _ & _ & _ & [Hlo _] & Hcit).
  destruct (AnswerSchemaFacts.Answer_valid_validates _ _ Hvalid) as [Ha _].
  set (first2 := firstn 2 (citations a)) in *.
  assert (length first2 = 2%nat) as Hlen2 by (unfold first2; rewrite length_firstn; lia).
  assert (firstn 5 (map Citation_toJs first2 ++ firstn 3 additionalCitations)
          = map Citation_toJs first2 ++ firstn 3 additionalCitations) as Hnews.
  { apply firstn_all2. rewrite length_app, length_map, length_firstn. lia. }
  rewrite Hnews in Hdata.
  unfold safeParseAnswer, with_citations, Answer_toJs in Ha, Hdata.
  destruct (set_citations_parse _ _ _ _ _ Ha Hdata) as (cs & Hcs & ->).
  cbn [citations set_citations].
  apply Zod.array_Success in Hcs as (l & [= <-] & _ & _ & Hitems).
  pose proof (Zod.items_length _ _ _ _ _ Hitems) as Hlen.
  apply Zod.items_Success in Hitems as [HF _].
  apply Forall2_app_inv_l in HF as (cs1 & cs2 & HF1 & HF2 & ->).
  apply (items_toJs_inv (CitationSchema (URL_hostname w)) Citation_toJs) in HF1.
  2:{ apply Forall_forall. intros c Hc p. apply Citation_toJs_parse.
      apply AnswerSchemaFacts.Citation_ok_valid.
      rewrite Forall_forall in Hcit. apply Hcit.
      unfold first2 in Hc. apply elem_of_take in Hc as (i & Hi & _).
      by eapply list_elem_of_lookup_2. }
  subst cs1.
  split; [done|]. split; [by rewrite firstn_app, Hlen2, Nat.sub_diag, firstn_all2, app_nil_r by lia|].
  split.
  { rewrite Hlen, length_app, length_map, length_firstn. lia. }
  intros first_choice addendumContent text Hdistinct Hcreate Hcontent Hne Htext Hparse.
  unfold after_validation, citation_repair. rewrite Hdistinct, Hcreate, Hcontent.
  destruct addendumContent as [|c0 rest]; [done|].
  unfold apply_addendum. rewrite Htext, Hparse. fold first2. rewrite Hnews.
  unfold safeParseAnswer, with_citations, Answer_toJs. rewrite Hdata.
  pose proof (AnswerSchemaFacts.parsed_Answer_valid _ _ _ Hdata) as Hvalid'.
  destruct (AnswerSchemaFacts.Answer_valid_validates _ _ Hvalid') as [_ Hfinal].
  unfold Answer_toJs in Hfinal. by rewrite Hfinal.
Qed.

(** The answer [helpful_world] ends with: [same_domain_answer] and the
    citation from another domain. *)
Definition repaired_answer : Answer :=
  set_citations same_domain_answer (citations same_domain_answer ++ [other_citation]).

Lemma answerIssue_returns_valid_witness :
  AnswerSchemaFacts.Answer_valid URL.hostname repaired_answer ∧
  validateAnswer URL.hostname (Answer_toJs repaired_answer) = inr repaired_answer.
Proof.
  destruct (answerIssue_returns_valid helpful_world 4 "My WiFi keeps dropping"
              (Some "Windows") None repaired_answer) as (Hvalid & _ & Hagain).
  - by vm_compute.
  - by split.
Defined.

Lemma validated_reply_within_bounds_witness :
  within_bounds same_domain_answer ∧
  AnswerSchemaFacts.Answer_valid URL.hostname same_domain_answer.
Proof.
  destruct (validated_reply_within_bounds prose_world (Answer_toJs same_domain_answer)
              same_domain_answer) as (Hbounds & Hvalid & _).
  - by vm_compute.
  - by split.
Defined.

Lemma repair_keeps_first_two_witness :
  firstn 2 (citations repaired_answer) = firstn 2 (citations same_domain_answer) ∧
  length (citations repaired_answer) = 3%nat ∧
  after_validation helpful_world same_domain_answer = Returns repaired_answer.
Proof.
  destruct (repair_keeps_first_two helpful_world same_domain_answer repaired_answer
              [Citation_toJs other_citation]) as (_ & Hfirst & Hlen & Hreturns).
  - apply AnswerSchemaFacts.Answer_ok_valid. by vm_compute.
  - by vm_compute.
  - split; [exact Hfirst|]. split; [exact Hlen|].
    apply (Hreturns (Some {| content := Some "Sure: [citation]"; tool_calls := None |})
             "Sure: [citation]" "[citation]"); by vm_compute.
Defined.

End LLMFacts.

(* ===================================================================== *)
(** * The handler: the paths behind admission *)
(* ===================================================================== *)

(** Properties of [POST] of [app/api/answer/route.ts] and of
    [AnswerRequestSchema] of [lib/schemas.ts]. *)

Module RouteFacts.
Import AnswerSchema Route.

(** ** The request schema ([AnswerRequestSchema] of [lib/schemas.ts]) *)

Lemma enum_OS_Success p v o :
  Zod.enum OS_members p v = Zod.Success o ↔ v = Js.Str (OS_name o).
Proof.
  split; [|intros ->; apply OS_toJs_parse].
  destruct v as [| | | |s| |]; try done. unfold Zod.enum, OS_members.
  cbn [list_find fst snd].
  repeat (case_decide; [subst s; cbn; by intros [= <-]|]).
  done.
Qed.

(** X16.  What a request must carry.  [AnswerRequestSchema] accepts a
    value exactly when it is an object with a string that is not empty
    under [issue], the name of one of the six operating systems under [os]
    and a string that is not empty under [device]; the data are these three
    values, whatever else the object holds. *)
Theorem AnswerRequestSchema_accepts (v : Js.value) (data : AnswerRequest) :
  AnswerRequestSchema [] v = Zod.Success data ↔
  ∃ props, v = Js.Object props ∧
    Js.lookup_prop "issue" props = Js.Str (issue data) ∧
    issue data ≠ "" ∧
    Js.lookup_prop "os" props = Js.Str (OS_name (req_os data)) ∧
    Js.lookup_prop "device" props = Js.Str (req_device data) ∧
    req_device data ≠ "".
Proof.
  assert (∀ s, Forall (λ chk : Zod.Check string, chk s = None) [Zod.min 1] ↔ s ≠ "")
    as Hmin.
  { intros s. rewrite Forall_singleton. unfold Zod.min. by destruct s. }
  unfold AnswerRequestSchema. split.
  - destruct v as [| | | | | |props]; try done. cbn [Zod.object].
    intros H.
    apply Zod.zap_Success in H as (g & device & H & Hdevice & ->).
    apply Zod.zap_Success in H as (g' & os & H & Hos & ->).
    apply Zod.zmap_Success in H as (issue & Hissue & ->).
    unfold Zod.field in *.
    apply Zod.string_Success in Hissue as [Hissue ?%Hmin].
    apply Zod.string_Success in Hdevice as [Hdevice ?%Hmin].
    apply enum_OS_Success in Hos.
    exists props. by cbn.
  - intros (props & -> & Hissue & Hi & Hos & Hdevice & Hd). cbn [Zod.object].
    unfold Zod.field. rewrite Hissue, Hos, Hdevice.
    rewrite (proj2 (Zod.string_Success _ _ _ (issue data))) by (by rewrite Hmin).
    rewrite (proj2 (Zod.string_Success _ _ _ (req_device data))) by (by rewrite Hmin).
    rewrite (proj2 (enum_OS_Success _ _ _) eq_refl). by destruct data.
Qed.

(** ** The paths of [POST] behind admission *)

Section handler_properties.

Variable hashIP : string → string.
Variable JSON_stringify : Js.value → string.
Variable answerIssue : string → string → string → LLM.Outcome.

Implicit Types (clock : nat → Z) (st : State) (request : NextRequest).

(** [JSON.stringify({ issue, os, device })] *)
Definition cacheKey (data : AnswerRequest) : string :=
  JSON_stringify
    (Js.Object [("issue", Js.Str (issue data));
                ("os", Js.Str (OS_name (req_os data)));
                ("device", Js.Str (req_device data))]).

(** The limiter lets the request through. *)
Definition admitted clock st request : Prop :=
  fst (TokenBucketRateLimiter.consume (rateLimiter st) (clientIP request) (clock 1%nat))
    = true.

(** The calls a request that is served from the cache must not make. *)
Definition calls_orchestrator (ev : Event) : bool :=
  match ev with
  | answerIssue_called _ _ _ | cache_set_called _ => true
  | _ => false
  end.

(** X17.  A cached answer is served without the orchestrator.  For an
    admitted request whose data pass the schema and whose key (the JSON text
    of issue, os and device) has an entry in the cache that has not expired,
    the response has status 200, the cached answer, and the headers
    [X-Cache: HIT] and [X-Cache-Size]; the cache is the one [get] leaves;
    neither [answerIssue] nor [cache.set] is called; and the last call is
    the telemetry log, with [cacheHit] set and 0 sources. *)
Theorem cached_answer_served clock st request v data cached c :
  admitted clock st request →
  json request = Some v →
  AnswerRequestSchema [] v = Zod.Success data →
  LRUCache.get (cache st) (cacheKey data) (clock 2%nat) = (Some cached, c) →
  let result := POST hashIP JSON_stringify answerIssue clock st request in
  status result.1.1 = 200 ∧
  body result.1.1 = answer_body cached ∧
  headers result.1.1
    = [("X-Cache", text_header "HIT");
       ("X-Cache-Size", number_header (Qc_of_Z (LRUCache.size c)))] ∧
  cache result.1.2 = c ∧
  Forall (λ ev, calls_orchestrator ev = false) result.2 ∧
  (∃ log, last result.2 = Some (logTelemetry_called log) ∧
          cacheHit log = true ∧ sourcesCount log = 0).
Proof.
  unfold admitted, cacheKey. intros Hadm Hjson Hparse Hget. unfold POST.
  destruct (TokenBucketRateLimiter.consume _ _ _) as [ok rl]. cbn in Hadm. subst ok.
  cbn [negb]. rewrite Hjson, Hparse. cbn [cache]. rewrite Hget. cbn.
  repeat split; [by repeat constructor|]. eexists. by split.
Qed.

(** X18.  A payload that cannot be used is answered before the cache is
    read.  For an admitted request: when the body cannot be read as JSON the
    response has status 500 and the text 'Internal server error'; when the
    body does not pass the request schema the response has status 400, the
    text 'Invalid request data' and the issues the schema found.  In both
    cases the cache is left as it was, and behind admission the handler
    calls nothing but [request.json()] and the schema. *)
Theorem unusable_payload_rejected clock st request :
  admitted clock st request →
  let result := POST hashIP JSON_stringify answerIssue clock st request in
  (json request = None →
     status result.1.1 = 500 ∧
     body result.1.1 = internal_error "Internal server error") ∧
  (∀ v error, json request = Some v →
     AnswerRequestSchema [] v = Zod.Failure error →
     status result.1.1 = 400 ∧
     body result.1.1 = invalid_request "Invalid request data" error) ∧
  ((∀ v data, json request = Some v → AnswerRequestSchema [] v ≠ Zod.Success data) →
     cache result.1.2 = cache st ∧
     Forall (λ ev, behind_admission ev = true →
                   ev = request_json_called ∨ ev = schema_parse_called) result.2).
Proof.
  unfold admitted. intros Hadm. unfold POST.
  destruct (TokenBucketRateLimiter.consume _ _ _) as [ok rl]. cbn in Hadm. subst ok.
  cbn [negb]. split; [|split].
  - by intros ->.
  - intros v error -> Hparse. by rewrite Hparse.
  - intros Hbad. destruct (json request) as [v|]; [|cbn; split; [done|]].
    + specialize (Hbad v). destruct (AnswerRequestSchema [] v) as [data|error];
        [by destruct (Hbad data)|].
      cbn. split; [done|].
      repeat first [apply Forall_nil_2 | apply Forall_cons; split]; cbn; (done || auto).
    + repeat first [apply Forall_nil_2 | apply Forall_cons; split]; cbn; (done || auto).
Qed.

(** X19.  A failure of the orchestrator is answered with a fixed text and
    leaves nothing in the cache.  For an admitted request with valid data
    that the cache does not hold: when [answerIssue] returns no answer, the
    response has status 500, the text 'Internal server error' and no
    headers, whatever the orchestrator's error is; the cache has no entry
    under the key of the request, and [cache.set] is not called. *)
Theorem failed_answer_not_cached clock st request v data :
  admitted clock st request →
  json request = Some v →
  AnswerRequestSchema [] v = Zod.Success data →
  fst (LRUCache.get (cache st) (cacheKey data) (clock 2%nat)) = None →
  (∀ answer,
     answerIssue (issue data) (OS_name (req_os data)) (req_device data)
       ≠ LLM.Returns answer) →
  let result := POST hashIP JSON_stringify answerIssue clock st request in
  status result.1.1 = 500 ∧
  body result.1.1 = internal_error "Internal server error" ∧
  headers result.1.1 = [] ∧
  JsMap.get (LRUCache.cache (cache result.1.2)) (cacheKey data) = None ∧
  (∀ key, cache_set_called key ∉ result.2).
Proof.
  unfold admitted, cacheKey. intros Hadm Hjson Hparse Hget Hfail. unfold POST.
  destruct (TokenBucketRateLimiter.consume _ _ _) as [ok rl]. cbn in Hadm. subst ok.
  cbn [negb]. rewrite Hjson, Hparse. cbn [cache].
  destruct (LRUCache.get _ _ _) as [cachedResult c] eqn:Hc. cbn in Hget. subst cachedResult.
  assert (JsMap.get (LRUCache.cache c)
            (JSON_stringify
               (Js.Object [("issue", Js.Str (issue data));
                           ("os", Js.Str (OS_name (req_os data)));
                           ("device", Js.Str (req_device data))])) = None) as Hmiss.
  { unfold LRUCache.get in Hc.
    destruct (JsMap.get (LRUCache.cache (cache st)) _) as [item|] eqn:Hitem.
    - destruct (_ >? _); [|done]. injection Hc as <-. apply JsMap.get_delete_eq.
    - by injection Hc as <-. }
  destruct (answerIssue _ _ _) as [answer| |e] eqn:Hanswer; [by destruct (Hfail answer)|..];
    cbn; (repeat split; [done|]);
    intros key Hin;
    repeat (apply elem_of_cons in Hin as [?|Hin]; [done|]); by apply elem_of_nil in Hin.
Qed.



Definition is_consume (ev : Event) : bool :=
  match ev with consume_called _ => true | _ => false end.

(** X21.  One [consume] for each request, on every path.  Whatever the
    request is and whatever the handler answers, the limiter it leaves is
    the one [consume] returns for the identity of the client at the second
    clock reading: [consume] is called exactly once, the buckets of other
    identities are as they were, and the status is 429 exactly when that
    call was denied. *)
Theorem one_consume_per_request clock st request :
  let result := POST hashIP JSON_stringify answerIssue clock st request in
  let ip := clientIP request in
  rateLimiter result.1.2
    = snd (TokenBucketRateLimiter.consume (rateLimiter st) ip (clock 1%nat)) ∧
  (∀ ip', ip' ≠ ip →
     TokenBucketRateLimiter.buckets (rateLimiter result.1.2) !! ip'
       = TokenBucketRateLimiter.buckets (rateLimiter st) !! ip') ∧
  filter (λ ev, is_consume ev = true) result.2 = [consume_called ip] ∧
  (status result.1.1 = 429 ↔
   fst (TokenBucketRateLimiter.consume (rateLimiter st) ip (clock 1%nat)) = false).
Proof.
  intros result ip.
  assert (rateLimiter result.1.2
            = snd (TokenBucketRateLimiter.consume (rateLimiter st) ip (clock 1%nat)) ∧
          filter (λ ev, is_consume ev = true) result.2 = [consume_called ip] ∧
          (status result.1.1 = 429 ↔
           fst (TokenBucketRateLimiter.consume (rateLimiter st) ip (clock 1%nat)) = false))
    as (Hrl & Hev & Hst).
  { unfold result, POST. fold ip.
    destruct (TokenBucketRateLimiter.consume _ _ _) as [[] rl]; cbn [negb fst snd];
      [|by cbn].
    destruct (json request) as [v|]; [|by cbn].
    destruct (AnswerRequestSchema [] v) as [data|error]; [|by cbn].
    destruct (LRUCache.get _ _ _) as [[cached|] c]; [by cbn|].
    by destruct (answerIssue _ _ _). }
  split; [done|]. split; [|done].
  intros ip' Hne. rewrite Hrl, TokenBucketRateLimiter.consume_stores.
  cbn. by rewrite lookup_insert_ne.
Qed.

End handler_properties.

(** ** A handler to run *)

(** A stand-in for [JSON.stringify] on the key objects, on which it is
    injective as the real one is. *)
Definition stringify_key (v : Js.value) : string :=
  match v with
  | Js.Object [(_, Js.Str issue); (_, Js.Str os); (_, Js.Str device)] =>
      issue ++ "|" ++ os ++ "|" ++ device
  | _ => ""
  end.

Definition wifi_request : NextRequest :=
  {| x_forwarded_for := Some "203.0.113.7, 10.0.0.1";
     x_real_ip := None;
     json := Some (Js.Object [("issue", Js.Str "WiFi keeps dropping");
                              ("os", Js.Str "Windows");
                              ("device", Js.Str "laptop")]) |}.

Definition wifi_data : AnswerRequest :=
  {| issue := "WiFi keeps dropping"; req_os := Windows; req_device := "laptop" |}.

Definition fresh_state : State :=
  {| rateLimiter := TokenBucketRateLimiter.rateLimiter; cache := LRUCache.new 100 6 |}.

(** The state in which the answer to [wifi_request] was cached at time 0. *)
Definition warm_state : State :=
  {| rateLimiter := TokenBucketRateLimiter.rateLimiter;
     cache := LRUCache.set (LRUCache.new 100 6) (cacheKey stringify_key wifi_data)
                LLM.same_domain_answer 0 |}.

Definition always_answers (_ _ _ : string) : LLM.Outcome := LLM.Returns LLM.same_domain_answer.
Definition always_fails (_ _ _ : string) : LLM.Outcome := LLM.Unable LLM.NoResponse.

Lemma cached_answer_served_witness :
  let result :=
    POST (λ _, "00000000") stringify_key always_fails (λ _, 1000) warm_state wifi_request in
  status result.1.1 = 200 ∧ body result.1.1 = answer_body LLM.same_domain_answer.
Proof.
  intros result.
  destruct (cached_answer_served (λ _, "00000000") stringify_key always_fails (λ _, 1000)
              warm_state wifi_request
              (Js.Object [("issue", Js.Str "WiFi keeps dropping");
                          ("os", Js.Str "Windows");
                          ("device", Js.Str "laptop")])
              wifi_data LLM.same_domain_answer
              (snd (LRUCache.get (cache warm_state)
                      (cacheKey stringify_key wifi_data) 1000)))
    as (Hstatus & Hbody & _); [by vm_compute..|].
  by split.
Defined.

Lemma unusable_payload_rejected_witness :
  let result :=
    POST (λ _, "00000000") stringify_key always_answers (λ _, 1000) fresh_state
      {| x_forwarded_for := None; x_real_ip := Some "203.0.113.7";
         json := Some Js.Null |} in
  status result.1.1 = 400 ∧
  body result.1.1
    = invalid_request "Invalid request data"
        [{| Zod.code := Zod.invalid_type; Zod.path := [] |}].
Proof.
  intros result.
  destruct (unusable_payload_rejected (λ _, "00000000") stringify_key always_answers (λ _, 1000)
              fresh_state
              {| x_forwarded_for := None; x_real_ip := Some "203.0.113.7";
                 json := Some Js.Null |})
    as (_ & Hbad & _); [by vm_compute|].
  by apply (Hbad Js.Null).
Defined.

Lemma failed_answer_not_cached_witness :
  let result :=
    POST (λ _, "00000000") stringify_key always_fails (λ _, 1000) fresh_state wifi_request in
  status result.1.1 = 500 ∧
  body result.1.1 = internal_error "Internal server error".
Proof.
  intros result.
  destruct (failed_answer_not_cached (λ _, "00000000") stringify_key always_fails (λ _, 1000)
              fresh_state wifi_request
              (Js.Object [("issue", Js.Str "WiFi keeps dropping");
                          ("os", Js.Str "Windows");
                          ("device", Js.Str "laptop")])
              wifi_data)
    as (Hstatus & Hbody & _); [by vm_compute..|].
  by split.
Defined.


End RouteFacts.

(* ===================================================================== *)
(** * More string methods *)
(* ===================================================================== *)

(** [includes] and [endsWith], which [lib/runbooks.ts] and [lib/tools.ts]
    call, with their characterisations. *)

Module StringMethods.
Import JsString.

(** [s.includes(sub)] *)
Fixpoint includes (s sub : string) : bool :=
  String.prefix sub s ||
  match s with
  | EmptyString => false
  | String _ s' => includes s' sub
  end.

(** [s.endsWith(suffix)] *)
Fixpoint endsWith (s suffix : string) : bool :=
  bool_decide (s = suffix) ||
  match s with
  | EmptyString => false
  | String _ s' => endsWith s' suffix
  end.

(** Every character of [s] is white space. *)
Fixpoint blank (s : string) : bool :=
  match s with
  | EmptyString => true
  | String c s' => is_space c && blank s'
  end.

Lemma prefix_app (p s : string) : String.prefix p s = true ↔ ∃ r, s = (p ++ r)%string.
Proof.
  revert s. induction p as [|c p IH]; intros s.
  - split; [by exists s|by destruct s].
  - destruct s as [|d s]; cbn [String.prefix].
    + split; [done|]. by intros [r Hr].
    + destruct (Ascii.ascii_dec c d) as [->|Hne].
      * rewrite IH. split; intros [r Hr]; exists r.
        -- by rewrite Hr.
        -- by injection Hr.
      * split; [done|]. intros [r Hr]. injection Hr as <- _. done.
Qed.

Lemma includes_spec (s sub : string) :
  includes s sub = true ↔ ∃ a b, s = (a ++ sub ++ b)%string.
Proof.
  induction s as [|c s IH]; cbn [includes]; rewrite orb_true_iff, prefix_app.
  - split.
    + intros [[r Hr]|?]; [|done]. by exists EmptyString, r.
    + intros (a & b & Hs). left. destruct a; [|done]. by exists b.
  - rewrite IH. split.
    + intros [[r Hr]|(a & b & ->)]; [by exists EmptyString, r|].
      by exists (String c a), b.
    + intros (a & b & Hs). destruct a as [|d a].
      * left. by exists b.
      * right. injection Hs as _ ->. by exists a, b.
Qed.

Lemma append_assoc (a b c : string) : ((a ++ b) ++ c = a ++ (b ++ c))%string.
Proof.
  induction a as [|x a IH]; [done|].
  change (String x ((a ++ b) ++ c) = String x (a ++ (b ++ c)))%string. by rewrite IH.
Qed.

(** A text that holds [pre ++ sub] holds [sub]. *)
Lemma includes_suffix (s pre sub : string) :
  includes s (pre ++ sub) = true → includes s sub = true.
Proof.
  rewrite !includes_spec. intros (a & b & ->). exists (a ++ pre)%string, b.
  by rewrite !append_assoc.
Qed.

Lemma endsWith_spec (s suffix : string) :
  endsWith s suffix = true ↔ ∃ a, s = (a ++ suffix)%string.
Proof.
  induction s as [|c s IH]; cbn [endsWith]; rewrite orb_true_iff, bool_decide_eq_true.
  - split.
    + intros [<-|?]; [|done]. by exists EmptyString.
    + intros [a Ha]. left. by destruct a.
  - rewrite IH. split.
    + intros [<-|[a ->]]; [by exists EmptyString|]. by exists (String c a).
    + intros [a Ha]. destruct a as [|d a]; [by left|].
      right. injection Ha as _ ->. by exists a.
Qed.

Lemma toLowerCase_blank (s : string) : blank s = true → toLowerCase s = s.
Proof.
  induction s as [|c s IH]; [done|]. cbn [blank toLowerCase].
  rewrite andb_true_iff. intros [Hc Hs]. rewrite IH by done. f_equal.
  unfold lower_ascii, is_space in *.
  destruct (Nat.leb_spec 65 (nat_of_ascii c)); [|done].
  destruct (Nat.leb_spec (nat_of_ascii c) 90); [|done]. cbn.
  destruct (Nat.leb_spec 9 (nat_of_ascii c)), (Nat.leb_spec (nat_of_ascii c) 13),
    (Nat.eqb_spec (nat_of_ascii c) 32); cbn in Hc; try done; lia.
Qed.

Lemma trimStart_blank (s : string) : blank s = true → trimStart s = "".
Proof.
  induction s as [|c s IH]; [done|]. cbn [blank trimStart].
  rewrite andb_true_iff. intros [-> Hs]. auto.
Qed.

Lemma trim_blank (s : string) : blank s = true → trim s = "".
Proof. intros Hs. unfold trim. by rewrite trimStart_blank. Qed.

End StringMethods.

(* ===================================================================== *)
(** * The runbooks ([lib/runbooks.ts]) *)
(* ===================================================================== *)

Module Runbooks.
Import JsString StringMethods.

(** [interface RunbookHint] *)
Record RunbookHint := mkHint {
  issue : string;
  suggestedSteps : list string;
  diagramSpec : string;
  os : list string;
  estimatedTime : Z
}.

(** [COMMON_RUNBOOKS]: the entries of the object, in the order of its
    literal (the order [Object.entries] lists them in). *)
Definition COMMON_RUNBOOKS : list (string * RunbookHint) :=
  [("Windows 11 Wi-Fi won't connect",
    {| issue := "Windows 11 Wi-Fi won't connect";
       suggestedSteps :=
         ["Check Wi-Fi adapter status in Device Manager";
          "Run Windows Network Troubleshooter";
          "Reset network settings with netsh commands";
          "Check router/modem connectivity";
          "Update or rollback Wi-Fi drivers"];
       diagramSpec := "Wi-Fi Adapter -> Windows Network Stack -> Router -> Internet";
       os := ["Windows"];
       estimatedTime := 15 |});
   ("Printer offline (Windows/macOS)",
    {| issue := "Printer offline (Windows/macOS)";
       suggestedSteps :=
         ["Check printer power and USB/network connections";
          "Verify printer is set as default";
          "Clear print queue and restart spooler service";
          "Check printer status in system preferences";
          "Reinstall printer drivers if necessary"];
       diagramSpec := "Computer -> USB/Network -> Printer -> Power Supply";
       os := ["Windows"; "macOS"];
       estimatedTime := 10 |});
   ("Chrome hijacked by extension",
    {| issue := "Chrome hijacked by extension";
       suggestedSteps :=
         ["Open Chrome in Safe Mode (disable extensions)";
          "Review and remove suspicious extensions";
          "Reset Chrome settings to default";
          "Scan for malware with Windows Defender";
          "Check browser homepage and search engine settings"];
       diagramSpec := "Chrome Browser -> Extensions -> Malicious Code -> System";
       os := ["Windows"; "macOS"; "Linux"];
       estimatedTime := 20 |});
   ("Clear DNS cache (Windows/macOS)",
    {| issue := "Clear DNS cache (Windows/macOS)";
       suggestedSteps :=
         ["Open Command Prompt/Terminal as administrator";
          "Run DNS flush command (ipconfig /flushdns or sudo dscacheutil -flushcache)";
          "Restart DNS client service";
          "Test with nslookup or ping";
          "Restart network adapter if issues persist"];
       diagramSpec := "Computer -> DNS Cache -> DNS Server -> Internet";
       os := ["Windows"; "macOS"];
       estimatedTime := 5 |});
   ("Android Bluetooth not pairing",
    {| issue := "Android Bluetooth not pairing";
       suggestedSteps :=
         ["Toggle Bluetooth off and on";
          "Forget existing Bluetooth devices";
          "Clear Bluetooth cache in app settings";
          "Check device compatibility and distance";
          "Reset network settings if needed"];
       diagramSpec := "Android Device -> Bluetooth Radio -> Target Device -> Pairing";
       os := ["Android"];
       estimatedTime := 8 |})].

(** The test of the loop of [getRunbookHint] for one key. *)
Definition matches (normalizedIssue key : string) : bool :=
  includes normalizedIssue (toLowerCase key) ||
  includes (toLowerCase key) normalizedIssue.

(** [getRunbookHint(issueDescription)]: [None] is [undefined]. *)
Definition getRunbookHint (issueDescription : string) : option RunbookHint :=
  let normalizedIssue := trim (toLowerCase issueDescription) in
  snd <$> List.find (λ '(key, _), matches normalizedIssue key) COMMON_RUNBOOKS.

(** [getRunbookHintsByOS(os)] *)
Definition getRunbookHintsByOS (os_ : string) : list RunbookHint :=
  List.filter (λ runbook, bool_decide (os_ ∈ os runbook)) (map snd COMMON_RUNBOOKS).

(** [getAllRunbookKeys()] *)
Definition getAllRunbookKeys : list string := map fst COMMON_RUNBOOKS.

(** X22.  An empty description finds the first runbook.  For a description
    that is empty or all white space [getRunbookHint] returns the first
    entry of [COMMON_RUNBOOKS], the Wi-Fi runbook, and not [undefined]:
    every key includes the empty text. *)
Theorem blank_description_finds_first_runbook (issueDescription : string) :
  blank issueDescription = true →
  getRunbookHint issueDescription = snd <$> head COMMON_RUNBOOKS ∧
  issue <$> getRunbookHint issueDescription = Some "Windows 11 Wi-Fi won't connect".
Proof.
  intros Hblank. unfold getRunbookHint.
  rewrite toLowerCase_blank, trim_blank by done.
  split; reflexivity.
Qed.

Lemma blank_description_finds_first_runbook_witness :
  issue <$> getRunbookHint "   " = Some "Windows 11 Wi-Fi won't connect".
Proof. by apply (blank_description_finds_first_runbook "   "). Defined.

(** X23.  Every key finds its own runbook, in any letter case.  (1) A
    description that, in lower case and trimmed, is the lower case of a key
    of [COMMON_RUNBOOKS] gets the runbook of that key, whose [issue] is the
    key: no earlier key of the table holds it or is held by it.
    (2) Whatever [getRunbookHint] returns is a runbook of the table whose
    key holds the normalised description or is held by it.  (3) It returns
    [undefined] exactly when no key of [getAllRunbookKeys()] does so.
    (4) [getRunbookHintsByOS] returns the runbooks of the table that list
    the operating system, and no other. *)
Theorem runbook_keys_find_their_runbook :
  (∀ key runbook issueDescription,
     (key, runbook) ∈ COMMON_RUNBOOKS →
     trim (toLowerCase issueDescription) = toLowerCase key →
     getRunbookHint issueDescription = Some runbook ∧ issue runbook = key) ∧
  (∀ issueDescription runbook,
     getRunbookHint issueDescription = Some runbook →
     ∃ key, (key, runbook) ∈ COMMON_RUNBOOKS ∧
            matches (trim (toLowerCase issueDescription)) key = true) ∧
  (∀ issueDescription,
     getRunbookHint issueDescription = None ↔
     ∀ key, key ∈ getAllRunbookKeys →
            matches (trim (toLowerCase issueDescription)) key = false) ∧
  (∀ os_ runbook,
     runbook ∈ getRunbookHintsByOS os_ ↔
     (∃ key, (key, runbook) ∈ COMMON_RUNBOOKS) ∧ os_ ∈ os runbook).
Proof.
  split; [|split; [|split]].
  - intros key runbook issueDescription Hin Hnorm. unfold getRunbookHint.
    rewrite Hnorm.
    repeat (apply elem_of_cons in Hin as [[= -> ->]|Hin]; [by vm_compute|]).
    by apply elem_of_nil in Hin.
  - intros issueDescription runbook. unfold getRunbookHint.
    destruct (List.find _ _) as [[key r]|] eqn:Hfind; [|done]. intros [= <-].
    apply find_some in Hfind as [Hin Hm]. exists key. split; [|done].
    by apply list_elem_of_In.
  - intros issueDescription. unfold getRunbookHint, getAllRunbookKeys.
    destruct (List.find _ _) as [[key r]|] eqn:Hfind.
    + split; [done|]. intros Hnone.
      apply find_some in Hfind as [Hin Hm].
      rewrite Hnone in Hm; [done|]. apply list_elem_of_fmap. exists (key, r).
      split; [done|]. by apply list_elem_of_In.
    + split; [|done]. intros _ key Hkey.
      apply list_elem_of_fmap in Hkey as ([key' r] & -> & Hin).
      apply list_elem_of_In in Hin.
      by apply (find_none _ _ Hfind) in Hin.
  - intros os_ runbook. unfold getRunbookHintsByOS.
    rewrite list_elem_of_In, filter_In, bool_decide_eq_true, <-list_elem_of_In.
    rewrite list_elem_of_fmap. split.
    + intros [([key r] & -> & Hin) Hos]. split; [by exists key|done].
    + intros [[key Hin] Hos]. split; [by exists (key, runbook)|done].
Qed.

End Runbooks.

(* ===================================================================== *)
(** * The search tool ([search_web] of [lib/tools.ts]) *)
(* ===================================================================== *)

Module Search.
Import JsString StringMethods.

(** ** [shouldFilterUrl] *)

(** [junkPatterns]: each regular expression as the test it makes on a
    string in lower case.  [$] is the end of the string; [x?] is an
    optional [x]. *)
Definition junkPatterns : list (string → bool) :=
  [ (λ s, endsWith s ".pdf");                          (* /\.pdf$/i *)
    (λ s, endsWith s ".doc" || endsWith s ".docx");    (* /\.docx?$/i *)
    (λ s, endsWith s ".xls" || endsWith s ".xlsx");    (* /\.xlsx?$/i *)
    (λ s, endsWith s ".ppt" || endsWith s ".pptx");    (* /\.pptx?$/i *)
    (λ s, includes s "login");                         (* /login/i *)
    (λ s, includes s "signin");                        (* /signin/i *)
    (λ s, includes s "auth");                          (* /auth/i *)
    (λ s, includes s "admin");                         (* /admin/i *)
    (λ s, includes s "dashboard");                     (* /dashboard/i *)
    (λ s, includes s ".gov/login");                    (* /\.gov\/login/i *)
    (λ s, includes s ".edu/login");                    (* /\.edu\/login/i *)
    (λ s, includes s ".com/login") ].                  (* /\.com\/login/i *)

Definition explicitRequests : list string :=
  ["pdf"; "document"; "login"; "admin"; "dashboard";
   "government"; "education"; "official"].

(** [shouldFilterUrl(url, query)] *)
Definition shouldFilterUrl (url query : string) : bool :=
  let lowerUrl := toLowerCase url in
  let lowerQuery := toLowerCase query in
  let hasExplicitRequest := existsb (λ term, includes lowerQuery term) explicitRequests in
  if hasExplicitRequest then false
  else existsb (λ pattern, pattern lowerUrl) junkPatterns.

(** ** [search_web] *)

(** What [await fetch(...)] does: it rejects (a network error, or the abort
    after 10 seconds), or resolves to a response, of which the function
    reads [ok], [status] and the result of [json()] ([None] when that
    rejects). *)
Inductive FetchResult :=
| Rejects
| Response (ok : bool) (status : Z) (json : option Js.value).

Record World := mkWorld {
  (** [process.env.BRAVE_API_KEY] *)
  BRAVE_API_KEY : option string;
  (** [encodeURIComponent]; [None] when it throws [URIError] *)
  encodeURIComponent : string → option string;
  (** the text of a number in a template literal *)
  Number_toString : Z → string;
  fetch : string → FetchResult
}.

(** [{ title, url, snippet }] *)
Definition SearchResult (title url snippet : Js.value) : Js.value :=
  Js.Object [("title", title); ("url", url); ("snippet", snippet)].

(** [l.slice(0, end)] for an integer [end]: a negative one counts from the
    end of the list. *)
Definition slice0 {A} (end_ : Z) (l : list A) : list A :=
  if 0 <=? end_ then firstn (Z.to_nat end_) l
  else firstn (length l - Z.to_nat (- end_)) l.

(** [s.replace(/\s+/g, '-')] *)
Fixpoint dashes (s : string) : string :=
  match s with
  | EmptyString => EmptyString
  | String c s' =>
      if is_space c then
        match s' with
        | String c' _ => if is_space c' then dashes s' else String "-" (dashes s')
        | EmptyString => String "-" EmptyString
        end
      else String c (dashes s')
  end.

(** The results returned when no key is configured. *)
Definition mock_without_key (query : string) : list Js.value :=
  let slug := toLowerCase (dashes query) in
  [ SearchResult
      (Js.Str ("How to fix " ++ query ++ " - Tech Support Guide"))
      (Js.Str ("https://example.com/fix-" ++ slug))
      (Js.Str ("Comprehensive guide to resolve " ++ query
               ++ " issues on various operating systems."));
    SearchResult
      (Js.Str (query ++ " Troubleshooting Steps"))
      (Js.Str ("https://support.example.com/" ++ slug))
      (Js.Str ("Step-by-step troubleshooting for " ++ query ++ " problems."));
    SearchResult
      (Js.Str (query ++ " - Official Support Documentation"))
      (Js.Str ("https://docs.example.com/" ++ slug))
      (Js.Str ("Official documentation and support resources for " ++ query
               ++ " issues.")) ].

(** The results returned when the response is not OK. *)
Definition mock_api_error (w : World) (cleanQuery encodedQuery : string) (status : Z)
  : list Js.value :=
  [ SearchResult
      (Js.Str ("Search results for: " ++ cleanQuery))
      (Js.Str ("https://example.com/search-" ++ toLowerCase (dashes cleanQuery)))
      (Js.Str ("Search results for " ++ cleanQuery
               ++ ". Brave Search API returned error " ++ Number_toString w status ++ "."));
    SearchResult
      (Js.Str ("IT Support: " ++ cleanQuery))
      (Js.Str ("https://support.microsoft.com/search?query=" ++ encodedQuery))
      (Js.Str ("Microsoft Support documentation for " ++ cleanQuery
               ++ ". Check official Microsoft support resources."));
    SearchResult
      (Js.Str ("Apple Support: " ++ cleanQuery))
      (Js.Str ("https://support.apple.com/search?q=" ++ encodedQuery))
      (Js.Str ("Apple Support documentation for " ++ cleanQuery
               ++ ". Check official Apple support resources.")) ].

(** The result returned by the [catch] block. *)
Definition mock_on_error (query : string) : list Js.value :=
  [ SearchResult
      (Js.Str ("Search results for: " ++ query))
      (Js.Str ("https://example.com/search-" ++ toLowerCase (dashes query)))
      (Js.Str ("Search results for " ++ query ++ ". Please try again later.")) ].

(** [!v] *)
Definition falsy (v : Js.value) : bool :=
  match v with
  | Js.Undefined | Js.Null | Js.Bool false | Js.Str EmptyString => true
  | Js.Number q => bool_decide (q = 0%Qc)
  | _ => false
  end.

(** The callback of [filter]: [!shouldFilterUrl(result.url, query)]; [None]
    is the [TypeError] of reading [url] of [null] or of calling
    [toLowerCase] on what is not a string. *)
Definition keep (query : string) (result : Js.value) : option bool :=
  url ← Js.get result "url";
  match url with
  | Js.Str u => Some (negb (shouldFilterUrl u query))
  | _ => None
  end.

(** [l.filter(f)] for a callback that can throw. *)
Fixpoint filter_opt {A} (f : A → option bool) (l : list A) : option (list A) :=
  match l with
  | [] => Some []
  | x :: l' =>
      b ← f x;
      kept ← filter_opt f l';
      Some (if b : bool then x :: kept else kept)
  end.

(** The callback of [map]. *)
Definition pick (result : Js.value) : Js.value :=
  SearchResult (default Js.Undefined (Js.get result "title"))
               (default Js.Undefined (Js.get result "url"))
               (default Js.Undefined (Js.get result "description")).

(** The URL of the request. *)
Definition request_url (w : World) (encodedQuery : string) (topK : Z) : string :=
  "https://api.search.brave.com/res/v1/web/search?q=" ++ encodedQuery
    ++ "&count=" ++ Number_toString w (Z.min (topK * 2) 50).

(** The [try] block; [None] when it throws. *)
Definition search_web_try (w : World) (query : string) (topK : Z)
  : option (list Js.value) :=
  let cleanQuery := collapse_spaces (trim query) in
  encodedQuery ← encodeURIComponent w cleanQuery;
  match fetch w (request_url w encodedQuery topK) with
  | Rejects => None
  | Response ok status json =>
      if negb ok then Some (slice0 topK (mock_api_error w cleanQuery encodedQuery status))
      else
        data ← json;
        web ← Js.get data "web";
        match web with
        | Js.Undefined | Js.Null => Some []
        | _ =>
            results ← Js.get web "results";
            if falsy results then Some []
            else match results with
                 | Js.Array l =>
                     kept ← filter_opt (keep query) l;
                     Some (slice0 topK (map pick kept))
                 | _ => None   (* [filter] is not a function *)
                 end
        end
  end.

(** [search_web(query, topK)], for an integer [topK]. *)
Definition search_web (w : World) (query : string) (topK : Z) : list Js.value :=
  if negb (LLM.truthy (BRAVE_API_KEY w)) then slice0 topK (mock_without_key query)
  else
    match search_web_try w query topK with
    | Some results => results
    | None => slice0 topK (mock_on_error query)
    end.

(** ** Properties *)

Definition junk_suffixes : list string :=
  [".pdf"; ".doc"; ".docx"; ".xls"; ".xlsx"; ".ppt"; ".pptx"].
Definition junk_words : list string :=
  ["login"; "signin"; "auth"; "admin"; "dashboard"].

Lemma existsb_elem_of {A} (f : A → bool) (l : list A) :
  existsb f l = true ↔ ∃ x, x ∈ l ∧ f x = true.
Proof.
  rewrite existsb_exists. by setoid_rewrite list_elem_of_In.
Qed.

(** X24.  What [shouldFilterUrl] filters.  A URL is filtered exactly when
    the query, in lower case, holds none of the words [pdf], [document],
    [login], [admin], [dashboard], [government], [education] and
    [official], and the URL, in lower case, ends with one of [.pdf],
    [.doc], [.docx], [.xls], [.xlsx], [.ppt] and [.pptx] or holds one of
    [login], [signin], [auth], [admin] and [dashboard] anywhere.  The three
    patterns for [/login] after [.gov], [.edu] and [.com] add nothing to
    these. *)
Theorem shouldFilterUrl_spec (url query : string) :
  shouldFilterUrl url query = true ↔
  (∀ term, term ∈ explicitRequests → includes (toLowerCase query) term = false) ∧
  ((∃ suffix, suffix ∈ junk_suffixes ∧ endsWith (toLowerCase url) suffix = true) ∨
   (∃ word, word ∈ junk_words ∧ includes (toLowerCase url) word = true)).
Proof.
  unfold shouldFilterUrl. cbn zeta.
  destruct (existsb _ explicitRequests) eqn:Hexplicit.
  - split; [done|]. intros [Hnone _].
    apply existsb_elem_of in Hexplicit as (term & Hterm & Hin).
    by rewrite Hnone in Hin.
  - assert (∀ term, term ∈ explicitRequests →
                    includes (toLowerCase query) term = false) as Hnone.
    { intros term Hterm. destruct (includes _ term) eqn:Hin; [|done].
      assert (existsb (λ term, includes (toLowerCase query) term) explicitRequests = true)
        as Hsome by (apply existsb_elem_of; eauto).
      congruence. }
    set (lowerUrl := toLowerCase url).
    unfold junkPatterns. cbn [existsb]. rewrite !orb_true_iff. split.
    + intros H. split; [done|].
      repeat match type of H with
             | _ ∨ _ => destruct H as [H|H]
             end; try done;
        try (left; eexists; split; [|exact H]; unfold junk_suffixes; set_solver);
        try (right; eexists; split; [|exact H]; unfold junk_words; set_solver);
        right; exists "login"; (split; [unfold junk_words; set_solver|]).
      * by apply (includes_suffix _ ".gov/").
      * by apply (includes_suffix _ ".edu/").
      * by apply (includes_suffix _ ".com/").
    + intros [_ [(suffix & Hs & H)|(word & Hw & H)]].
      * unfold junk_suffixes in Hs.
        repeat (apply elem_of_cons in Hs as [->|Hs]; [tauto|]).
        by apply elem_of_nil in Hs.
      * unfold junk_words in Hw.
        repeat (apply elem_of_cons in Hw as [->|Hw]; [tauto|]).
        by apply elem_of_nil in Hw.
Qed.

Lemma length_slice0 {A} (end_ : Z) (l : list A) :
  0 ≤ end_ → Z.of_nat (length (slice0 end_ l)) ≤ end_.
Proof.
  intros Hend. unfold slice0. destruct (Z.leb_spec 0 end_); [|lia].
  rewrite length_firstn. lia.
Qed.

Lemma filter_opt_Some {A} (f : A → option bool) (l kept : list A) :
  filter_opt f l = Some kept →
  Forall (λ x, is_Some (f x)) l ∧
  kept = List.filter (λ x, bool_decide (f x = Some true)) l.
Proof.
  revert kept. induction l as [|x l IH]; intros kept; cbn [filter_opt List.filter].
  - intros [= <-]. by split.
  - destruct (f x) as [b|] eqn:Hx; [|done]. cbn [mbind option_bind].
    destruct (filter_opt f l) as [kept'|]; [|done]. cbn [mbind option_bind].
    intros [= <-]. destruct (IH kept' eq_refl) as [Hall ->].
    split; [by constructor|].
    destruct b; [by rewrite bool_decide_eq_true_2|by rewrite bool_decide_eq_false_2].
Qed.

Lemma filter_opt_is_Some {A} (f : A → option bool) (l : list A) :
  Forall (λ x, is_Some (f x)) l → is_Some (filter_opt f l).
Proof.
  induction 1 as [|x l [b Hx] _ [kept IH]]; cbn [filter_opt]; [done|].
  rewrite Hx, IH. by eexists.
Qed.

(** The entries of the response the function can handle: those with a
    string under [url]. *)
Definition has_url (result : Js.value) : Prop :=
  ∃ u, Js.get result "url" = Some (Js.Str u).

Lemma keep_is_Some query result : is_Some (keep query result) ↔ has_url result.
Proof.
  unfold keep, has_url. destruct (Js.get result "url") as [url|]; cbn.
  - destruct url; split; try (by intros [? [=]]); try (by intros [? ?]); by eauto.
  - split; [by intros [? ?]|by intros [? ?]].
Qed.

(** X25.  The number of results.  For a [topK] of at least 0, [search_web]
    returns at most [topK] results on every path: with or without a key,
    whatever the service answers, and when the request fails.  Without a
    key the results are the first [topK] of the three mock results, so
    there are [min(3, topK)] of them. *)
Theorem search_web_at_most_topK (w : World) (query : string) (topK : Z) :
  0 ≤ topK →
  Z.of_nat (length (search_web w query topK)) ≤ topK ∧
  (LLM.truthy (BRAVE_API_KEY w) = false →
     search_web w query topK = firstn (Z.to_nat topK) (mock_without_key query) ∧
     Z.of_nat (length (search_web w query topK)) = Z.min 3 topK).
Proof.
  intros HtopK. split.
  - unfold search_web. destruct (LLM.truthy _); cbn [negb]; [|by apply length_slice0].
    destruct (search_web_try w query topK) as [results|] eqn:Htry;
      [|by apply length_slice0].
    unfold search_web_try in Htry.
    destruct (encodeURIComponent w _) as [encodedQuery|]; [|done].
    cbn [mbind option_bind] in Htry.
    destruct (fetch w _) as [|[] status json]; [done| |]; cbn [negb] in Htry.
    + destruct json as [data|]; [|done]. cbn [mbind option_bind] in Htry.
      destruct (Js.get data "web") as [web|]; [|done]. cbn [mbind option_bind] in Htry.
      assert (results = [] ∨
              ∃ kept : list Js.value, results = slice0 topK (map pick kept)) as [->|[kept ->]].
      { destruct web; try (left; congruence);
          (destruct (Js.get _ "results") as [r|]; [|done]);
          cbn [mbind option_bind] in Htry;
          (destruct (falsy r); [left; congruence|]);
          (destruct r; try done);
          (destruct (filter_opt _ _) as [kept|]; [|done]);
          right; exists kept; cbn in Htry; congruence. }
      * cbn. lia.
      * by apply length_slice0.
    + injection Htry as <-. by apply length_slice0.
  - intros Hkey. unfold search_web. rewrite Hkey. cbn [negb]. unfold slice0.
    destruct (Z.leb_spec 0 topK); [|lia]. split; [done|].
    rewrite length_firstn. cbn [mock_without_key length]. lia.
Qed.

(** X26.  What comes back from the search service.  With a key, when the
    service answers OK with a body whose [web.results] is an array: if
    every entry has a string under [url], the results are the first [topK]
    of the entries that [shouldFilterUrl] lets through, in the order of the
    service, each reduced to [title], [url] and [snippet] (the
    [description] of the entry), and every result has a URL that the filter
    lets through; if some entry has no string under [url], the results are
    the mock result of the [catch] block. *)
Theorem search_web_filters_results (w : World) (query : string) (topK : Z)
    (encodedQuery : string) (status : Z) (data web : Js.value) (l : list Js.value) :
  LLM.truthy (BRAVE_API_KEY w) = true →
  encodeURIComponent w (collapse_spaces (trim query)) = Some encodedQuery →
  fetch w (request_url w encodedQuery topK) = Response true status (Some data) →
  Js.get data "web" = Some web →
  Js.get web "results" = Some (Js.Array l) →
  (Forall has_url l →
     search_web w query topK
       = slice0 topK
           (map pick (List.filter (λ r, bool_decide (keep query r = Some true)) l)) ∧
     Forall (λ r, ∃ u, Js.get r "url" = Some (Js.Str u) ∧
                       shouldFilterUrl u query = false)
            (search_web w query topK)) ∧
  (¬ Forall has_url l → search_web w query topK = slice0 topK (mock_on_error query)).
Proof.
  intros Hkey Hencode Hfetch Hweb Hresults.
  assert (search_web w query topK
          = match filter_opt (keep query) l with
            | Some kept => slice0 topK (map pick kept)
            | None => slice0 topK (mock_on_error query)
            end) as Hsearch.
  { unfold search_web, search_web_try. rewrite Hkey, Hencode.
    cbn [negb mbind option_bind]. rewrite Hfetch. cbn [negb mbind option_bind].
    rewrite Hweb. cbn [mbind option_bind].
    destruct web; try done; rewrite Hresults; cbn [mbind option_bind falsy];
      by destruct (filter_opt _ _). }
  split.
  - intros Hall.
    destruct (filter_opt_is_Some (keep query) l) as [kept Hkept].
    { eapply Forall_impl; [exact Hall|]. intros r. apply keep_is_Some. }
    rewrite Hsearch, Hkept.
    apply filter_opt_Some in Hkept as [_ ->]. split; [done|].
    unfold slice0.
    assert (Forall (λ r, ∃ u, Js.get r "url" = Some (Js.Str u) ∧
                              shouldFilterUrl u query = false)
              (map pick (List.filter (λ r, bool_decide (keep query r = Some true)) l)))
      as Hpicked.
    { apply Forall_fmap, Forall_forall. intros r Hr.
      apply list_elem_of_In, filter_In in Hr as [_ Hr%bool_decide_eq_true].
      unfold keep in Hr. destruct (Js.get r "url") as [url|] eqn:Hurl; [|done].
      cbn in Hr. destruct url as [| | | |u| |]; try done.
      injection Hr as Hr%negb_true_iff.
      exists u. split; [|done]. unfold pick, SearchResult. rewrite Hurl. cbn.
      by rewrite decide_False, decide_True. }
    destruct (0 <=? topK); by apply Forall_take.
  - intros Hnot. rewrite Hsearch.
    destruct (filter_opt (keep query) l) as [kept|] eqn:Hkept; [|done].
    destruct Hnot. apply filter_opt_Some in Hkept as [Hall _].
    eapply Forall_impl; [exact Hall|]. intros r. apply keep_is_Some.
Qed.

(** A response of the search service with a sign-in page among the
    results. *)
Definition wifi_results : list Js.value :=
  [ Js.Object [("title", Js.Str "Sign in"); ("url", Js.Str "https://example.com/login");
               ("description", Js.Str "Sign in to your account")];
    Js.Object [("title", Js.Str "Fix Wi-Fi");
               ("url", Js.Str "https://support.example.com/wifi");
               ("description", Js.Str "Restart the router")] ].

(** A world with a key, in which the service answers every request with
    [wifi_results]; its encoder is right for the queries made of letters. *)
Definition brave_world : World :=
  {| BRAVE_API_KEY := Some "BSA-key";
     encodeURIComponent := λ s, Some s;
     Number_toString := λ n, NilZero.string_of_int (Z.to_int n);
     fetch := λ _, Response true 200
                     (Some (Js.Object [("web", Js.Object [("results", Js.Array wifi_results)])])) |}.

Lemma search_web_at_most_topK_witness :
  Z.of_nat (length (search_web brave_world "wifi" 1)) ≤ 1.
Proof. by apply (search_web_at_most_topK brave_world "wifi" 1). Defined.

Lemma search_web_filters_results_witness :
  search_web brave_world "wifi" 5
  = [SearchResult (Js.Str "Fix Wi-Fi") (Js.Str "https://support.example.com/wifi")
       (Js.Str "Restart the router")].
Proof.
  pose proof (search_web_filters_results brave_world "wifi" 5 "wifi" 200
                (Js.Object [("web", Js.Object [("results", Js.Array wifi_results)])])
                (Js.Object [("results", Js.Array wifi_results)]) wifi_results
                eq_refl eq_refl eq_refl eq_refl eq_refl) as [Hkept _].
  destruct Hkept as [-> _]; [|reflexivity].
  repeat constructor; by eexists.
Defined.

End Search.

(* ===================================================================== *)
(** * The diagram tool ([make_svg_diagram] of [lib/tools.ts]) *)
(* ===================================================================== *)

Module SvgDiagram.
Import JsString StringMethods.

(** The text of a number in a template literal, for the natural numbers
    the function prints (lengths and positions, far below the bound where
    the notation changes). *)
Definition Number_toString (n : nat) : string :=
  NilZero.string_of_uint (Nat.to_uint n).

(** An attribute [ name="value"] of a tag. *)
Definition attr (name value : string) : string :=
  " " ++ name ++ "=" ++ LLM.dquote ++ value ++ LLM.dquote.

(** The length of the separator that stands at the head of [s], for the
    regular expression [/->|→|to|then/].  The arrow [→] is one code unit
    above 255 and does not occur in a [string]. *)
Definition separator_at (s : string) : option nat :=
  if String.prefix "->" s then Some 2%nat
  else if String.prefix "to" s then Some 2%nat
  else if String.prefix "then" s then Some 4%nat
  else None.

(** [s.split(/->|→|to|then/)]: [skip] characters of a separator are still
    to be passed, [current] is the piece read so far. *)
Fixpoint split_separators (skip : nat) (current : string) (s : string) : list string :=
  match s with
  | EmptyString => [current]
  | String c s' =>
      match skip with
      | S skip' => split_separators skip' current s'
      | O =>
          match separator_at s with
          | Some n => current :: split_separators (n - 1) EmptyString s'
          | None => split_separators 0 (current ++ String c EmptyString) s'
          end
      end
  end.

(** The labels of the boxes. *)
Definition parts_of (spec : string) : list string :=
  let spec := if bool_decide (spec = EmptyString) || bool_decide (trim spec = EmptyString)
              then "IT Support Flow" else spec in
  let parts :=
    List.filter (λ part, (0 <? String.length part)%nat)
      (map trim (split_separators 0 EmptyString spec)) in
  match parts with
  | [] => ["Process"]
  | _ => parts
  end.

Definition boxWidth : nat := 120.
Definition boxHeight : nat := 60.
Definition arrowLength : nat := 40.
Definition padding : nat := 20.

Definition colors : list string :=
  ["#e3f2fd"; "#f3e5f5"; "#e8f5e8"; "#fff3e0"; "#fce4ec"].
Definition strokeColors : list string :=
  ["#2196f3"; "#9c27b0"; "#4caf50"; "#ff9800"; "#e91e63"].

(** [part.length > 15 ? part.substring(0, 12) + '...' : part] *)
Definition displayText (part : string) : string :=
  if (15 <? String.length part)%nat then substring0 12 part ++ "..." else part.

(** What one run of the callback of [forEach] appends, [n] being
    [parts.length]. *)
Definition box (n : nat) (index : nat) (part : string) : string :=
  let x := (padding + index * (boxWidth + arrowLength))%nat in
  let y := (padding + 20)%nat in
  let color := nth (index mod 5) colors EmptyString in
  let strokeColor := nth (index mod 5) strokeColors EmptyString in
  "<rect" ++ attr "x" (Number_toString x) ++ attr "y" (Number_toString y)
    ++ attr "width" (Number_toString boxWidth)
    ++ attr "height" (Number_toString boxHeight)
    ++ attr "fill" color ++ attr "stroke" strokeColor
    ++ attr "stroke-width" "2" ++ attr "rx" "8" ++ "/>"
  ++ "<text" ++ attr "x" (Number_toString (x + boxWidth / 2))
    ++ attr "y" (Number_toString (y + boxHeight / 2 + 5))
    ++ attr "text-anchor" "middle" ++ attr "font-family" "Arial, sans-serif"
    ++ attr "font-size" "12" ++ attr "fill" "#333" ++ ">"
    ++ displayText part ++ "</text>"
  ++ (if (index + 1 <? n)%nat then
        let arrowX := (x + boxWidth + arrowLength / 2)%nat in
        let arrowY := (y + boxHeight / 2)%nat in
        "<line" ++ attr "x1" (Number_toString (x + boxWidth))
          ++ attr "y1" (Number_toString arrowY)
          ++ attr "x2" (Number_toString arrowX)
          ++ attr "y2" (Number_toString arrowY)
          ++ attr "stroke" "#666" ++ attr "stroke-width" "2"
          ++ attr "marker-end" "url(#arrowhead)" ++ "/>"
        ++ (if (index =? 0)%nat then
              "<defs><marker" ++ attr "id" "arrowhead" ++ attr "markerWidth" "10"
                ++ attr "markerHeight" "7" ++ attr "refX" "9" ++ attr "refY" "3.5"
                ++ attr "orient" "auto" ++ ">"
              ++ "<polygon" ++ attr "points" "0 0, 10 3.5, 0 7"
                ++ attr "fill" "#666" ++ "/>"
              ++ "</marker></defs>"
            else EmptyString)
      else EmptyString).

(** The boxes from [index] on. *)
Fixpoint boxes (n : nat) (index : nat) (parts : list string) : string :=
  match parts with
  | [] => EmptyString
  | part :: parts' => box n index part ++ boxes n (S index) parts'
  end.

(** The text before the boxes. *)
Definition header (n : nat) : string :=
  let totalWidth := (n * (boxWidth + arrowLength) + padding)%nat in
  let totalHeight := (boxHeight + padding * 2)%nat in
  "<svg" ++ attr "width" (Number_toString totalWidth)
    ++ attr "height" (Number_toString totalHeight)
    ++ attr "xmlns" "http://www.w3.org/2000/svg" ++ ">"
  ++ "<rect" ++ attr "width" (Number_toString totalWidth)
    ++ attr "height" (Number_toString totalHeight)
    ++ attr "fill" "#f8f9fa" ++ attr "stroke" "#dee2e6"
    ++ attr "stroke-width" "2" ++ attr "rx" "8" ++ "/>"
  ++ "<text" ++ attr "x" (Number_toString (totalWidth / 2)) ++ attr "y" "25"
    ++ attr "text-anchor" "middle" ++ attr "font-family" "Arial, sans-serif"
    ++ attr "font-size" "14" ++ attr "font-weight" "bold" ++ attr "fill" "#495057"
    ++ ">IT Support Flow</text>".

(** [make_svg_diagram(spec).svg] *)
Definition make_svg_diagram (spec : string) : string :=
  let parts := parts_of spec in
  let n := length parts in
  trim (header n ++ boxes n 0 parts ++ "</svg>").

Lemma trimEnd_last (s : string) (c : ascii) :
  is_space c = false → trimEnd (s ++ String c "") = (s ++ String c "")%string.
Proof.
  intros Hc. induction s as [|x s IH].
  - change (trimEnd (String c "") = String c ""). cbn [trimEnd]. by rewrite Hc.
  - change (trimEnd (String x (s ++ String c ""))
            = String x (s ++ String c "")).
    cbn [trimEnd]. rewrite IH. by destruct s.
Qed.

(** A text that neither starts nor ends with white space is its own trim. *)
Lemma trim_tight (c d : ascii) (s : string) :
  is_space c = false → is_space d = false →
  trim (String c (s ++ String d "")) = String c (s ++ String d "").
Proof.
  intros Hc Hd. unfold trim. cbn [trimStart]. rewrite Hc.
  change (String c (s ++ String d "")) with ((String c s) ++ String d "")%string.
  by apply trimEnd_last.
Qed.

Lemma parts_of_labels (spec : string) :
  parts_of spec ≠ [] ∧ Forall (λ part, part ≠ "") (parts_of spec).
Proof.
  unfold parts_of.
  set (parts := List.filter _ _).
  assert (Forall (λ part : string, part ≠ "") parts) as Hall.
  { apply Forall_forall. intros part Hin%list_elem_of_In.
    apply filter_In in Hin as [_ Hlen]. by destruct part. }
  destruct parts as [|part parts]; [|done].
  split; [done|]. by repeat constructor.
Qed.

Lemma length_displayText (part : string) :
  (String.length (displayText part) ≤ 15)%nat.
Proof.
  unfold displayText. destruct (Nat.ltb_spec 15 (String.length part)); [|lia].
  rewrite length_append, length_substring0.
  change (String.length "...") with 3%nat. lia.
Qed.

Lemma displayText_short (part : string) :
  (String.length part ≤ 15)%nat → displayText part = part.
Proof.
  unfold displayText. intros ?.
  by destruct (Nat.ltb_spec 15 (String.length part)); [lia|].
Qed.

(** The text between the first character and the last one. *)
Definition inner (n : nat) (parts : list string) : string :=
  match header n ++ boxes n 0 parts ++ "</svg" with
  | String _ s => s
  | EmptyString => EmptyString
  end.

Lemma svg_text (n : nat) (parts : list string) :
  (header n ++ boxes n 0 parts ++ "</svg>")%string
  = String "<" (inner n parts ++ String ">" "").
Proof.
  unfold inner.
  change "</svg>" with ("</svg" ++ String ">" "")%string.
  rewrite <-!StringMethods.append_assoc.
  rewrite (StringMethods.append_assoc (header n)).
  by unfold header, attr.
Qed.

(** X27.  [make_svg_diagram] draws a well-formed diagram for every text.
    Whatever the specification is (empty, blank or made of separators
    only), there is at least one box and no box has an empty label; the
    result is the header, the elements of each box in turn and the closing
    tag, and [trim] leaves it as it is; it starts with [<svg] and ends
    with [</svg>]; and with any caption that is not empty it is a diagram
    that [DiagramSchema] of the answer contract accepts. *)
Theorem make_svg_diagram_well_formed (spec : string) :
  let parts := parts_of spec in
  let svg := make_svg_diagram spec in
  parts ≠ [] ∧ Forall (λ part, part ≠ "") parts ∧
  svg = (header (length parts) ++ boxes (length parts) 0 parts ++ "</svg>")%string ∧
  startsWith "<svg" svg = true ∧ endsWith svg "</svg>" = true ∧
  ∀ (caption : string) (path : list Zod.seg), caption ≠ "" →
    AnswerSchema.DiagramSchema path
      (AnswerSchema.Diagram_toJs (AnswerSchema.Diagram.mk caption svg))
    = Zod.Success (AnswerSchema.Diagram.mk caption svg).
Proof.
  intros parts svg.
  destruct (parts_of_labels spec) as [Hne Hall].
  assert (svg = (header (length parts) ++ boxes (length parts) 0 parts ++ "</svg>")%string)
    as Hsvg.
  { unfold svg, make_svg_diagram. fold parts.
    rewrite svg_text. by apply trim_tight. }
  assert (startsWith "<svg" svg = true) as Hstart.
  { rewrite Hsvg. by unfold header, attr. }
  repeat split; try done.
  - rewrite Hsvg, <-!StringMethods.append_assoc.
    apply StringMethods.endsWith_spec. by eexists.
  - intros caption path Hcaption. apply AnswerSchema.Diagram_toJs_parse.
    unfold AnswerSchema.Diagram_ok. cbn [AnswerSchema.Diagram.caption AnswerSchema.Diagram.svg].
    rewrite !andb_true_iff. repeat split.
    + by destruct caption.
    + rewrite Hsvg. by unfold header, attr.
    + unfold svg, make_svg_diagram. fold parts. rewrite svg_text.
      rewrite !trim_tight by done. rewrite <-svg_text. by unfold header, attr.
Qed.

(** ** A chain of plain labels *)
























(** The separators are looked for inside words too. *)
Remark word_with_to_is_cut :
  parts_of "Phone -> Bluetooth Radio" = ["Phone"; "Blue"; "oth Radio"].
Proof. reflexivity. Qed.

End SvgDiagram.

(* ===================================================================== *)
(** * The quick rubric check ([quickRubricCheck] of [lib/rubric.ts]) *)
(* ===================================================================== *)

Module Rubric.
Import JsString.

(** The entries of [issues], by the template that builds them:
    - ['Answer is not a valid object']
    - ['Missing or invalid citations array']
    - [`Citations count (${n}) must be between 2-5`]
    - [`Citations must be from ≥2 distinct domains (found ${n})`]
    - [`Step ${n} has empty OS array`]
    - [`Step ${n} missing OS labels`]
    - ['Missing or empty steps array']
    - [`Validation error: ${message}`], the message being the engine's. *)
Inductive Issue :=
| NotAnObject
| CitationsMissing
| CitationsCount (n : nat)
| DistinctDomains (found : nat)
| StepEmptyOS (number : nat)
| StepMissingOS (number : nat)
| StepsMissing
| ValidationError.

(** The entries of [warnings]:
    - ['No warnings provided - consider adding warnings for risky operations']
    - ['No decision tree fallbacks provided'] *)
Inductive Warning :=
| NoWarnings
| NoFallbacks.

Record Result := mkResult {
  isValid : bool;
  issues : list Issue;
  warnings : list Warning
}.

(** [!!v] (a number of this model is never [NaN]). *)
Definition truthy (v : Js.value) : bool :=
  match v with
  | Js.Undefined | Js.Null => false
  | Js.Bool b => b
  | Js.Number q => negb (bool_decide (q = Qc_of_Z 0))
  | Js.Str s => negb (bool_decide (s = EmptyString))
  | Js.Array _ | Js.Object _ => true
  end.

(** [typeof v === 'object'] *)
Definition typeof_object (v : Js.value) : bool :=
  match v with
  | Js.Null | Js.Array _ | Js.Object _ => true
  | _ => false
  end.

(** [!v || !Array.isArray(v) || v.length === 0] *)
Definition no_elements (v : Js.value) : bool :=
  match v with
  | Js.Array (_ :: _) => false
  | _ => true
  end.

(** [h.replace(/^www\./, '')] *)
Definition strip_www (h : string) : string :=
  if String.prefix "www." h then String.substring 4 (String.length h - 4) h else h.

Section with_URL.

(** [new URL(s).hostname] for a string, [None] when the constructor throws;
    and the text [new URL(v)] makes of a value that is no string. *)
Variable URL_hostname : string → option string.
Variable String_of : Js.value → string.

(** [new URL(v).hostname] *)
Definition hostname_of (v : Js.value) : option string :=
  match v with
  | Js.Str s => URL_hostname s
  | _ => URL_hostname (String_of v)
  end.

(** The callback of [citations.map]: [None] is [null]. *)
Definition domain_of (c : Js.value) : option string :=
  url ← Js.get c "url";
  strip_www <$> hostname_of url.

(** [citations.map(...).filter(Boolean)] *)
Definition domains_of (citations : list Js.value) : list string :=
  List.filter (λ d, negb (bool_decide (d = EmptyString))) (omap domain_of citations).

(** [new Set(domains).size] *)
Definition unique_count (domains : list string) : nat :=
  length (remove_dups domains).

(** 2) Check citations *)
Definition check_citations (citations : Js.value) : list Issue :=
  match citations with
  | Js.Array cs =>
      (if (length cs <? 2)%nat || (5 <? length cs)%nat
       then [CitationsCount (length cs)] else [])
      ++ (let found := unique_count (domains_of cs) in
          if (found <? 2)%nat then [DistinctDomains found] else [])
  | _ => [CitationsMissing]
  end.

(** The callback of [steps.forEach]: [None] when reading [stepObj.os]
    throws. *)
Definition check_step (index : nat) (step : Js.value) : option (list Issue) :=
  os ← Js.get step "os";
  Some (match os with
        | Js.Array [] => [StepEmptyOS (index + 1)]
        | Js.Array _ => []
        | _ => [StepMissingOS (index + 1)]
        end).

(** The whole [forEach], from [index] on. *)
Fixpoint check_steps_from (index : nat) (steps : list Js.value) : option (list Issue) :=
  match steps with
  | [] => Some []
  | step :: steps' =>
      here ← check_step index step;
      rest ← check_steps_from (S index) steps';
      Some (here ++ rest)
  end.

(** 4) Check OS labels consistency *)
Definition check_steps (steps : Js.value) : option (list Issue) :=
  match steps with
  | Js.Array ss => check_steps_from 0 ss
  | _ => Some []
  end.

(** The body of the [try] block, [None] when it throws. *)
Definition quickRubricCheck_try (answer : Js.value) : option Result :=
  if negb (truthy answer) || negb (typeof_object answer)
  then Some (mkResult false [NotAnObject] [])
  else
    citations ← Js.get answer "citations";
    let issues2 := check_citations citations in
    warnings_ ← Js.get answer "warnings";
    let warnings3 := if no_elements warnings_ then [NoWarnings] else [] in
    steps ← Js.get answer "steps";
    issues4 ← check_steps steps;
    decision_tree ← Js.get answer "decision_tree";
    let warnings5 := if no_elements decision_tree then [NoFallbacks] else [] in
    let issues6 := if no_elements steps then [StepsMissing] else [] in
    let issues := issues2 ++ issues4 ++ issues6 in
    Some (mkResult (bool_decide (issues = [])) issues (warnings3 ++ warnings5)).

(** [quickRubricCheck(answer)] *)
Definition quickRubricCheck (answer : Js.value) : Result :=
  match quickRubricCheck_try answer with
  | Some result => result
  | None => mkResult false [ValidationError] []
  end.

Lemma check_steps_from_nil (index : nat) (steps : list Js.value) :
  check_steps_from index steps = Some [] ↔
  Forall (λ step, ∃ o os, Js.get step "os" = Some (Js.Array (o :: os))) steps.
Proof.
  revert index. induction steps as [|step steps IH]; intros index; cbn [check_steps_from].
  - split; [by constructor|done].
  - unfold check_step. split.
    + destruct (Js.get step "os") as [os|] eqn:Hos; [|done]. cbn.
      destruct (check_steps_from (S index) steps) as [rest|] eqn:Hrest; [|done]. cbn.
      intros [= Hnil]. apply app_eq_nil in Hnil as [Hhere ->].
      constructor; [|by eapply IH].
      destruct os as [| | | | |[|o os]|]; try done. by exists o, os.
    + intros Hall. apply Forall_cons in Hall as [(o & os & ->) Hall]. cbn.
      apply (IH (S index)) in Hall as ->. done.
Qed.

Lemma check_steps_from_None (index : nat) (steps : list Js.value) :
  (∃ step, step ∈ steps ∧ Js.get step "os" = None) →
  check_steps_from index steps = None.
Proof.
  intros (step & Hin & Hos). revert index.
  induction steps as [|step' steps IH]; intros index; [by apply elem_of_nil in Hin|].
  cbn [check_steps_from]. apply elem_of_cons in Hin as [<-|Hin].
  - unfold check_step. by rewrite Hos.
  - destruct (check_step index step'); [|done]. cbn. by rewrite IH.
Qed.

Lemma check_citations_nil (citations : Js.value) :
  check_citations citations = [] ↔
  ∃ cs, citations = Js.Array cs ∧ (2 ≤ length cs ≤ 5)%nat ∧
        (2 ≤ unique_count (domains_of cs))%nat.
Proof.
  unfold check_citations. split.
  - destruct citations as [| | | | |cs|]; try done.
    intros [Hcount Hfound]%app_eq_nil. exists cs. split; [done|].
    destruct (Nat.ltb_spec (length cs) 2); [done|].
    destruct (Nat.ltb_spec 5 (length cs)); [done|].
    destruct (Nat.ltb_spec (unique_count (domains_of cs)) 2); [done|]. lia.
  - intros (cs & -> & Hcount & Hfound).
    destruct (Nat.ltb_spec (length cs) 2); [lia|].
    destruct (Nat.ltb_spec 5 (length cs)); [lia|].
    by destruct (Nat.ltb_spec (unique_count (domains_of cs)) 2); [lia|].
Qed.

(** X29.  What the quick check calls valid.  [isValid] holds exactly when
    no issue was recorded, and exactly when the answer has an array of 2 to
    5 citations under [citations] whose entries give at least 2 different
    host names (a leading [www.] apart), and an array under [steps] that is
    not empty and whose every entry has an array under [os] that is not
    empty; warnings play no part.  When a step is [null] or [undefined],
    the check ends in its [catch] block: the result is invalid with the
    single issue 'Validation error' and no warning, whatever was found
    before. *)
Theorem quickRubricCheck_isValid (answer : Js.value) :
  let result := quickRubricCheck answer in
  (isValid result = true ↔ issues result = []) ∧
  (isValid result = true ↔
   ∃ cs ss,
     Js.get answer "citations" = Some (Js.Array cs) ∧
     (2 ≤ length cs ≤ 5)%nat ∧ (2 ≤ unique_count (domains_of cs))%nat ∧
     Js.get answer "steps" = Some (Js.Array ss) ∧ ss ≠ [] ∧
     Forall (λ step, ∃ o os, Js.get step "os" = Some (Js.Array (o :: os))) ss) ∧
  (∀ ss step,
     Js.get answer "steps" = Some (Js.Array ss) →
     step ∈ ss → step = Js.Null ∨ step = Js.Undefined →
     result = mkResult false [ValidationError] []).
Proof.
  cbn zeta.
  assert (∀ ss step,
            Js.get answer "steps" = Some (Js.Array ss) →
            step ∈ ss → step = Js.Null ∨ step = Js.Undefined →
            quickRubricCheck answer = mkResult false [ValidationError] []) as Hnull.
  { intros ss step Hss Hin Hstep.
    destruct answer as [| | | | | |props]; try done.
    unfold quickRubricCheck, quickRubricCheck_try.
    cbn [truthy typeof_object negb orb Js.get mbind option_bind] in Hss |- *.
    injection Hss as ->. cbn [check_steps].
    rewrite (check_steps_from_None 0 ss); [done|].
    exists step. split; [done|]. by destruct Hstep as [-> | ->]. }
  refine ((λ H, conj (proj1 H) (conj (proj2 H) Hnull)) _). clear Hnull.
  unfold quickRubricCheck, quickRubricCheck_try.
  destruct answer as [| |b|q|s|l|props];
    try (cbn; split; [done|]; split; [done|]; by intros (? & ? & ? & _)).
  - cbn. destruct (negb b); (split; [done|]); split; try done;
      by intros (? & ? & ? & _).
  - cbn. destruct (negb _); (split; [done|]); split; try done;
      by intros (? & ? & ? & _).
  - cbn. destruct (negb _); (split; [done|]); split; try done;
      by intros (? & ? & ? & _).
  - cbn [truthy typeof_object negb orb Js.get mbind option_bind].
    set (citations := Js.lookup_prop "citations" props).
    set (steps := Js.lookup_prop "steps" props).
    destruct (check_steps steps) as [issues4|] eqn:H4; cbn [mbind option_bind].
    2:{ cbn. split; [done|]. split; [done|].
        intros (cs & ss & _ & _ & _ & [= Hss] & _ & Hall).
        rewrite Hss in H4. cbn in H4.
        apply (check_steps_from_nil 0) in Hall. by rewrite Hall in H4. }
    cbn [isValid issues]. split; [apply bool_decide_eq_true|].
    rewrite bool_decide_eq_true. split.
    + intros [H2 [-> H6]%app_eq_nil]%app_eq_nil.
      apply check_citations_nil in H2 as (cs & Hcs & Hcount & Hfound).
      destruct steps as [| | | | |[|step ss]|] eqn:Hsteps; try done.
      exists cs, (step :: ss). rewrite <-Hcs. repeat split; try done; try lia.
      by apply (check_steps_from_nil 0).
    + intros (cs & ss & [= Hcs] & Hcount & Hfound & [= Hss] & Hne & Hall).
      assert (check_citations citations = []) as ->.
      { apply check_citations_nil. by exists cs. }
      rewrite Hss in H4. cbn in H4.
      apply (check_steps_from_nil 0) in Hall. rewrite Hall in H4.
      injection H4 as <-. rewrite Hss. by destruct ss.
Qed.

Lemma check_steps_valid (index : nat) (ss : list AnswerSchema.Step.t) :
  Forall AnswerSchemaFacts.Step_valid ss →
  check_steps_from index (map AnswerSchema.Step_toJs ss) = Some [].
Proof.
  intros Hall. apply check_steps_from_nil, Forall_fmap.
  eapply Forall_impl; [exact Hall|]. intros s (_ & _ & Hos & _).
  destruct (AnswerSchema.Step.os s) as [|o os] eqn:Heq; [done|].
  eexists _, _. unfold AnswerSchema.Step_toJs. rewrite Heq. reflexivity.
Qed.

(** X30.  The quick check rejects an answer that the schema accepts only
    for its domains.  For an answer that meets the contract of the schema,
    the quick check records no issue but 'Citations must be from ≥2
    distinct domains', and records it exactly when the citations give fewer
    than 2 different host names; so [isValid] holds exactly when they give
    at least 2.  It warns of missing warnings exactly when the answer has
    none, and of missing fallbacks exactly when the decision tree is
    empty. *)
Theorem schema_valid_answer_quick_check (a : AnswerSchema.Answer) :
  AnswerSchemaFacts.Answer_valid URL_hostname a →
  let result := quickRubricCheck (AnswerSchema.Answer_toJs a) in
  let found :=
    unique_count
      (domains_of (map AnswerSchema.Citation_toJs (AnswerSchema.citations a))) in
  issues result = (if (found <? 2)%nat then [DistinctDomains found] else []) ∧
  (isValid result = true ↔ (2 ≤ found)%nat) ∧
  warnings result
  = (if bool_decide (AnswerSchema.warnings a = []) then [NoWarnings] else [])
    ++ (if bool_decide (AnswerSchema.decision_tree a = []) then [NoFallbacks] else []).
Proof.
  intros (_ & _ & Hsteps & Hstepsv & _ & _ & Hcount & _) result found.
  assert (quickRubricCheck_try (AnswerSchema.Answer_toJs a)
          = Some (mkResult
              (bool_decide ((if (found <? 2)%nat then [DistinctDomains found] else []) = []))
              (if (found <? 2)%nat then [DistinctDomains found] else [])
              ((if bool_decide (AnswerSchema.warnings a = []) then [NoWarnings] else [])
               ++ (if bool_decide (AnswerSchema.decision_tree a = [])
                   then [NoFallbacks] else [])))) as Htry.
  { unfold quickRubricCheck_try.
    change (negb (truthy (AnswerSchema.Answer_toJs a))
            || negb (typeof_object (AnswerSchema.Answer_toJs a))) with false.
    cbn match.
    change (Js.get (AnswerSchema.Answer_toJs a) "citations")
      with (Some (Js.Array (map AnswerSchema.Citation_toJs (AnswerSchema.citations a)))).
    change (Js.get (AnswerSchema.Answer_toJs a) "warnings")
      with (Some (AnswerSchema.strings_toJs (AnswerSchema.warnings a))).
    change (Js.get (AnswerSchema.Answer_toJs a) "steps")
      with (Some (Js.Array (map AnswerSchema.Step_toJs (AnswerSchema.steps a)))).
    change (Js.get (AnswerSchema.Answer_toJs a) "decision_tree")
      with (Some (Js.Array (map AnswerSchema.DecisionTree_toJs
                              (AnswerSchema.decision_tree a)))).
    cbn [mbind option_bind check_steps].
    rewrite (check_steps_valid 0) by done. cbn [mbind option_bind].
    unfold check_citations. rewrite length_map. fold found.
    destruct (Nat.ltb_spec (length (AnswerSchema.citations a)) 2); [lia|].
    destruct (Nat.ltb_spec 5 (length (AnswerSchema.citations a))); [lia|].
    cbn [orb app].
    assert (no_elements (Js.Array (map AnswerSchema.Step_toJs (AnswerSchema.steps a)))
            = false) as ->.
    { by destruct (AnswerSchema.steps a). }
    rewrite !app_nil_r.
    assert (no_elements (AnswerSchema.strings_toJs (AnswerSchema.warnings a))
            = bool_decide (AnswerSchema.warnings a = [])) as ->.
    { by destruct (AnswerSchema.warnings a). }
    assert (no_elements (Js.Array (map AnswerSchema.DecisionTree_toJs
                                     (AnswerSchema.decision_tree a)))
            = bool_decide (AnswerSchema.decision_tree a = [])) as ->.
    { by destruct (AnswerSchema.decision_tree a). }
    done. }
  unfold result, quickRubricCheck. rewrite Htry. cbn [issues isValid warnings].
  repeat split; try done.
  - destruct (Nat.ltb_spec found 2); [done|lia].
  - intros ?. by destruct (Nat.ltb_spec found 2); [lia|].
Qed.

End with_URL.

Lemma schema_valid_answer_quick_check_witness :
  isValid (quickRubricCheck URL.hostname (λ _, EmptyString)
             (AnswerSchema.Answer_toJs LLM.same_domain_answer)) = true.
Proof.
  destruct (schema_valid_answer_quick_check URL.hostname (λ _, EmptyString)
              LLM.same_domain_answer) as (_ & Hvalid & _).
  - apply AnswerSchemaFacts.Answer_ok_valid. by vm_compute.
  - apply Hvalid. vm_compute. lia.
Defined.

End Rubric.
